(** * GcodeToolbox: geometry and toolpath core of [main.js]

    A shallow embedding of the toolpath generator of the G-code toolbox
    ([Gcode generator/main.js]) and the properties of its depth scheduler,
    contour offset engine, spiral pocket planner, tab profile, arc fitting
    and origin transform.

    JavaScript numbers are embedded as real numbers: [+ - * /], [Math.abs],
    [Math.min], [Math.max], [Math.hypot], [Math.cos], [Math.sin] are the
    operations of [R]; [Math.ceil] is [Zceil], [Math.round] is
    [fun x => Zfloor (x + 1/2)] (JavaScript rounds halves towards plus
    infinity).  Comparisons the code branches on are the decidable
    comparisons of [R].  Arrays are lists, objects are records, [null] is
    [None].  The concrete inputs below are chosen so that every comparison
    the code makes on them has the same outcome in binary64 arithmetic. *)

From Stdlib Require Import String.
From Stdlib Require Import Reals Lra Lia Psatz ZArith Bool List Sorted.
Import ListNotations.
Local Open Scope R_scope.

(** ** JavaScript number helpers *)

Module Js.

Definition ltb (a b : R) : bool := if Rlt_dec a b then true else false.
Definition leb (a b : R) : bool := if Rle_dec a b then true else false.
Definition gtb (a b : R) : bool := ltb b a.
Definition geb (a b : R) : bool := leb b a.

(** [Math.round]: nearest integer, halves up. *)
Definition round (x : R) : Z := Zfloor (x + / 2).

(** [Math.ceil]. *)
Definition ceil (x : R) : Z := Zceil x.

(** [Math.hypot] on two arguments. *)
Definition hypot (x y : R) : R := sqrt (x * x + y * y).

End Js.

(** ** Depth layering: [computeDepthLevels] (main.js 976-986) *)

Module Depth.

(** [const round1 = (v) => Math.round(v * 10) / 10]. *)
Definition round1 (v : R) : R := IZR (Js.round (v * 10)) / 10.

(** [Math.max(1, Math.ceil(totalDepth / stepdown))], for a stepdown other
    than 0; the division by 0, which gives [Infinity] or [NaN] in the code,
    is in [Finiteness.numLayers]. *)
Definition numLayers (totalDepth stepdown : R) : nat :=
  Z.to_nat (Z.max 1 (Js.ceil (totalDepth / stepdown))).

(** Body of the loop for index [i]. *)
Definition depthAt (totalDepth : R) (n : nat) (layerHeight : R) (i : nat) : R :=
  let z := if Nat.eqb i n then - totalDepth else - INR i * layerHeight in
  - round1 (Rabs z).

Definition computeDepthLevels (totalDepth stepdown : R) : list R :=
  let n := numLayers totalDepth stepdown in
  let layerHeight := totalDepth / INR n in
  map (depthAt totalDepth n layerHeight) (seq 1 n).





End Depth.

(** ** Points and polygon area: [distance2D], [polygonSignedArea2]
       (main.js 211-215, 507-516) *)

Module Geometry.

(** A point [{x, y, z}]. *)
Record Point : Type := mkPoint { x : R; y : R; z : R }.

Definition origin : Point := mkPoint 0 0 0.

(** [pts[i]]. *)
Definition nthP (pts : list Point) (i : nat) : Point := nth i pts origin.

(** [distance2D(a, b)]. *)
Definition distance2D (a b : Point) : R := Js.hypot (x a - x b) (y a - y b).

(** One iteration of the loop of [polygonSignedArea2]. *)
Definition areaStep (pts : list Point) (sum : R) (i : nat) : R :=
  let n := length pts in
  let j := ((i + 1) mod n)%nat in
  sum + (x (nthP pts j) - x (nthP pts i)) * (y (nthP pts j) + y (nthP pts i)).

Definition polygonSignedArea2 (pts : list Point) : R :=
  if (length pts <? 3)%nat then 0
  else fold_left (areaStep pts) (seq 0 (length pts)) 0.

(** The shoelace sum: twice the signed area of the polygon [pts] in the
    usual orientation of the plane (x to the right, y upwards), positive when
    the vertices run counter-clockwise. *)
Definition shoelaceStep (pts : list Point) (sum : R) (i : nat) : R :=
  let n := length pts in
  let j := ((i + 1) mod n)%nat in
  sum + (x (nthP pts i) * y (nthP pts j) - x (nthP pts j) * y (nthP pts i)).

Definition shoelace2 (pts : list Point) : R :=
  fold_left (shoelaceStep pts) (seq 0 (length pts)) 0.

(** [a], [b], [c] make a left (counter-clockwise) turn. *)
Definition left_turn (a b c : Point) : Prop :=
  0 < (x b - x a) * (y c - y a) - (y b - y a) * (x c - x a).

(** Every three consecutive vertices of the polygon turn left: a convex
    polygon listed counter-clockwise. *)
Definition convex_ccw (pts : list Point) : Prop :=
  let n := length pts in
  forall i, (i < n)%nat ->
    left_turn (nthP pts i) (nthP pts ((i + 1) mod n)) (nthP pts ((i + 2) mod n)).

End Geometry.

(** ** Contour offset: [contourOffset], [pocketRingsFromInnerContour]
       (main.js 528-657) *)

Module Offset.
Import Geometry.

Definition closeTol : R := / 1000000000.   (* 1e-9 *)
Definition tol : R := / 1000000.           (* 1e-6 *)
Definition minLen : R := / 1000000.        (* 1e-6 *)
Definition crossTol : R := / 100000000000000. (* 1e-14 *)
Definition areaTol : R := / 1000000.       (* 1e-6 *)

(** The value returned and the [failReason] the call leaves in [debug]
    ([None]: the call does not set it). *)
Definition Outcome : Type := (option (list Point) * option string)%type.

(** [closed]: first and last point agree within 1e-9. *)
Definition isClosed (pts : list Point) : bool :=
  let n := length pts in
  (2 <=? n)%nat
  && Js.ltb (Rabs (x (nthP pts (n - 1)) - x (nthP pts 0))) closeTol
  && Js.ltb (Rabs (y (nthP pts (n - 1)) - y (nthP pts 0))) closeTol.

(** [if (closed) pts = pts.slice(0, n - 1)]. *)
Definition openPoints (contour : list Point) : list Point :=
  if isClosed contour then removelast contour else contour.

(** [out.length ? out[out.length - 1] : null]. *)
Definition lastOpt (out : list Point) : option Point :=
  match out with
  | [] => None
  | _ => Some (last out origin)
  end.

(** One iteration of the deduplication loop. *)
Definition dedupStep (out : list Point) (p : Point) : list Point :=
  match lastOpt out with
  | None => out ++ [p]
  | Some prev =>
      if Js.gtb (Rabs (x p - x prev)) tol || Js.gtb (Rabs (y p - y prev)) tol
      then out ++ [p] else out
  end.

Definition dedup (pts : list Point) : list Point := fold_left dedupStep pts [].

Definition prevIdx (n i : nat) : nat := ((i + n - 1) mod n)%nat.
Definition nextIdx (n i : nat) : nat := ((i + 1) mod n)%nat.

Definition midpoint (a b : Point) (zc : R) : Point :=
  mkPoint (/ 2 * (x a + x b)) (/ 2 * (y a + y b)) zc.

(** One iteration of the inner loop of a cleanup pass; the accumulator is
    [(next, changed)]. *)
Definition cleanupStep (pts : list Point) (acc : list Point * bool) (i : nat)
  : list Point * bool :=
  let n := length pts in
  let prev := nthP pts (prevIdx n i) in
  let curr := nthP pts i in
  let nextP := nthP pts (nextIdx n i) in
  let len1 := Js.hypot (x curr - x prev) (y curr - y prev) in
  let len2 := Js.hypot (x nextP - x curr) (y nextP - y curr) in
  if Js.ltb len1 minLen && Js.ltb len2 minLen then (fst acc, true)
  else if Js.ltb len1 minLen then (fst acc ++ [midpoint prev curr (z curr)], true)
  else if Js.ltb len2 minLen then (fst acc ++ [midpoint curr nextP (z curr)], true)
  else (fst acc ++ [curr], snd acc).

Definition cleanupPass (pts : list Point) : list Point * bool :=
  fold_left (cleanupStep pts) (seq 0 (length pts)) ([], false).

(** [for (let pass = 0; pass < 3; pass++)]: [None] is the [return null] inside
    the loop. *)
Fixpoint cleanup (passes : nat) (pts : list Point) : option (list Point) :=
  match passes with
  | O => Some pts
  | S k =>
      let (next, changed) := cleanupPass pts in
      if (length next <? 3)%nat then None
      else if changed then cleanup k next else Some next
  end.

(** [const sign = area2 >= 0 ? 1 : -1]. *)
Definition signOf (area2 : R) : R := if Js.geb area2 0 then 1 else -1.

(** One iteration of the offset loop: [None] when an adjacent edge is shorter
    than [minLen], else the offset vertex. *)
Definition offsetVertex (pts : list Point) (sign d z0 : R) (i : nat) : option Point :=
  let num := length pts in
  let prev := nthP pts (prevIdx num i) in
  let curr := nthP pts i in
  let next := nthP pts (nextIdx num i) in
  let dx1 := x curr - x prev in
  let dy1 := y curr - y prev in
  let dx2 := x next - x curr in
  let dy2 := y next - y curr in
  let len1 := Js.hypot dx1 dy1 in
  let len2 := Js.hypot dx2 dy2 in
  if Js.ltb len1 minLen || Js.ltb len2 minLen then None
  else
    let nx1 := sign * (- dy1 / len1) in
    let ny1 := sign * (dx1 / len1) in
    let nx2 := sign * (- dy2 / len2) in
    let ny2 := sign * (dx2 / len2) in
    let A1x := x prev + d * nx1 in
    let A1y := y prev + d * ny1 in
    let A2x := x curr + d * nx2 in
    let A2y := y curr + d * ny2 in
    let cross := dx1 * dy2 - dy1 * dx2 in
    if Js.ltb (Rabs cross) crossTol
    then Some (mkPoint (/ 2 * (A1x + A2x)) (/ 2 * (A1y + A2y)) z0)
    else
      let t := ((A2x - A1x) * dy2 - (A2y - A1y) * dx2) / cross in
      Some (mkPoint (A1x + t * dx1) (A1y + t * dy1) z0).

(** The offset loop over the indices [is], pushing onto [result]. *)
Fixpoint offsetLoop (pts : list Point) (sign d z0 : R) (idxs : list nat)
  (result : list Point) : option (list Point) :=
  match idxs with
  | [] => Some result
  | i :: rest =>
      match offsetVertex pts sign d z0 i with
      | None => None
      | Some p => offsetLoop pts sign d z0 rest (result ++ [p])
      end
  end.

(** The part of [contourOffset] after the cleanup passes. *)
Definition offsetCleaned (pts : list Point) (d : R) : Outcome :=
  let num := length pts in
  let area2 := polygonSignedArea2 pts in
  let sign := signOf area2 in
  let z0 := z (nthP pts 0) in
  match offsetLoop pts sign d z0 (seq 0 num) [] with
  | None => (None, Some "nul-rand in contour (letter te smal voor offset)"%string)
  | Some result =>
      if (length result <? 3)%nat then (None, None)
      else
        let outArea2 := polygonSignedArea2 result in
        if Js.ltb (Rabs outArea2) areaTol
        then (None, Some "te kleine oppervlakte na offset (frees te groot of letter te smal)"%string)
        else if Js.ltb (outArea2 * area2) 0
        then (None, Some "polygoon kantelt na offset"%string)
        else
          let r0 := nthP result 0 in
          (Some (result ++ [mkPoint (x r0) (y r0) z0]), None)
  end.

Definition contourOffset (contour : list Point) (distance : R) : Outcome :=
  if (length contour <? 3)%nat then (None, Some "contour te kort of leeg"%string)
  else if Req_dec_T distance 0 then (Some contour, None)
  else
    let pts := dedup (openPoints contour) in
    if (length pts <? 3)%nat then (None, Some "te weinig punten na opschonen"%string)
    else
      match cleanup 3 pts with
      | None => (None, None)
      | Some cleaned => offsetCleaned cleaned distance
      end.

Definition MAX_POCKET_RINGS : nat := 300.

(** The loop of [pocketRingsFromInnerContour]; [fuel] is the number of
    iterations left before [it] reaches [MAX_POCKET_RINGS]. *)
Fixpoint pocketRingsLoop (fuel : nat) (current : list Point) (stepover : R)
  (rings : list (list Point)) : list (list Point) :=
  match fuel with
  | O => rings
  | S k =>
      if (3 <=? length current)%nat then
        match fst (contourOffset current stepover) with
        | None => rings ++ [current]
        | Some next => pocketRingsLoop k next stepover (rings ++ [current])
        end
      else rings
  end.

Definition pocketRingsFromInnerContour (innerContour : list Point) (stepover : R)
  : list (list Point) :=
  pocketRingsLoop MAX_POCKET_RINGS innerContour stepover [].

(** *** The failure conditions of the specification *)

(** The points that enter the cleanup passes. *)
Definition usablePoints (contour : list Point) : list Point :=
  dedup (openPoints contour).



(** Some edge of the polygon is shorter than [minLen]. *)
Definition has_zero_edge (pts : list Point) : Prop :=
  exists i, (i < length pts)%nat /\
    distance2D (nthP pts (nextIdx (length pts) i)) (nthP pts i) < minLen.








(** *** Concrete contours *)

(** The 4 x 4 square, counter-clockwise and clockwise, closed. *)
Definition squareCCW : list Point :=
  [mkPoint 0 0 0; mkPoint 4 0 0; mkPoint 4 4 0; mkPoint 0 4 0; mkPoint 0 0 0].

Definition squareCW : list Point :=
  [mkPoint 0 0 0; mkPoint 0 4 0; mkPoint 4 4 0; mkPoint 4 0 0; mkPoint 0 0 0].



End Offset.

(** ** Moves and the origin transform: [applyOriginTransform]
       (main.js 2978-3055) *)

Module Toolpath.

(** [type] of a move; an arc carries its centre offset and direction. *)
Inductive MoveType : Type :=
| rapid
| cut
| arc (i j : R) (clockwise : bool).

(** A toolpath move [{x, y, z, type}]. *)
Record Move : Type := mkMove { x : R; y : R; z : R; type : MoveType }.

Inductive OperationType : Type := POCKET | CONTOUR | FACING_OP.

(** [xyOrigin]; [OTHER_XY] stands for any string the [switch] statements send
    to their [default] case. *)
Inductive XYOrigin : Type :=
| CENTER | BOTTOM_LEFT | BOTTOM_RIGHT | TOP_LEFT | TOP_RIGHT | OTHER_XY.

Inductive ZOrigin : Type := STOCK_TOP | STOCK_BOTTOM.

Inductive ContourType : Type := inside | outside.

Record OriginParams : Type := mkOrigin {
  xyOrigin : XYOrigin;
  zOrigin : ZOrigin;
  zOffset : R
}.

(** [facingBounds]: [{hw, hh}]. *)
Record FacingBounds : Type := mkBounds { hw : R; hh : R }.

(** The bounding box [(minX, minY, maxX, maxY)]; [None] is the initial state
    [(Infinity, Infinity, -Infinity, -Infinity)], left by the first move. *)
Definition BBox : Type := option (R * R * R * R).

Definition bboxStep (b : BBox) (m : Move) : BBox :=
  match b with
  | None => Some (x m, y m, x m, y m)
  | Some (minX, minY, maxX, maxY) =>
      Some (if Js.ltb (x m) minX then x m else minX,
            if Js.ltb (y m) minY then y m else minY,
            if Js.gtb (x m) maxX then x m else maxX,
            if Js.gtb (y m) maxY then y m else maxY)
  end.

Definition boundingBox (moves : list Move) : BBox := fold_left bboxStep moves None.

Definition isCenter (o : XYOrigin) : bool :=
  match o with CENTER => true | _ => false end.

(** [(shiftX, shiftY)]; [None] when the shift is computed from the bounds of
    an empty move list (not a finite number; it is then added to no move). *)
Definition originShift (b : BBox) (o : XYOrigin) (r : R) (operation : OperationType)
  (contourType : ContourType) (facingBounds : option FacingBounds) : option (R * R) :=
  let isFacing :=
    match operation, facingBounds with
    | FACING_OP, Some fb => Some fb
    | _, _ => None
    end in
  let contourOutside :=
    match operation, contourType with
    | CONTOUR, outside => true
    | _, _ => false
    end in
  match isFacing with
  | Some fb =>
      match o with
      | BOTTOM_LEFT => Some (hw fb, hh fb)
      | BOTTOM_RIGHT => Some (- hw fb, hh fb)
      | TOP_LEFT => Some (hw fb, - hh fb)
      | TOP_RIGHT => Some (- hw fb, - hh fb)
      | CENTER => Some (0, 0)
      | OTHER_XY => Some (hw fb, hh fb)
      end
  | None =>
      match b with
      | None => None
      | Some (minX, minY, maxX, maxY) =>
          if negb (isCenter o) then
            if contourOutside then
              match o with
              | BOTTOM_LEFT => Some (- minX - r, - minY - r)
              | BOTTOM_RIGHT => Some (r - maxX, - minY - r)
              | TOP_LEFT => Some (- minX - r, r - maxY)
              | TOP_RIGHT => Some (r - maxX, r - maxY)
              | _ => Some (- minX - r, - minY - r)
              end
            else
              match o with
              | BOTTOM_LEFT => Some (- minX + r, - minY + r)
              | BOTTOM_RIGHT => Some (- maxX - r, r - minY)
              | TOP_LEFT => Some (r - minX, - maxY - r)
              | TOP_RIGHT => Some (- maxX - r, - maxY - r)
              | _ => Some (- minX + r, - minY + r)
              end
          else Some (- (minX + maxX) / 2, - (minY + maxY) / 2)
      end
  end.

(** Body of the second [moves.forEach]. *)
Definition shiftMove (shiftX shiftY : R) (zOriginMode : ZOrigin) (totalDepth zOffset : R)
  (m : Move) : Move :=
  let z1 := match zOriginMode with
            | STOCK_BOTTOM => z m + totalDepth
            | STOCK_TOP => z m
            end in
  mkMove (x m + shiftX) (y m + shiftY) (z1 + zOffset) (type m).

Definition applyOriginTransform (moves : list Move) (originParams : OriginParams)
  (totalDepth toolRadiusForXYShift : R) (operation : OperationType)
  (contourType : ContourType) (facingBounds : option FacingBounds) : list Move :=
  match originShift (boundingBox moves) (xyOrigin originParams) toolRadiusForXYShift
          operation contourType facingBounds with
  | Some (shiftX, shiftY) =>
      map (shiftMove shiftX shiftY (zOrigin originParams) totalDepth (zOffset originParams))
          moves
  | None => moves
  end.

(** One translation applied to a move. *)
Definition translate (sx sy sz : R) (m : Move) : Move :=
  mkMove (x m + sx) (y m + sy) (z m + sz) (type m).

(** The Z shift of the transform. *)
Definition zShift (originParams : OriginParams) (totalDepth : R) : R :=
  match zOrigin originParams with
  | STOCK_BOTTOM => totalDepth + zOffset originParams
  | STOCK_TOP => zOffset originParams
  end.

(** [moves[i]]. *)
Definition nthM (moves : list Move) (i : nat) : Move := nth i moves (mkMove 0 0 0 rapid).

End Toolpath.

(** ** Pockets as wide as the tool: [getShapeMinSize], the one-point branch
       of [addLayerForPath] and the path of [generateToolpath] through it
       (main.js 221-241, 1691-1704, 2059-2100, 2142-2288, 2333-2346) *)

Module Generate.
Import Toolpath.

Inductive ShapeType : Type :=
| CIRCLE | SQUARE | RECTANGLE | FACING | ELLIPSE | LETTERS | COUNTERSUNK_BOLT
| PATTERNED_HOLES.

(** The fields of [shapeParams] that [getShapeMinSize] reads. *)
Record ShapeParams : Type := mkShapeParams {
  diameter : R;
  size : R;
  width : R;
  height : R;
  major : R;
  minor : R;
  fontSize : R;
  headDiameter : R;
  boltDiameter : R
}.

(** The fields of [cutParams] read on the path modelled here;
    [leadInAboveMm] may be absent. *)
Record CutParams : Type := mkCutParams {
  toolDiameter : R;
  totalDepth : R;
  stepdown : R;
  safeHeight : R;
  leadInAboveMm : option R
}.

Record Params : Type := mkParams {
  shape : ShapeType;
  operation : OperationType;
  shapeParams : ShapeParams;
  cutParams : CutParams;
  originParams : OriginParams;
  contourType : ContourType
}.

(** [v || Infinity]: [None] is [Infinity]. *)
Definition orInfinity (v : R) : option R := if Req_dec_T v 0 then None else Some v.

(** [Math.min] of two numbers that may be [Infinity]. *)
Definition minInf (a b : option R) : option R :=
  match a, b with
  | Some a', Some b' => Some (Rmin a' b')
  | Some a', None => Some a'
  | None, Some b' => Some b'
  | None, None => None
  end.

(** [getShapeMinSize]; [None] is a result that is not a finite number. *)
Definition getShapeMinSize (shape : ShapeType) (sp : ShapeParams) : option R :=
  match shape with
  | CIRCLE => Some (diameter sp)
  | SQUARE => Some (size sp)
  | RECTANGLE | FACING => Some (Rmin (width sp) (height sp))
  | ELLIPSE => Some (Rmin (major sp) (minor sp))
  | LETTERS => Some (fontSize sp)
  | COUNTERSUNK_BOLT => minInf (orInfinity (headDiameter sp)) (orInfinity (boltDiameter sp))
  | PATTERNED_HOLES => Some (diameter sp)
  end.

Definition epsSize : R := / 1000000.  (* 1e-6 *)

(** [equalToToolDiameter]. *)
Definition equalToToolDiameter (p : Params) : bool :=
  match getShapeMinSize (shape p) (shapeParams p) with
  | Some minSize => Js.leb (Rabs (minSize - toolDiameter (cutParams p))) epsSize
  | None => false
  end.

(** [moves[moves.length - 1]], absent for the empty list. *)
Definition lastMove (moves : list Move) : option Move :=
  match moves with
  | [] => None
  | _ => Some (last moves (mkMove 0 0 0 rapid))
  end.

(** [if (last && last.z < safeZ - 1e-6) moves.push({x: last.x, y: last.y, z: safeZ, type: "rapid"})]. *)
Definition retractIfBelow (moves : list Move) (safeZ : R) : list Move :=
  match lastMove moves with
  | Some l =>
      if Js.ltb (z l) (safeZ - / 1000000)
      then moves ++ [mkMove (x l) (y l) safeZ rapid]
      else moves
  | None => moves
  end.

(** [Math.max(0, cutParams.leadInAboveMm ?? 2)]. *)
Definition leadInAboveOf (c : CutParams) : R :=
  Rmax 0 (match leadInAboveMm c with Some v => v | None => 2 end).

(** [addLayerForPath] on a path of exactly one point [start]: the branch
    [path.length === 1] (main.js 2333-2346). *)
Definition addLayerForPoint (moves : list Move) (start : Geometry.Point) (depthZ : R)
  (c : CutParams) (safeZ : R) : list Move :=
  let sx := Geometry.x start in
  let sy := Geometry.y start in
  let leadInAbove := leadInAboveOf c in
  let moves1 := retractIfBelow moves safeZ in
  let moves2 := moves1 ++ [mkMove sx sy safeZ rapid] in
  let moves3 :=
    if Js.gtb safeZ leadInAbove then moves2 ++ [mkMove sx sy leadInAbove rapid]
    else moves2 in
  moves3 ++ [mkMove sx sy 0 cut; mkMove sx sy depthZ cut].

(** The closing retract of [generateToolpath] for pocket and facing
    operations (main.js 2236-2261). *)
Definition finalRetractPocket (moves : list Move) (safeZ : R) : list Move :=
  match lastMove moves with
  | None => moves
  | Some l =>
      if Js.ltb (z l) (safeZ - / 1000000) then
        let dx := 0 - x l in
        let dy := 0 - y l in
        let dist := Js.hypot dx dy in
        let pullbackMm := 15 / 10 in
        if Js.gtb dist (/ 1000000) && Js.gtb pullbackMm 0 then
          let step := Rmin pullbackMm dist in
          let endX := x l + dx / dist * step in
          let endY := y l + dy / dist * step in
          moves ++ [mkMove endX endY (z l) cut; mkMove endX endY safeZ rapid]
        else moves ++ [mkMove (x l) (y l) safeZ rapid]
      else moves
  end.

(** [generateToolpath] for a pocket on a circle, ellipse or square whose
    minimum size equals the tool diameter: [pocketPaths] is the single path
    [[{x: 0, y: 0, z: 0}]], every depth level runs the one-point branch of
    [addLayerForPath], then the closing retract and the origin transform.
    [None]: a request that takes another path through [generateToolpath],
    which this development does not follow. *)
Definition generateToolpath (p : Params) : option (list Move) :=
  let c := cutParams p in
  let toolRadius := toolDiameter c / 2 in
  let depths := Depth.computeDepthLevels (totalDepth c) (stepdown c) in
  let safeZ := safeHeight c in
  match operation p, equalToToolDiameter p, shape p with
  | POCKET, true, (CIRCLE | ELLIPSE | SQUARE) =>
      let moves :=
        fold_left (fun moves depthZ => addLayerForPoint moves Geometry.origin depthZ c safeZ)
          depths [] in
      let moves := finalRetractPocket moves safeZ in
      Some (applyOriginTransform moves (originParams p) (totalDepth c) toolRadius
              (operation p) (contourType p) None)
  | _, _, _ => None
  end.

(** *** The drill cycle the specification describes *)

(** Rapid to the point at safe height, rapid down to the lead-in height when
    the safe height exceeds it, cut to Z = 0, cut to the layer depth. *)
Definition drillCycle (cx cy safeZ leadIn depthZ : R) : list Move :=
  [mkMove cx cy safeZ rapid]
  ++ (if Js.gtb safeZ leadIn then [mkMove cx cy leadIn rapid] else [])
  ++ [mkMove cx cy 0 cut; mkMove cx cy depthZ cut].

(** The drill cycles of all depth levels, with a retract to safe height
    before every level but the first and after the last. *)
Definition drillCycles (cx cy safeZ leadIn : R) (depths : list R) : list Move :=
  match depths with
  | [] => []
  | d :: rest =>
      drillCycle cx cy safeZ leadIn d
      ++ flat_map (fun d' => mkMove cx cy safeZ rapid :: drillCycle cx cy safeZ leadIn d') rest
      ++ [mkMove cx cy safeZ rapid]
  end.

(** An optional rapid retract to safe height at [(cx, cy)]. *)
Definition retractAt (b : bool) (cx cy safeZ : R) : list Move :=
  if b then [mkMove cx cy safeZ rapid] else [].

(** Level by level: an optional retract, then the drill cycle of the level. *)
Definition drillLevels (cx cy safeZ leadIn : R) (levels : list (bool * R)) : list Move :=
  flat_map (fun l => retractAt (fst l) cx cy safeZ ++ drillCycle cx cy safeZ leadIn (snd l))
    levels.

(** The last move, if any, is at X = 0, Y = 0. *)
Definition ends_at_centre (moves : list Move) : Prop :=
  match lastMove moves with
  | Some l => x l = 0 /\ y l = 0
  | None => True
  end.

End Generate.

(** ** Tabs: [buildTabConfig], [getZForTabProfile] (main.js 1579-1654) *)

Module Tabs.
Import Geometry.

(** A tab range [{start, end}] of arc length. *)
Record Range : Type := mkRange { start : R; end_ : R }.

Record TabConfig : Type := mkTabConfig {
  enabled : bool;
  ranges : list Range;
  totalLength : R;
  totalLengthClosed : R;
  cumulative : list R;
  tabZ : R;
  tabWidth : R
}.

(** One iteration of the length loop; the accumulator is [(cumDist, totalLen)]. *)
Definition lengthStep (path : list Point) (acc : list R * R) (i : nat) : list R * R :=
  let d := distance2D (nthP path (i - 1)) (nthP path i) in
  let totalLen := snd acc + d in
  (fst acc ++ [totalLen], totalLen).

Definition pathLengths (path : list Point) : list R * R :=
  fold_left (lengthStep path) (seq 1 (length path - 1)) ([0], 0).

(** [closingLen]. *)
Definition closingLength (path : list Point) : R :=
  if (2 <=? length path)%nat
  then distance2D (nthP path (length path - 1)) (nthP path 0)
  else 0.

(** [totalLengthClosed = totalLen + closingLen]. *)
Definition closedLength (path : list Point) : R :=
  snd (pathLengths path) + closingLength path.

(** [Math.max(1, Math.round(totalLengthClosed / interval))]. *)
Definition tabCount (totalLengthClosed interval : R) : Z :=
  Z.max 1 (Js.round (totalLengthClosed / interval)).

(** Centre of tab [i]: [(i + 0.5) * spacing]. *)
Definition tabCenter (spacing : R) (i : nat) : R := (INR i + / 2) * spacing.

(** One iteration of the range loop. *)
Definition rangeStep (totalLengthClosed spacing halfWidth : R) (acc : list Range) (i : nat)
  : list Range :=
  let center := tabCenter spacing i in
  let start := Rmax 0 (center - halfWidth) in
  let end_ := Rmin totalLengthClosed (center + halfWidth) in
  if Js.gtb end_ start then acc ++ [mkRange start end_] else acc.

Definition buildTabConfig (path : list Point) (interval width totalDepth tabHeight : R)
  : option TabConfig :=
  if (length path <? 2)%nat || Js.leb interval 0 || Js.leb width 0 || Js.leb tabHeight 0
  then None
  else
    let (cumDist, totalLen) := pathLengths path in
    if Js.leb totalLen 0 then None
    else
      let totalLengthClosed := totalLen + closingLength path in
      let halfWidth := width / 2 in
      let n := tabCount totalLengthClosed interval in
      let spacing := totalLengthClosed / IZR n in
      let ranges :=
        fold_left (rangeStep totalLengthClosed spacing halfWidth) (seq 0 (Z.to_nat n)) [] in
      match ranges with
      | [] => None
      | _ =>
          let cutDepthForTabs := Rmax 0 (totalDepth - tabHeight) in
          let tabZ := - cutDepthForTabs in
          Some (mkTabConfig true ranges totalLen totalLengthClosed cumDist tabZ width)
      end.

(** What [getZForTabProfile] returns inside the range [r]. *)
Definition zInRange (s depthZ tabZ rampLenMm : R) (r : Range) : R :=
  let rangeLen := end_ r - start r in
  let rampLen := Rmin rampLenMm (rangeLen / 2) in
  if Js.leb rampLen (/ 1000000000) then tabZ
  else
    let rampUpEnd := start r + rampLen in
    let rampDownStart := end_ r - rampLen in
    if Js.leb s rampUpEnd then
      let t := (s - start r) / rampLen in
      depthZ + t * (tabZ - depthZ)
    else if Js.geb s rampDownStart then
      let t := (s - rampDownStart) / rampLen in
      tabZ + t * (depthZ - tabZ)
    else tabZ.

(** [for (const r of tabConfig.ranges)]: the first range that contains [s]
    decides. *)
Fixpoint tabLoop (s depthZ tabZ rampLenMm : R) (rs : list Range) : R :=
  match rs with
  | [] => depthZ
  | r :: rest =>
      if Js.ltb s (start r) || Js.gtb s (end_ r)
      then tabLoop s depthZ tabZ rampLenMm rest
      else zInRange s depthZ tabZ rampLenMm r
  end.

Definition getZForTabProfile (s depthZ : R) (tabConfig : option TabConfig) : R :=
  match tabConfig with
  | None => depthZ
  | Some tc =>
      if negb (enabled tc) || Js.geb depthZ (tabZ tc + / 1000000) then depthZ
      else
        let rampLenMm := 25 / 100 * tabWidth tc in
        if Js.leb rampLenMm (/ 1000000000) then depthZ
        else tabLoop s depthZ (tabZ tc) rampLenMm (ranges tc)
  end.

(** *** The tab profile the specification describes *)

(** [s] lies outside every range. *)
Definition outside_all (s : R) (rs : list Range) : Prop :=
  Forall (fun r => s < start r \/ end_ r < s) rs.

(** The three-segment profile of a tab of width [w] centred at [c]: linear
    over the first and the last quarter, flat at [tabZ] over the middle half. *)
Definition tab_profile (c w depthZ tabZ s z : R) : Prop :=
  (c - w / 2 <= s <= c - w / 4 ->
     z = depthZ + (s - (c - w / 2)) / (w / 4) * (tabZ - depthZ)) /\
  (c - w / 4 <= s <= c + w / 4 -> z = tabZ) /\
  (c + w / 4 <= s <= c + w / 2 ->
     z = tabZ + (s - (c + w / 4)) / (w / 4) * (depthZ - tabZ)).

(** C8 as the specification words it, for one input. *)
Definition tabs_as_specified (path : list Point) (interval width totalDepth tabHeight : R)
  : Prop :=
  exists cfg, buildTabConfig path interval width totalDepth tabHeight = Some cfg /\
    let L := closedLength path in
    let n := Z.to_nat (tabCount L interval) in
    length (ranges cfg) = n /\
    tabZ cfg = - (totalDepth - tabHeight) /\
    forall s depthZ,
      (outside_all s (ranges cfg) -> getZForTabProfile s depthZ (Some cfg) = depthZ) /\
      (forall i, (i < n)%nat ->
         tab_profile (tabCenter (L / INR n) i) width depthZ (tabZ cfg) s
           (getZForTabProfile s depthZ (Some cfg))).

(** The 10 x 10 square outline, closed: arc length 40. *)
Definition square10 : list Point :=
  [mkPoint 0 0 0; mkPoint 10 0 0; mkPoint 10 10 0; mkPoint 0 10 0; mkPoint 0 0 0].

End Tabs.

(** ** Spiral pocket of a circle: [segmentsForCircleRadius],
       [generateSpiralPocketCircle] (main.js 60-73, 1349-1415) *)

Module Spiral.
Import Geometry.

Definition CIRCLE_TOLERANCE_MM : R := 1 / 100.

(** [segmentsForCircleRadius]: between 4 and 360 segments. *)
Definition segmentsForCircleRadius (radiusMm : R) : nat :=
  if Js.leb radiusMm 0 then 4%nat
  else
    let arg := Rmax (-1) (1 - CIRCLE_TOLERANCE_MM / radiusMm) in
    let n := Js.ceil (PI / acos arg) in
    Z.to_nat (Z.max 4 (Z.min 360 n)).

(** The point [{x: r * Math.cos(angle), y: r * Math.sin(angle), z: 0}]. *)
Definition polar (r angle : R) : Point := mkPoint (r * cos angle) (r * sin angle) 0.

(** [Math.max(1, Math.ceil(radialSpan / stepover))]. *)
Definition turnsOf (radialSpan stepover : R) : Z :=
  Z.max 1 (Js.ceil (radialSpan / stepover)).

Definition generateSpiralPocketCircle (diameter stepover toolRadius : R) : list Point :=
  let pocketBoundaryRadius := diameter / 2 in
  let outerRingRadius := pocketBoundaryRadius - toolRadius in
  if Js.leb outerRingRadius 0 then []
  else
    let segments := segmentsForCircleRadius pocketBoundaryRadius in
    if Js.ltb outerRingRadius toolRadius then
      [mkPoint 0 0 0]
      ++ map (fun i =>
                let t := INR i / INR segments in
                let angle := t * 2 * PI in
                let r := t * outerRingRadius in
                polar r angle) (seq 1 segments)
      ++ map (fun i =>
                let angle := 2 * PI + INR i / INR segments * 2 * PI in
                polar outerRingRadius angle) (seq 1 segments)
    else
      let innerR := toolRadius in
      let outerR := outerRingRadius in
      let radialSpan := outerR - innerR in
      if Js.leb radialSpan (/ 1000000000) then
        map (fun i =>
               let angle := INR i / INR segments * 2 * PI in
               polar outerRingRadius angle) (seq 0 (S segments))
      else
        let turns := turnsOf radialSpan stepover in
        let totalAngle := IZR turns * 2 * PI in
        let steps := Z.max (Z.of_nat segments * turns) 1 in
        map (fun i =>
               let angle := INR i / INR segments * 2 * PI in
               polar innerR angle) (seq 0 (S segments))
        ++ map (fun i =>
                  let angle := INR i / IZR steps * totalAngle in
                  let r := innerR + radialSpan * INR i / IZR steps in
                  polar r angle) (seq 1 (Z.to_nat steps))
        ++ map (fun i =>
                  let angle := totalAngle + INR i / INR segments * 2 * PI in
                  polar outerR angle) (seq 1 segments).

(** *** The path the specification describes *)

(** Distance of a point from the centre of the pocket. *)
Definition radiusOf (p : Point) : R := Js.hypot (x p) (y p).

(** [ring] is one full turn at radius [rad]: [segments] points, at least
    three, each [2 * PI / segments] further in angle than the one before,
    from the angle [base] (not in the ring) to [base + 2 * PI]. *)
Definition closing_ring (ring : list Point) (rad base : R) (segments : nat) : Prop :=
  (3 <= segments)%nat /\
  ring = map (fun i => polar rad (base + INR i / INR segments * 2 * PI)) (seq 1 segments).

(** The path ends with a closing ring of [segments] points at radius [rad]
    that starts from the last point before it, so that the ring is closed,
    and no point of the path is farther than [rad] from the centre. *)
Definition ends_with_outer_ring (path : list Point) (rad : R) (segments : nat) : Prop :=
  (exists front ring base,
     path = front ++ ring /\ front <> [] /\ last front origin = polar rad base /\
     closing_ring ring rad base segments /\
     Forall (fun p => radiusOf p = rad) ring) /\
  Forall (fun p => radiusOf p <= rad) path.

(** [spiral] sweeps [turns] full turns of [segments] points each, at least
    three: point [i] of its [segments * turns] points is at the angle
    [i * (2 * PI / segments)], and the radius grows by the same amount at
    every point from [r0] (at angle 0, before the first point) to [r1]. *)
Definition spiral_sweep (spiral : list Point) (r0 r1 : R) (turns : Z) (segments : nat) : Prop :=
  (3 <= segments)%nat /\ (1 <= turns)%Z /\
  let steps := (segments * Z.to_nat turns)%nat in
  spiral = map (fun i => polar (r0 + (r1 - r0) * INR i / INR steps)
                           (INR i * (2 * PI / INR segments))) (seq 1 steps).

(** The path is a start that ends at radius [r0] and angle 0, then from there
    a spiral of [turns] turns out to [r1], then from the end of the spiral
    the closing ring at radius [r1]. *)
Definition has_connecting_spiral (path : list Point) (r0 r1 : R) (turns : Z)
  (segments : nat) : Prop :=
  exists pre spiral post,
    path = pre ++ spiral ++ post /\ pre <> [] /\ last pre origin = polar r0 0 /\
    spiral_sweep spiral r0 r1 turns segments /\
    closing_ring post r1 (IZR turns * 2 * PI) segments.

(** C6 as the specification words it, for one input; the specification
    leaves the number of points of a turn open. *)
Definition spiral_pocket_as_specified (diameter stepover toolRadius : R) : Prop :=
  let outerR := diameter / 2 - toolRadius in
  let path := generateSpiralPocketCircle diameter stepover toolRadius in
  exists segments,
    ends_with_outer_ring path outerR segments /\
    (toolRadius < outerR ->
     has_connecting_spiral path toolRadius outerR (turnsOf (outerR - toolRadius) stepover)
       segments).

End Spiral.

(** ** Arc fitting: [circleFromThreePoints], [pointToCircleDeviation],
       [replaceCutRunsWithArcs], [fitArcsToPoints] (main.js 3061-3188) *)

Module ArcFit.
Import Geometry.

(** [{cx, cy, r}]. *)
Record Circle : Type := mkCircle { cx : R; cy : R; r : R }.

Definition circleFromThreePoints (p1 p2 p3 : Point) : option Circle :=
  let x1 := x p1 in let y1 := y p1 in
  let x2 := x p2 in let y2 := y p2 in
  let x3 := x p3 in let y3 := y p3 in
  let d := 2 * (x1 * (y2 - y3) + x2 * (y3 - y1) + x3 * (y1 - y2)) in
  if Js.ltb (Rabs d) (/ 10000000000) then None
  else
    let cx := ((x1 * x1 + y1 * y1) * (y2 - y3) + (x2 * x2 + y2 * y2) * (y3 - y1)
               + (x3 * x3 + y3 * y3) * (y1 - y2)) / d in
    let cy := ((x1 * x1 + y1 * y1) * (x3 - x2) + (x2 * x2 + y2 * y2) * (x1 - x3)
               + (x3 * x3 + y3 * y3) * (x2 - x1)) / d in
    let r := Js.hypot (x1 - cx) (y1 - cy) in
    Some (mkCircle cx cy r).

Definition pointToCircleDeviation (px py cx cy r : R) : R :=
  Rabs (Js.hypot (px - cx) (py - cy) - r).

Definition ARC_FIT_TOLERANCE_MM : R := 3 / 100.

(** An element of the result of [fitArcsToPoints]: [type] is ["line"] or
    ["arc"], the latter with [i], [j] and [clockwise]. *)
Inductive SegType : Type :=
| line
| arcTo (i j : R) (clockwise : bool).

Record Segment : Type := mkSegment { sx : R; sy : R; sz : R; stype : SegType }.

(** [{ type: "line", ...p }]. *)
Definition lineTo (p : Point) : Segment := mkSegment (x p) (y p) (z p) line.

(** The loop over [k]: every point strictly between [i] and [j - 1] is within
    the tolerance of the circle. *)
Definition intermediateOk (points : list Point) (c : Circle) (i j : nat) : bool :=
  forallb (fun k =>
             negb (Js.gtb (pointToCircleDeviation (x (nthP points k)) (y (nthP points k))
                             (cx c) (cy c) (r c)) ARC_FIT_TOLERANCE_MM))
          (seq (i + 1) (j - 1 - (i + 1))).

(** The loop [for (let j = i + 3; j <= points.length; j++)] from [j] on, with
    the current [bestJ]; [fuel] bounds the iterations left. *)
Fixpoint searchBestJ (points : list Point) (i j fuel bestJ : nat) : nat :=
  match fuel with
  | O => bestJ
  | S f =>
      if (j <=? length points)%nat then
        let pMid := nthP points ((i + j) / 2) in
        let pEnd := nthP points (j - 1) in
        match circleFromThreePoints (nthP points i) pMid pEnd with
        | None => bestJ
        | Some c =>
            if intermediateOk points c i j then searchBestJ points i (S j) f j
            else bestJ
        end
      else bestJ
  end.

(** The [while (i < points.length)] loop of [fitArcsToPoints]. *)
Fixpoint fitLoop (points : list Point) (z0 : R) (i fuel : nat) (result : list Segment)
  : list Segment :=
  match fuel with
  | O => result
  | S f =>
      if (i <? length points)%nat then
        if (length points - 2 <=? i)%nat then
          fitLoop points z0 (S i) f (result ++ [lineTo (nthP points i)])
        else
          let p0 := nthP points i in
          let bestJ := searchBestJ points i (i + 3) (length points) (i + 2) in
          if (i + 2 <? bestJ)%nat then
            let pEnd := nthP points (bestJ - 1) in
            let pMid := nthP points ((i + bestJ) / 2) in
            match circleFromThreePoints p0 pMid pEnd with
            | Some circle =>
                let dx := x p0 - cx circle in
                let dy := y p0 - cy circle in
                let ex := x pEnd - cx circle in
                let ey := y pEnd - cy circle in
                let cross := dx * ey - dy * ex in
                fitLoop points z0 bestJ f
                  (result ++ [mkSegment (x pEnd) (y pEnd) z0
                                (arcTo (cx circle - x p0) (cy circle - y p0)
                                   (Js.ltb cross 0))])
            | None => fitLoop points z0 (S i) f (result ++ [lineTo p0])
            end
          else fitLoop points z0 (S i) f (result ++ [lineTo p0])
      else result
  end.

Definition fitArcsToPoints (points : list Point) : list Segment :=
  if (length points <? 3)%nat then map lineTo points
  else fitLoop points (z (nthP points 0)) 0 (length points) [].

(** The inner loop collecting a run of cut moves: the run as points and the
    moves after it. *)
Fixpoint takeCutRun (moves : list Toolpath.Move) : list Point * list Toolpath.Move :=
  match moves with
  | m :: rest =>
      match Toolpath.type m with
      | Toolpath.cut =>
          let (run, rest') := takeCutRun rest in
          (mkPoint (Toolpath.x m) (Toolpath.y m) (Toolpath.z m) :: run, rest')
      | _ => ([], moves)
      end
  | [] => ([], [])
  end.

(** A fitted segment as a move. *)
Definition segmentToMove (seg : Segment) : Toolpath.Move :=
  match stype seg with
  | arcTo i j clockwise =>
      Toolpath.mkMove (sx seg) (sy seg) (sz seg) (Toolpath.arc i j clockwise)
  | line => Toolpath.mkMove (sx seg) (sy seg) (sz seg) Toolpath.cut
  end.

(** The outer loop of [replaceCutRunsWithArcs]; [fuel] bounds the iterations. *)
Fixpoint replaceLoop (fuel : nat) (moves out : list Toolpath.Move) : list Toolpath.Move :=
  match fuel with
  | O => out
  | S f =>
      match moves with
      | [] => out
      | m :: rest =>
          match Toolpath.type m with
          | Toolpath.cut =>
              let (cutRun, rest') := takeCutRun moves in
              replaceLoop f rest' (out ++ map segmentToMove (fitArcsToPoints cutRun))
          | _ => replaceLoop f rest (out ++ [m])
          end
      end
  end.

(** The move list after [replaceCutRunsWithArcs(moves)]. *)
Definition replaceCutRunsWithArcs (moves : list Toolpath.Move) : list Toolpath.Move :=
  replaceLoop (length moves) moves [].

(** Three cut moves down a half circle of radius 1 around the origin:
    (1, 0, 0), (0, 1, -1), (-1, 0, -2). *)
Definition descendingHalfCircle : list Toolpath.Move :=
  [Toolpath.mkMove 1 0 0 Toolpath.cut;
   Toolpath.mkMove 0 1 (-1) Toolpath.cut;
   Toolpath.mkMove (-1) 0 (-2) Toolpath.cut].

(** *** What justifies a fitted segment *)

(** The points [i .. b - 1] (at least three) lie on the circle [c] through
    the first, the middle and the last of them, within the tolerance. *)
Definition arc_run (points : list Point) (i b : nat) (c : Circle) : Prop :=
  (i + 3 <= b)%nat /\ (b <= length points)%nat /\
  circleFromThreePoints (nthP points i) (nthP points ((i + b) / 2)) (nthP points (b - 1))
    = Some c /\
  forall k, (i < k)%nat -> (k < b - 1)%nat ->
    pointToCircleDeviation (x (nthP points k)) (y (nthP points k)) (cx c) (cy c) (r c)
      <= ARC_FIT_TOLERANCE_MM.

(** A line segment is a point of the input; an arc ends at the X and Y of the
    last point of an [arc_run] and has the Z [z0]. *)
Definition segment_justified (points : list Point) (z0 : R) (seg : Segment) : Prop :=
  match stype seg with
  | line => exists k, (k < length points)%nat /\ seg = lineTo (nthP points k)
  | arcTo i j clockwise =>
      exists a b c, arc_run points a b c /\
        sx seg = x (nthP points (b - 1)) /\ sy seg = y (nthP points (b - 1)) /\
        sz seg = z0 /\
        i = cx c - x (nthP points a) /\ j = cy c - y (nthP points a)
  end.

End ArcFit.

(** ** Units: [toMm], [fromMm] (main.js 49-57) *)

Module Units.

Definition MM_PER_INCH : R := 254 / 10.

(** The display unit: ["inch"], or any other string. *)
Inductive DisplayUnit : Type := inch | mm.

(** A number that may fail [Number.isFinite]: [None] is such a value (it is
    returned as it is). *)
Definition toMm (value : option R) (unit : DisplayUnit) : option R :=
  match value with
  | None => None
  | Some v => Some (match unit with inch => v * MM_PER_INCH | mm => v end)
  end.

Definition fromMm (mmv : option R) (unit : DisplayUnit) : option R :=
  match mmv with
  | None => None
  | Some v => Some (match unit with inch => v / MM_PER_INCH | mm => v end)
  end.

End Units.

(** ** Letter contours: [degToRad], [rotatePathsAroundOrigin],
       [contourMinSize] (main.js 207-209, 469-499) *)

Module Letters.
Import Geometry.

Definition degToRad (deg : R) : R := deg * PI / 180.

(** [Math.trunc]. *)
Definition trunc (q : R) : Z := if Js.leb 0 q then Zfloor q else Zceil q.

(** The remainder [a % b] of JavaScript (sign of the dividend). *)
Definition rem (a b : R) : R := a - b * IZR (trunc (a / b)).

Definition rotatePoint (c s : R) (p : Point) : Point :=
  mkPoint (x p * c - y p * s) (x p * s + y p * c) (z p).

Definition rotatePathsAroundOrigin (paths : list (list Point)) (angleDeg : R)
  : list (list Point) :=
  match paths with
  | [] => paths
  | _ =>
      if Req_dec_T (rem angleDeg 360) 0 then paths
      else
        let rad := degToRad (- angleDeg) in
        map (map (rotatePoint (cos rad) (sin rad))) paths
  end.

(** One iteration of the bounding-box loop of [contourMinSize]; [None] is the
    initial state [(Infinity, Infinity, -Infinity, -Infinity)]. *)
Definition minSizeStep (b : option (R * R * R * R)) (p : Point) : option (R * R * R * R) :=
  match b with
  | None => Some (x p, y p, x p, y p)
  | Some (minX, minY, maxX, maxY) =>
      Some (if Js.ltb (x p) minX then x p else minX,
            if Js.ltb (y p) minY then y p else minY,
            if Js.gtb (x p) maxX then x p else maxX,
            if Js.gtb (y p) maxY then y p else maxY)
  end.

Definition contourMinSize (pts : list Point) : R :=
  if (length pts <? 2)%nat then 0
  else
    match fold_left minSizeStep pts None with
    | Some (minX, minY, maxX, maxY) => Rmin (maxX - minX) (maxY - minY)
    | None => 0
    end.

(** [b = (minX, minY, maxX, maxY)] is the bounding box of the points [pts]:
    it holds every point and each side touches one. *)
Definition is_bbox (pts : list Point) (b : R * R * R * R) : Prop :=
  let '(minX, minY, maxX, maxY) := b in
  (exists p, In p pts /\ x p = minX) /\ (exists p, In p pts /\ y p = minY) /\
  (exists p, In p pts /\ x p = maxX) /\ (exists p, In p pts /\ y p = maxY) /\
  forall p, In p pts -> (minX <= x p <= maxX) /\ (minY <= y p <= maxY).

End Letters.

(** ** Base shapes: [generateBasePath] (main.js 992-1028) *)

Module Shapes.
Import Geometry Generate.

(** The points [i = 0 .. SEGMENTS] of an ellipse with half axes [rx], [ry]. *)
Definition ellipsePoints (rx ry : R) (segments : nat) : list Point :=
  map (fun i =>
         let t := INR i / INR segments * 2 * PI in
         mkPoint (rx * cos t) (ry * sin t) 0) (seq 0 (S segments)).

(** The five points of the closed rectangle with half sides [hw], [hh]. *)
Definition rectanglePoints (hw hh : R) : list Point :=
  [mkPoint (- hw) (- hh) 0; mkPoint hw (- hh) 0; mkPoint hw hh 0; mkPoint (- hw) hh 0;
   mkPoint (- hw) (- hh) 0].

Definition generateBasePath (shape : ShapeType) (sp : ShapeParams) : list Point :=
  match shape with
  | CIRCLE =>
      let radius := diameter sp / 2 in
      ellipsePoints radius radius (Spiral.segmentsForCircleRadius radius)
  | ELLIPSE =>
      let rx := major sp / 2 in
      let ry := minor sp / 2 in
      ellipsePoints rx ry (Spiral.segmentsForCircleRadius (Rmax rx ry))
  | SQUARE =>
      let half := size sp / 2 in
      rectanglePoints half half
  | RECTANGLE => rectanglePoints (width sp / 2) (height sp / 2)
  | _ => []
  end.

(** [adjustRectContourStartToEdgeMid] (main.js 1231-1269): the loop looking
    for the first point of largest X; the state is [(maxX, idx)], [None] before
    the first point. *)
Definition maxXStep (path : list Point) (st : option (R * nat)) (i : nat) : option (R * nat) :=
  match st with
  | None => Some (x (nthP path i), i)
  | Some (maxX, idx) =>
      if Js.gtb (x (nthP path i)) (maxX + / 1000000000) then Some (x (nthP path i), i)
      else st
  end.

Definition adjustRectContourStartToEdgeMid (path : list Point) : list Point :=
  if (length path <? 4)%nat then path
  else
    match fold_left (maxXStep path) (seq 0 (length path)) None with
    | None => path
    | Some (_, idx) =>
        let nextIdx := ((idx + 1) mod length path)%nat in
        let v0 := nthP path idx in
        let v1 := nthP path nextIdx in
        let mid := mkPoint ((x v0 + x v1) / 2) ((y v0 + y v1) / 2) (z v0) in
        [mid] ++ skipn nextIdx path ++ firstn (idx + 1) path ++ [mid]
    end.

(** [idx] is the first point of largest X, up to the tolerance of the search:
    every earlier point lies strictly to its left, and no point lies more than
    1e-9 to its right. *)
Definition rightmost_start (path : list Point) (idx : nat) : Prop :=
  (idx < length path)%nat /\
  (forall j, (j < idx)%nat -> x (nthP path j) < x (nthP path idx)) /\
  (forall j, (j < length path)%nat ->
     x (nthP path j) <= x (nthP path idx) + / 1000000000).

(** The shapes for which [generateBasePath] pushes points. *)
Definition has_base_path (shape : ShapeType) : bool :=
  match shape with
  | CIRCLE | ELLIPSE | SQUARE | RECTANGLE => true
  | _ => false
  end.

End Shapes.

(** ** Time estimate: [estimateMillingTime] (main.js 3274-3307) *)

Module Estimate.
Import Toolpath.

Definition DEFAULT_RAPID_FEEDRATE_MM_MIN : R := 10000.

Record Estimate : Type := mkEstimate {
  totalMinutes : R;
  cutMinutes : R;
  rapidMinutes : R;
  cutDistanceMm : R;
  rapidDistanceMm : R
}.

(** The loop state [(cutDist, rapidDist, prev)]. *)
Definition State : Type := (R * R * option (R * R * R))%type.

Definition distStep (st : State) (m : Move) : State :=
  let '(cutDist, rapidDist, prev) := st in
  match prev with
  | None => (cutDist, rapidDist, Some (x m, y m, z m))
  | Some (px, py, pz) =>
      let dx := x m - px in
      let dy := y m - py in
      let dz := z m - pz in
      let d := sqrt (dx * dx + dy * dy + dz * dz) in
      match type m with
      | cut => (cutDist + d, rapidDist, Some (x m, y m, z m))
      | _ => (cutDist, rapidDist + d, Some (x m, y m, z m))
      end
  end.

Definition estimateMillingTime (moves : list Move) (feedrateParam : R) : Estimate :=
  let feedrate := if Js.gtb feedrateParam 0 then feedrateParam else 1 in
  let rapidFeed := DEFAULT_RAPID_FEEDRATE_MM_MIN in
  let '(cutDist, rapidDist, _) := fold_left distStep moves (0, 0, None) in
  let cutMinutes := cutDist / feedrate in
  let rapidMinutes := rapidDist / rapidFeed in
  mkEstimate (cutMinutes + rapidMinutes) cutMinutes rapidMinutes cutDist rapidDist.

(** The previous position [prev] of the loop, moved by [(sx, sy, sz)]. *)
Definition shiftPrev (sx sy sz : R) (prev : option (R * R * R)) : option (R * R * R) :=
  match prev with
  | Some (px, py, pz) => Some (px + sx, py + sy, pz + sz)
  | None => None
  end.

End Estimate.

(** ** Predicates on contours used to state the behaviour of the
       deduplication and cleanup loops of [contourOffset] *)

Module Contour.
Import Geometry Offset.

(** [b] is further than [tol] from [a] in X or in Y: the test under which the
    deduplication loop keeps [b] after [a]. *)
Definition apart (a b : Point) : Prop :=
  tol < Rabs (x b - x a) \/ tol < Rabs (y b - y a).

(** [b] is within [tol] of [a] in X and in Y. *)
Definition near (a b : Point) : Prop :=
  Rabs (x b - x a) <= tol /\ Rabs (y b - y a) <= tol.

(** The rings are chained: each is the offset of the one before it. *)
Definition chained (rings : list (list Point)) (stepover : R) : Prop :=
  forall i, (S i < length rings)%nat ->
    fst (contourOffset (nth i rings []) stepover) = Some (nth (S i) rings []).

End Contour.

(** ** Input validation: [validateInputs] (main.js 816-970) *)

Module Validate.

(** A JavaScript number: the three values that fail [Number.isFinite], or a
    real number. *)
Inductive Num : Type := NaN | PosInf | NegInf | Fin (v : R).

Definition isFinite (n : Num) : bool :=
  match n with Fin _ => true | _ => false end.

(** [a < b]: false as soon as one side is [NaN]. *)
Definition ltN (a b : Num) : bool :=
  match a, b with
  | NaN, _ => false
  | _, NaN => false
  | Fin u, Fin v => Js.ltb u v
  | NegInf, NegInf => false
  | NegInf, _ => true
  | Fin _, PosInf => true
  | Fin _, NegInf => false
  | PosInf, _ => false
  end.

(** [a <= b]. *)
Definition leN (a b : Num) : bool :=
  match a, b with
  | NaN, _ => false
  | _, NaN => false
  | Fin u, Fin v => Js.leb u v
  | NegInf, _ => true
  | _, PosInf => true
  | Fin _, NegInf => false
  | PosInf, _ => false
  end.

Definition gtN (a b : Num) : bool := ltN b a.

(** [Math.min(a, b)]. *)
Definition minN (a b : Num) : Num :=
  match a, b with
  | NaN, _ => NaN
  | _, NaN => NaN
  | _, _ => if ltN b a then b else a
  end.

(** [v || Infinity]: zero and [NaN] are falsy. *)
Definition orInfinityN (v : Num) : Num :=
  match v with
  | NaN => PosInf
  | Fin u => if Req_dec_T u 0 then PosInf else v
  | _ => v
  end.

(** An entry of [errors], by the key of its message; [positive] carries the
    key of the field label. *)
Inductive Error : Type :=
| positive (labelKey : string)
| leadInNegative
| stepdownTooBig
| stepoverTooBig
| enterText
| countersunkTotalDepthTooSmall
| countersunkHeadSmallerThanBolt
| unknownShape
| pocketSmallerThanTool.

Inductive EntryMethod : Type := PLUNGE | RAMP.

(** [facingMode]: ["within"], or any other string. *)
Inductive FacingMode : Type := within | full.

(** [letterMode]: ["outline"], or any other non-empty string. *)
Inductive LetterMode : Type := outline | pocket.

Record CutParams : Type := mkCutParams {
  toolDiameter : Num;
  totalDepth : Num;
  stepdown : Num;
  stepover : Num;
  feedrate : Num;
  safeHeight : Num;
  leadInAboveMm : Num;
  entryMethod : EntryMethod;
  rampAngleMax : Num
}.

(** [raw.tabs]. *)
Record Tabs : Type := mkTabs {
  enabled : bool;
  interval : Num;
  tabWidth : Num;
  tabHeight : Num
}.

(** [raw.shapeParams]; [textBlank] is the outcome of
    [!sp.text || String(sp.text).trim() === ...]. *)
Record ShapeParams : Type := mkShapeParams {
  diameter : Num;
  size : Num;
  width : Num;
  height : Num;
  major : Num;
  minor : Num;
  textBlank : bool;
  fontSize : Num;
  headDiameter : Num;
  countersinkDepth : Num;
  boltDiameter : Num;
  spacingX : Num;
  spacingY : Num;
  countX : Num;
  countY : Num
}.

(** [raw]; a [shape] that is none of the eight shape strings is [None], and
    [letterMode] and [tabs] are [None] when they are absent. *)
Record Raw : Type := mkRaw {
  shape : option Generate.ShapeType;
  letterMode : option LetterMode;
  operation : Toolpath.OperationType;
  contourType : Toolpath.ContourType;
  facingMode : FacingMode;
  cutParams : CutParams;
  shapeParams : ShapeParams;
  tabs : option Tabs
}.

(** [{ ok: false, errors }] or [{ ok: true, params }]. *)
Inductive Result : Type :=
| Failed (errors : list Error)
| Ok (params : Raw).

Definition assertPositive (value : Num) (labelKey : string) : list Error :=
  if negb (isFinite value) || leN value (Fin 0) then [positive labelKey] else [].

Definition isLettersOutline (raw : Raw) : bool :=
  match shape raw, letterMode raw with
  | Some Generate.LETTERS, (None | Some outline) => true
  | _, _ => false
  end.

(** [getShapeMinSize] on the unvalidated shape parameters. *)
Definition getShapeMinSize (shape : option Generate.ShapeType) (sp : ShapeParams) : Num :=
  match shape with
  | Some Generate.CIRCLE => diameter sp
  | Some Generate.SQUARE => size sp
  | Some Generate.RECTANGLE | Some Generate.FACING => minN (width sp) (height sp)
  | Some Generate.ELLIPSE => minN (major sp) (minor sp)
  | Some Generate.LETTERS => fontSize sp
  | Some Generate.COUNTERSUNK_BOLT =>
      minN (orInfinityN (headDiameter sp)) (orInfinityN (boltDiameter sp))
  | Some Generate.PATTERNED_HOLES => diameter sp
  | None => NaN
  end.

(** The [switch (raw.shape)] of [validateInputs]. *)
Definition shapeErrors (raw : Raw) : list Error :=
  let cp := cutParams raw in
  let sp := shapeParams raw in
  match shape raw with
  | Some Generate.CIRCLE => assertPositive (diameter sp) "field.diameter"
  | Some Generate.SQUARE => assertPositive (size sp) "field.side"
  | Some Generate.RECTANGLE | Some Generate.FACING =>
      assertPositive (width sp) "field.width" ++ assertPositive (height sp) "field.height"
  | Some Generate.ELLIPSE =>
      assertPositive (major sp) "field.majorAxis" ++
      assertPositive (minor sp) "field.minorAxis"
  | Some Generate.LETTERS =>
      (if textBlank sp then [enterText] else []) ++
      assertPositive (fontSize sp) "field.letterSize"
  | Some Generate.COUNTERSUNK_BOLT =>
      assertPositive (headDiameter sp) "field.countersunkHeadDiameter" ++
      assertPositive (countersinkDepth sp) "field.countersinkDepth" ++
      assertPositive (boltDiameter sp) "field.countersunkBoltDiameter" ++
      (match totalDepth cp, countersinkDepth sp with
       | Fin td, Fin cd =>
           if Js.leb (td - cd) 0 then [countersunkTotalDepthTooSmall] else []
       | _, _ => []
       end) ++
      (if isFinite (headDiameter sp) && isFinite (boltDiameter sp)
          && ltN (headDiameter sp) (boltDiameter sp)
       then [countersunkHeadSmallerThanBolt] else [])
  | Some Generate.PATTERNED_HOLES =>
      assertPositive (diameter sp) "field.patternedHolesDiameter" ++
      assertPositive (spacingX sp) "field.patternedHolesSpacingX" ++
      assertPositive (spacingY sp) "field.patternedHolesSpacingY" ++
      (if negb (isFinite (countX sp)) || ltN (countX sp) (Fin 1)
       then [positive "field.patternedHolesCountX"] else []) ++
      (if negb (isFinite (countY sp)) || ltN (countY sp) (Fin 1)
       then [positive "field.patternedHolesCountY"] else [])
  | None => [unknownShape]
  end.

(** The errors collected up to the first [if (errors.length > 0)]. *)
Definition parameterErrors (raw : Raw) : list Error :=
  let cp := cutParams raw in
  (if isLettersOutline raw then [] else assertPositive (toolDiameter cp) "field.toolDiameter") ++
  assertPositive (totalDepth cp) "field.totalDepth" ++
  assertPositive (stepdown cp) "field.stepdown" ++
  (if isLettersOutline raw then [] else assertPositive (stepover cp) "field.stepover") ++
  assertPositive (feedrate cp) "field.feedrate" ++
  assertPositive (safeHeight cp) "field.safeHeight" ++
  (if isFinite (leadInAboveMm cp) && ltN (leadInAboveMm cp) (Fin 0)
   then [leadInNegative] else []) ++
  (if gtN (stepdown cp) (totalDepth cp) then [stepdownTooBig] else []) ++
  (if negb (isLettersOutline raw) && isFinite (toolDiameter cp)
      && gtN (stepover cp) (toolDiameter cp)
   then [stepoverTooBig] else []) ++
  (match entryMethod cp with
   | RAMP => assertPositive (rampAngleMax cp) "field.rampAngle"
   | PLUNGE => []
   end) ++
  (match operation raw, tabs raw with
   | Toolpath.CONTOUR, Some tb =>
       if enabled tb then
         assertPositive (interval tb) "field.tabInterval" ++
         assertPositive (tabWidth tb) "field.tabWidth" ++
         assertPositive (tabHeight tb) "field.tabHeight"
       else []
   | _, _ => []
   end) ++
  shapeErrors raw.

(** [Number.isFinite(toolD) && toolD > 0], with the value. *)
Definition usableTool (toolD : Num) : option R :=
  match toolD with
  | Fin d => if Js.gtb d 0 then Some d else None
  | _ => None
  end.

(** The errors collected after the first check: the shape against the tool. *)
Definition fitErrors (raw : Raw) : list Error :=
  let cp := cutParams raw in
  let sp := shapeParams raw in
  let toolD := toolDiameter cp in
  let isPocketOrInsideContour :=
    match operation raw, contourType raw with
    | Toolpath.POCKET, _ => true
    | Toolpath.CONTOUR, Toolpath.inside => true
    | _, _ => false
    end in
  let isLetters := match shape raw with Some Generate.LETTERS => true | _ => false end in
  let isBolt := match shape raw with Some Generate.COUNTERSUNK_BOLT => true | _ => false end in
  let isFacingShape := match shape raw with Some Generate.FACING => true | _ => false end in
  let isFacingOp := match operation raw with Toolpath.FACING_OP => true | _ => false end in
  let isSquare := match shape raw with Some Generate.SQUARE => true | _ => false end in
  (match usableTool toolD with
   | Some d =>
       if negb isLetters && negb isBolt && isPocketOrInsideContour then
         match getShapeMinSize (shape raw) sp with
         | Fin minSize => if Js.ltb (minSize + / 1000000) d then [pocketSmallerThanTool] else []
         | _ => []
         end
       else []
   | None => []
   end) ++
  (match usableTool toolD with
   | Some d =>
       if isBolt then
         (match headDiameter sp with
          | Fin hd => if Js.ltb (hd + / 1000000) d then [pocketSmallerThanTool] else []
          | _ => []
          end) ++
         (match boltDiameter sp with
          | Fin bd => if Js.ltb (bd + / 1000000) d then [pocketSmallerThanTool] else []
          | _ => []
          end)
       else []
   | None => []
   end) ++
  (match usableTool toolD with
   | Some d =>
       if isFacingOp || isFacingShape then
         let w := if isSquare then size sp else width sp in
         let h := if isSquare then size sp else height sp in
         match w, h with
         | Fin wv, Fin hv =>
             match facingMode raw with
             | within => if Js.leb (Rmin wv hv + / 1000000) d then [pocketSmallerThanTool] else []
             | full => []
             end
         | _, _ => []
         end
       else []
   | None => []
   end).

Definition validateInputs (raw : Raw) : Result :=
  match parameterErrors raw with
  | _ :: _ => Failed (parameterErrors raw)
  | [] =>
      match fitErrors raw with
      | _ :: _ => Failed (fitErrors raw)
      | [] => Ok raw
      end
  end.

(** [n] is a finite number above zero. *)
Definition finitePositive (n : Num) : Prop := exists v, n = Fin v /\ 0 < v.

(** [operation] is pocket, or contour on the inside. *)
Definition pocketOrInsideContour (raw : Raw) : Prop :=
  operation raw = Toolpath.POCKET \/
  (operation raw = Toolpath.CONTOUR /\ contourType raw = Toolpath.inside).

(** A circle pocket of diameter 20 and depth 3, cut with a 6 mm tool in steps
    of 1 mm down and 3 mm over. *)
Definition circlePocket : Raw :=
  mkRaw (Some Generate.CIRCLE) None Toolpath.POCKET Toolpath.outside full
    (mkCutParams (Fin 6) (Fin 3) (Fin 1) (Fin 3) (Fin 600) (Fin 10) (Fin 1) PLUNGE (Fin 3))
    (mkShapeParams (Fin 20) NaN NaN NaN NaN NaN true NaN NaN NaN NaN NaN NaN NaN NaN)
    None.

End Validate.

(** ** Spiral pocket of an ellipse: [generateSpiralPocketEllipse]
       (main.js 1422-1484) *)

Module SpiralEllipse.
Import Geometry Spiral.

(** The point [{x: rx * Math.cos(angle), y: ry * Math.sin(angle), z: 0}]. *)
Definition ellipsePoint (rx ry angle : R) : Point :=
  mkPoint (rx * cos angle) (ry * sin angle) 0.

Definition generateSpiralPocketEllipse (major minor stepover toolRadius : R) : list Point :=
  let rxMax := major / 2 - toolRadius in
  let ryMax := minor / 2 - toolRadius in
  if Js.leb rxMax 0 || Js.leb ryMax 0 then []
  else
    let segments := segmentsForCircleRadius (Rmax rxMax ryMax) in
    let minR := Rmin rxMax ryMax in
    let rMin := if Js.gtb minR 0 then toolRadius / minR else 0 in
    let radialSpan := 1 - rMin in
    if Js.leb radialSpan (/ 1000000000) then
      map (fun i =>
             let angle := INR i / INR segments * 2 * PI in
             ellipsePoint rxMax ryMax angle) (seq 0 (S segments))
    else
      let turns := turnsOf (radialSpan * minR) stepover in
      let totalAngle := IZR turns * 2 * PI in
      let steps := Z.max (Z.of_nat segments * turns) 1 in
      map (fun i =>
             let angle := INR i / INR segments * 2 * PI in
             ellipsePoint (rMin * rxMax) (rMin * ryMax) angle) (seq 0 (S segments))
      ++ map (fun i =>
                let angle := INR i / IZR steps * totalAngle in
                let r := rMin + radialSpan * INR i / IZR steps in
                ellipsePoint (r * rxMax) (r * ryMax) angle) (seq 1 (Z.to_nat steps))
      ++ map (fun i =>
                let angle := totalAngle + INR i / INR segments * 2 * PI in
                ellipsePoint rxMax ryMax angle) (seq 1 segments).

(** [p] lies in the plane Z = 0, inside or on the ellipse with half axes
    [rx] and [ry]. *)
Definition within_ellipse (rx ry : R) (p : Point) : Prop :=
  z p = 0 /\
  (x p * ry) * (x p * ry) + (y p * rx) * (y p * rx) <= (rx * ry) * (rx * ry).

(** [p] lies on that ellipse. *)
Definition on_ellipse (rx ry : R) (p : Point) : Prop :=
  z p = 0 /\
  (x p * ry) * (x p * ry) + (y p * rx) * (y p * rx) = (rx * ry) * (rx * ry).

End SpiralEllipse.

(** ** Facing strips: [generateFacingPaths] (main.js 1541-1568) *)

Module Facing.
Import Geometry Generate.

(** The strip at height [y], from right to left when [reverse]. *)
Definition strip (hwEff y : R) (reverse : bool) : list Point :=
  if reverse then [mkPoint hwEff y 0; mkPoint (- hwEff) y 0]
  else [mkPoint (- hwEff) y 0; mkPoint hwEff y 0].

(** The loop [while (y <= hhEff + 1e-9)]; [None] when [fuel] iterations do
    not end it. *)
Fixpoint facingLoop (fuel : nat) (hwEff hhEff stepover y : R) (reverse : bool)
  (paths : list (list Point)) : option (list (list Point)) :=
  match fuel with
  | O => None
  | S k =>
      if Js.leb y (hhEff + / 1000000000) then
        facingLoop k hwEff hhEff stepover (y + stepover) (negb reverse)
          (paths ++ [strip hwEff y reverse])
      else Some paths
  end.

(** [isWithin] is the outcome of
    [String(facingMode).toLowerCase().trim() === "within"]. *)
Definition generateFacingPaths (fuel : nat) (shape : ShapeType) (sp : ShapeParams)
  (stepover toolRadius : R) (isWithin : bool) : option (list (list Point)) :=
  let hw := (match shape with SQUARE => size sp | _ => width sp end) / 2 in
  let hh := (match shape with SQUARE => size sp | _ => height sp end) / 2 in
  let hwEff := if isWithin then hw - toolRadius else hw in
  let hhEff := if isWithin then hh - toolRadius else hh in
  if Js.leb hwEff 0 || Js.leb hhEff 0 then Some []
  else facingLoop fuel hwEff hhEff stepover (- hhEff) false [].

(** The number of strips: [floor((2 * hhEff + 1e-9) / stepover) + 1]. *)
Definition stripCount (hhEff stepover : R) : nat :=
  S (Z.to_nat (Zfloor ((2 * hhEff + / 1000000000) / stepover))).

End Facing.

(** ** Spiral pocket of a square or rectangle:
       [generateSpiralPocketRectangle] (main.js 1490-1530) *)

Module SpiralRectangle.
Import Geometry Generate.

(** The loop [while (L < R - 1e-9 && B < T - 1e-9)]; [None] when [fuel]
    iterations do not end it. *)
Fixpoint windLoop (fuel : nat) (stepover L R B T : R) (path : list Point)
  : option (list Point) :=
  match fuel with
  | O => None
  | S k =>
      if Js.ltb L (R - / 1000000000) && Js.ltb B (T - / 1000000000) then
        let path1 := path ++ [mkPoint R B 0; mkPoint R T 0; mkPoint L T 0] in
        let hasNextWinding :=
          Js.ltb (L + stepover) (R - / 1000000000)
          && Js.ltb (B + stepover) (T - / 1000000000) in
        let path2 :=
          if hasNextWinding
          then path1 ++ [mkPoint L (B + stepover) 0; mkPoint (L + stepover) (B + stepover) 0]
          else path1 in
        windLoop k stepover (L + stepover) (R - stepover) (B + stepover) (T - stepover) path2
      else Some path
  end.

Definition generateSpiralPocketRectangle (fuel : nat) (shape : ShapeType) (sp : ShapeParams)
  (stepover toolRadius : R) : option (list Point) :=
  let hw := (match shape with SQUARE => size sp | _ => width sp end) / 2 - toolRadius in
  let hh := (match shape with SQUARE => size sp | _ => height sp end) / 2 - toolRadius in
  if Js.leb hw 0 || Js.leb hh 0 then Some []
  else
    match windLoop fuel stepover (- hw) hw (- hh) hh [mkPoint 0 0 0; mkPoint (- hw) (- hh) 0] with
    | None => None
    | Some path =>
        Some (rev (skipn 2 path) ++ [mkPoint (- hw) (- hh) 0; mkPoint (- hw) hh 0])
    end.

(** [p] lies in the plane Z = 0 within the rectangle of half sides [hw], [hh]
    around the origin. *)
Definition within_rectangle (hw hh : R) (p : Point) : Prop :=
  z p = 0 /\ - hw <= x p <= hw /\ - hh <= y p <= hh.

End SpiralRectangle.

(** ** Tab boundaries in a segment: [getTabBoundarySInSegment]
       (main.js 1663-1685) *)

Module TabBounds.
Import Tabs.










End TabBounds.

(** ** Where the origin transform puts the bounding box of the moves *)

Module OriginBox.
Import Toolpath.

(** The box [b] moved by [(sx, sy)]. *)
Definition shiftBox (sx sy : R) (b : R * R * R * R) : R * R * R * R :=
  let '(minX, minY, maxX, maxY) := b in (minX + sx, minY + sy, maxX + sx, maxY + sy).

(** The box [(minX, minY, maxX, maxY)] lies as the origin [o] asks: centred
    on the origin, or with the corner named by [o] at the distance [r] inside
    the box from the origin (pocket and inside contour; the corner of the cut
    shape is then at the origin) or outside it (outside contour). *)
Definition placed (o : XYOrigin) (contourOutside : bool) (r : R) (b : R * R * R * R)
  : Prop :=
  let '(minX, minY, maxX, maxY) := b in
  let d := if contourOutside then - r else r in
  match o with
  | CENTER => minX + maxX = 0 /\ minY + maxY = 0
  | BOTTOM_RIGHT => maxX = - d /\ minY = d
  | TOP_LEFT => minX = d /\ maxY = - d
  | TOP_RIGHT => maxX = - d /\ maxY = - d
  | BOTTOM_LEFT | OTHER_XY => minX = d /\ minY = d
  end.

(** The rapid move to the origin followed by a cut to (4, 2, -1). *)
Definition twoMoves : list Move := [mkMove 0 0 5 rapid; mkMove 4 2 (-1) cut].

End OriginBox.

(** ** Showing the estimate: [formatEstimatedTime] (main.js 3314-3326) *)

Module FormatTime.

(** The message returned, by its key and the numbers put into it: the dash,
    [preview.estimatedTimeUnder1Min], [preview.estimatedTimeSec],
    [preview.estimatedTimeMin] and [preview.estimatedTimeHMin]. *)
Inductive Shown : Type :=
| dash
| under1Min
| seconds (sec : Z)
| minutes (min : Z)
| hoursMinutes (h m : Z).

Definition formatEstimatedTime (totalMinutes : Validate.Num) : Shown :=
  match totalMinutes with
  | Validate.Fin t =>
      if Js.ltb t 0 then dash
      else if Js.ltb t 1 then
        let sec := Js.round (t * 60) in
        if (sec <=? 0)%Z then under1Min else seconds sec
      else if Js.ltb t 60 then minutes (Js.round t)
      else hoursMinutes (Zfloor (t / 60)) (Js.round (Letters.rem t 60))
  | _ => dash
  end.

End FormatTime.

(** ** Numbers that leave the range: [computeDepthLevels], the path of
       [generateToolpath] for pockets as wide as the tool and
       [applyOriginTransform], on numbers that may be [NaN] or infinite
       (main.js 976-986, 1691-1704, 2059-2100, 2142-2288, 2333-2346,
       2978-3055) *)

Module Finiteness.
Import Validate.

(** A JavaScript number is a binary64 value: an operation whose exact result
    has magnitude [2^1024 - 2^970] or more gives an infinity.  Below that
    magnitude the result is taken exact, as in the rest of this development,
    and a zero is taken positive. *)
Definition overflowThreshold : R := IZR (2 ^ 1024 - 2 ^ 970).

(** The number an operation gives whose exact result is [v]. *)
Definition ofR (v : R) : Num :=
  if Js.leb overflowThreshold v then PosInf
  else if Js.leb v (- overflowThreshold) then NegInf
  else Fin v.

(** [-a]. *)
Definition negN (a : Num) : Num :=
  match a with
  | NaN => NaN
  | PosInf => NegInf
  | NegInf => PosInf
  | Fin v => Fin (- v)
  end.

(** [a + b]. *)
Definition addN (a b : Num) : Num :=
  match a, b with
  | NaN, _ | _, NaN => NaN
  | Fin u, Fin v => ofR (u + v)
  | PosInf, NegInf | NegInf, PosInf => NaN
  | PosInf, _ | _, PosInf => PosInf
  | NegInf, _ | _, NegInf => NegInf
  end.

(** [a - b]. *)
Definition subN (a b : Num) : Num := addN a (negN b).

(** The infinity of the sign of [u], for [u] other than zero. *)
Definition infinityOfSign (u : R) : Num := if Js.ltb 0 u then PosInf else NegInf.

(** [a * b]. *)
Definition mulN (a b : Num) : Num :=
  match a, b with
  | NaN, _ | _, NaN => NaN
  | Fin u, Fin v => ofR (u * v)
  | Fin u, PosInf | PosInf, Fin u => if Req_dec_T u 0 then NaN else infinityOfSign u
  | Fin u, NegInf | NegInf, Fin u => if Req_dec_T u 0 then NaN else infinityOfSign (- u)
  | PosInf, PosInf | NegInf, NegInf => PosInf
  | PosInf, NegInf | NegInf, PosInf => NegInf
  end.

(** [a / b]. *)
Definition divN (a b : Num) : Num :=
  match a, b with
  | NaN, _ | _, NaN => NaN
  | Fin u, Fin v =>
      if Req_dec_T v 0 then (if Req_dec_T u 0 then NaN else infinityOfSign u)
      else ofR (u / v)
  | Fin _, (PosInf | NegInf) => Fin 0
  | (PosInf | NegInf), (PosInf | NegInf) => NaN
  | PosInf, Fin v => if Js.leb 0 v then PosInf else NegInf
  | NegInf, Fin v => if Js.leb 0 v then NegInf else PosInf
  end.

(** [Math.abs]. *)
Definition absN (a : Num) : Num :=
  match a with
  | NaN => NaN
  | PosInf | NegInf => PosInf
  | Fin v => Fin (Rabs v)
  end.

(** [Math.round]. *)
Definition roundN (a : Num) : Num :=
  match a with
  | Fin v => Fin (IZR (Js.round v))
  | _ => a
  end.

(** [Math.max(a, b)]. *)
Definition maxN (a b : Num) : Num :=
  match a, b with
  | NaN, _ => NaN
  | _, NaN => NaN
  | _, _ => if ltN a b then b else a
  end.

Definition isInfinite (a : Num) : bool :=
  match a with PosInf | NegInf => true | _ => false end.

(** [Math.hypot(a, b)]: an infinite argument wins over [NaN]. *)
Definition hypotN (a b : Num) : Num :=
  if isInfinite a || isInfinite b then PosInf
  else
    match a, b with
    | Fin u, Fin v => ofR (Js.hypot u v)
    | _, _ => NaN
    end.

(** [v || 0]: [NaN] and zero are falsy. *)
Definition orZeroN (v : Num) : Num :=
  match v with
  | NaN => Fin 0
  | _ => v
  end.

(** *** [computeDepthLevels] *)

(** [const round1 = (v) => Math.round(v * 10) / 10]. *)
Definition round1 (v : Num) : Num := divN (roundN (mulN v (Fin 10))) (Fin 10).

(** The value of [numLayers]: [NaN], [Infinity] or an integer. *)
Inductive LayerCount : Type :=
| NoCount
| Endless
| Count (n : Z).

(** [Math.max(1, Math.ceil(totalDepth / stepdown))]. *)
Definition numLayers (totalDepth stepdown : Num) : LayerCount :=
  match divN totalDepth stepdown with
  | NaN => NoCount
  | PosInf => Endless
  | NegInf => Count 1
  | Fin q => Count (Z.max 1 (Js.ceil q))
  end.

(** Body of the loop for index [i]. *)
Definition depthAt (totalDepth : Num) (n : Z) (layerHeight : Num) (i : nat) : Num :=
  let z := if Z.eqb (Z.of_nat i) n then negN totalDepth
           else mulN (Fin (- INR i)) layerHeight in
  negN (round1 (absN z)).

(** [computeDepthLevels]; [None]: the loop [for (i = 1; i <= numLayers; i++)]
    has no end, [numLayers] being [Infinity].  For [NaN] it has no turn. *)
Definition computeDepthLevels (totalDepth stepdown : Num) : option (list Num) :=
  match numLayers totalDepth stepdown with
  | NoCount => Some []
  | Endless => None
  | Count n =>
      let layerHeight := divN totalDepth (Fin (IZR n)) in
      Some (map (depthAt totalDepth n layerHeight) (seq 1 (Z.to_nat n)))
  end.

(** *** The moves of a pocket as wide as the tool *)

(** A toolpath move [{x, y, z, type}]. *)
Record Move : Type := mkMove { x : Num; y : Num; z : Num; type : Toolpath.MoveType }.

Record OriginParams : Type := mkOrigin {
  xyOrigin : Toolpath.XYOrigin;
  zOrigin : Toolpath.ZOrigin;
  zOffset : Num
}.

(** [params]: what [validateInputs] returns, with the origin. *)
Record Request : Type := mkRequest { raw : Raw; originParams : OriginParams }.

(** [equalToToolDiameter] (main.js 1697-1699). *)
Definition equalToToolDiameter (rq : Request) : bool :=
  let minSizeForShape := getShapeMinSize (shape (raw rq)) (shapeParams (raw rq)) in
  isFinite minSizeForShape &&
  leN (absN (subN minSizeForShape (toolDiameter (cutParams (raw rq)))))
      (Fin Generate.epsSize).

(** [moves[moves.length - 1]], absent for the empty list. *)
Definition lastMove (moves : list Move) : option Move :=
  match moves with
  | [] => None
  | _ => Some (last moves (mkMove NaN NaN NaN Toolpath.rapid))
  end.

(** [if (last && last.z < safeZ - 1e-6) moves.push({x: last.x, y: last.y, z: safeZ, type: "rapid"})]. *)
Definition retractIfBelow (moves : list Move) (safeZ : Num) : list Move :=
  match lastMove moves with
  | Some l =>
      if ltN (z l) (subN safeZ (Fin (/ 1000000)))
      then moves ++ [mkMove (x l) (y l) safeZ Toolpath.rapid]
      else moves
  | None => moves
  end.

(** [Math.max(0, cutParams.leadInAboveMm ?? 2)]; the field is always there. *)
Definition leadInAboveOf (c : CutParams) : Num := maxN (Fin 0) (leadInAboveMm c).

(** [addLayerForPath] on a path of the one point [(sx, sy)] (main.js
    2333-2346). *)
Definition addLayerForPoint (moves : list Move) (sx sy depthZ : Num) (c : CutParams)
  (safeZ : Num) : list Move :=
  let leadInAbove := leadInAboveOf c in
  let moves1 := retractIfBelow moves safeZ in
  let moves2 := moves1 ++ [mkMove sx sy safeZ Toolpath.rapid] in
  let moves3 :=
    if gtN safeZ leadInAbove then moves2 ++ [mkMove sx sy leadInAbove Toolpath.rapid]
    else moves2 in
  moves3 ++ [mkMove sx sy (Fin 0) Toolpath.cut; mkMove sx sy depthZ Toolpath.cut].

(** The closing retract of [generateToolpath] for pocket and facing
    operations (main.js 2236-2261). *)
Definition finalRetractPocket (moves : list Move) (safeZ : Num) : list Move :=
  match lastMove moves with
  | None => moves
  | Some l =>
      if ltN (z l) (subN safeZ (Fin (/ 1000000))) then
        let dx := subN (Fin 0) (x l) in
        let dy := subN (Fin 0) (y l) in
        let dist := hypotN dx dy in
        let pullbackMm := Fin (15 / 10) in
        if gtN dist (Fin (/ 1000000)) && gtN pullbackMm (Fin 0) then
          let step := minN pullbackMm dist in
          let endX := addN (x l) (mulN (divN dx dist) step) in
          let endY := addN (y l) (mulN (divN dy dist) step) in
          moves ++ [mkMove endX endY (z l) Toolpath.cut; mkMove endX endY safeZ Toolpath.rapid]
        else moves ++ [mkMove (x l) (y l) safeZ Toolpath.rapid]
      else moves
  end.

(** *** [applyOriginTransform] *)

(** [facingBounds]: [{hw, hh}]. *)
Record FacingBounds : Type := mkBounds { hw : Num; hh : Num }.

(** Body of the first [moves.forEach], on [(minX, minY, maxX, maxY)]. *)
Definition bboxStep (b : Num * Num * Num * Num) (m : Move) : Num * Num * Num * Num :=
  let '(minX, minY, maxX, maxY) := b in
  if negb (isFinite (x m)) || negb (isFinite (y m)) then b
  else (if ltN (x m) minX then x m else minX,
        if ltN (y m) minY then y m else minY,
        if gtN (x m) maxX then x m else maxX,
        if gtN (y m) maxY then y m else maxY).

Definition boundingBox (moves : list Move) : Num * Num * Num * Num :=
  fold_left bboxStep moves (PosInf, PosInf, NegInf, NegInf).

(** [(shiftX, shiftY)]. *)
Definition originShift (b : Num * Num * Num * Num) (o : Toolpath.XYOrigin)
  (toolRadiusForXYShift : Num) (operation : Toolpath.OperationType)
  (contourType : Toolpath.ContourType) (facingBounds : option FacingBounds) : Num * Num :=
  let '(minX, minY, maxX, maxY) := b in
  let r := if isFinite toolRadiusForXYShift then toolRadiusForXYShift else Fin 0 in
  let isFacing :=
    match operation, facingBounds with
    | Toolpath.FACING_OP, Some fb => Some fb
    | _, _ => None
    end in
  let contourOutside :=
    match operation, contourType with
    | Toolpath.CONTOUR, Toolpath.outside => true
    | _, _ => false
    end in
  match isFacing with
  | Some fb =>
      match o with
      | Toolpath.BOTTOM_LEFT => (hw fb, hh fb)
      | Toolpath.BOTTOM_RIGHT => (negN (hw fb), hh fb)
      | Toolpath.TOP_LEFT => (hw fb, negN (hh fb))
      | Toolpath.TOP_RIGHT => (negN (hw fb), negN (hh fb))
      | Toolpath.CENTER => (Fin 0, Fin 0)
      | Toolpath.OTHER_XY => (hw fb, hh fb)
      end
  | None =>
      if negb (Toolpath.isCenter o) then
        if contourOutside then
          match o with
          | Toolpath.BOTTOM_LEFT => (subN (negN minX) r, subN (negN minY) r)
          | Toolpath.BOTTOM_RIGHT => (subN r maxX, subN (negN minY) r)
          | Toolpath.TOP_LEFT => (subN (negN minX) r, subN r maxY)
          | Toolpath.TOP_RIGHT => (subN r maxX, subN r maxY)
          | _ => (subN (negN minX) r, subN (negN minY) r)
          end
        else
          match o with
          | Toolpath.BOTTOM_LEFT => (addN (negN minX) r, addN (negN minY) r)
          | Toolpath.BOTTOM_RIGHT => (subN (negN maxX) r, subN r minY)
          | Toolpath.TOP_LEFT => (subN r minX, subN (negN maxY) r)
          | Toolpath.TOP_RIGHT => (subN (negN maxX) r, subN (negN maxY) r)
          | _ => (addN (negN minX) r, addN (negN minY) r)
          end
      else (divN (negN (addN minX maxX)) (Fin 2), divN (negN (addN minY maxY)) (Fin 2))
  end.

(** Body of the second [moves.forEach]. *)
Definition shiftMove (shiftX shiftY : Num) (zOriginMode : Toolpath.ZOrigin)
  (totalDepth zOffset : Num) (m : Move) : Move :=
  let z1 := match zOriginMode with
            | Toolpath.STOCK_BOTTOM => addN (z m) totalDepth
            | Toolpath.STOCK_TOP => z m
            end in
  mkMove (addN (x m) shiftX) (addN (y m) shiftY) (addN z1 zOffset) (type m).

Definition applyOriginTransform (moves : list Move) (originParams : OriginParams)
  (totalDepth toolRadiusForXYShift : Num) (operation : Toolpath.OperationType)
  (contourType : Toolpath.ContourType) (facingBounds : option FacingBounds) : list Move :=
  let '(shiftX, shiftY) :=
    originShift (boundingBox moves) (xyOrigin originParams) toolRadiusForXYShift
      operation contourType facingBounds in
  map (shiftMove shiftX shiftY (zOrigin originParams) totalDepth
         (orZeroN (zOffset originParams))) moves.

(** *** [generateToolpath] *)

(** What a call of [generateToolpath] comes to: a path through it that this
    development does not follow, no return (the loop of [computeDepthLevels]
    has no end), or the toolpath returned. *)
Inductive Outcome : Type :=
| NotFollowed
| NoReturn
| Toolpath (moves : list Move).

(** [generateToolpath] for a pocket on a circle, ellipse or square whose
    minimum size equals the tool diameter: [pocketPaths] is the single path
    [[{x: 0, y: 0, z: 0}]], every depth level runs the one-point branch of
    [addLayerForPath], then the closing retract and the origin transform. *)
Definition generateToolpath (rq : Request) : Outcome :=
  let c := cutParams (raw rq) in
  let toolRadius := divN (toolDiameter c) (Fin 2) in
  match computeDepthLevels (totalDepth c) (stepdown c) with
  | None => NoReturn
  | Some depths =>
      let safeZ := safeHeight c in
      match operation (raw rq), equalToToolDiameter rq, shape (raw rq) with
      | Toolpath.POCKET, true,
        Some (Generate.CIRCLE | Generate.ELLIPSE | Generate.SQUARE) =>
          let moves :=
            fold_left (fun moves depthZ =>
                         addLayerForPoint moves (Fin 0) (Fin 0) depthZ c safeZ)
              depths [] in
          let moves := finalRetractPocket moves safeZ in
          Toolpath (applyOriginTransform moves (originParams rq) (totalDepth c) toolRadius
                      (operation (raw rq)) (contourType (raw rq)) None)
      | _, _, _ => NotFollowed
      end
  end.

(** *** Finite toolpaths *)

(** A move with finite x, y and z. *)
Definition finiteMove (m : Move) : Prop :=
  isFinite (x m) = true /\ isFinite (y m) = true /\ isFinite (z m) = true.








(** A move whose x, y and z are finite and at most [b] in magnitude. *)
Definition boundedMove (b : R) (m : Move) : Prop :=
  (exists v, x m = Fin v /\ Rabs v <= b) /\
  (exists v, y m = Fin v /\ Rabs v <= b) /\
  (exists v, z m = Fin v /\ Rabs v <= b).

(** A bounding box that is finite and at most [b] in magnitude. *)
Definition boundedBox (b : R) (box : Num * Num * Num * Num) : Prop :=
  exists minX minY maxX maxY,
    box = (Fin minX, Fin minY, Fin maxX, Fin maxY) /\
    Rabs minX <= b /\ Rabs minY <= b /\ Rabs maxX <= b /\ Rabs maxY <= b.

(** 1e300: lengths up to here leave room for every sum and product on the
    path. *)
Definition bound : R := IZR (10 ^ 300).




End Finiteness.

(** * Properties *)

(** ** Facts about the number helpers *)

Module JsFacts.
Import Js.

Lemma ltb_true a b : a < b -> ltb a b = true.
Proof. unfold ltb; destruct (Rlt_dec a b); [reflexivity | tauto]. Qed.

Lemma ltb_false a b : b <= a -> ltb a b = false.
Proof. unfold ltb; destruct (Rlt_dec a b); [lra | reflexivity]. Qed.

Lemma leb_true a b : a <= b -> leb a b = true.
Proof. unfold leb; destruct (Rle_dec a b); [reflexivity | tauto]. Qed.

Lemma leb_false a b : b < a -> leb a b = false.
Proof. unfold leb; destruct (Rle_dec a b); [lra | reflexivity]. Qed.

Lemma ltb_spec a b : ltb a b = true <-> a < b.
Proof. unfold ltb; destruct (Rlt_dec a b); split; auto; discriminate. Qed.

Lemma leb_spec a b : leb a b = true <-> a <= b.
Proof. unfold leb; destruct (Rle_dec a b); split; auto; discriminate. Qed.

Lemma ltb_nspec a b : ltb a b = false <-> b <= a.
Proof. unfold ltb; destruct (Rlt_dec a b); split; auto; try discriminate; lra. Qed.

Lemma leb_nspec a b : leb a b = false <-> b < a.
Proof. unfold leb; destruct (Rle_dec a b); split; auto; try discriminate; lra. Qed.

Lemma round_eq (z : Z) x : IZR z - / 2 <= x < IZR z + / 2 -> round x = z.
Proof. intros H; unfold round; apply Zfloor_eq; lra. Qed.

Lemma round_le x y : x <= y -> (round x <= round y)%Z.
Proof. intros H; unfold round; apply Zfloor_le; lra. Qed.


Lemma round_nonneg x : 0 <= x -> (0 <= round x)%Z.
Proof. intros H; unfold round; apply Zfloor_lub; simpl; lra. Qed.

Lemma ceil_pos x : 0 < x -> (1 <= ceil x)%Z.
Proof.
  intros H. unfold ceil. pose proof (Zceil_bound x) as [_ Hb].
  assert (Hz : (0 < Zceil x)%Z) by (apply lt_IZR; lra). lia.
Qed.


Lemma hypot_nonneg x y : 0 <= hypot x y.
Proof. apply sqrt_pos. Qed.

Lemma hypot_eq x y l : 0 <= l -> l * l = x * x + y * y -> hypot x y = l.
Proof. intros Hl H; unfold hypot; rewrite <- H; apply sqrt_square; exact Hl. Qed.

Lemma hypot_sqr x y : hypot x y * hypot x y = x * x + y * y.
Proof. unfold hypot; apply sqrt_sqrt; nra. Qed.

Lemma hypot_lt x y l : 0 < l -> x * x + y * y < l * l -> hypot x y < l.
Proof.
  intros Hl H. pose proof (hypot_sqr x y). pose proof (hypot_nonneg x y).
  destruct (Rlt_dec (hypot x y) l); [assumption | nra].
Qed.

Lemma hypot_ge x y l : l * l <= x * x + y * y -> l <= hypot x y.
Proof.
  intros H. pose proof (hypot_sqr x y). pose proof (hypot_nonneg x y).
  destruct (Rle_dec l (hypot x y)); [assumption | nra].
Qed.

End JsFacts.

(** ** Depth layering *)

Module DepthFacts.
Import Js JsFacts Depth.



Lemma round1_nonneg x : 0 <= x -> 0 <= round1 x.
Proof.
  intros H. unfold round1.
  assert (Hz : (0 <= round (x * 10))%Z) by (apply round_nonneg; lra).
  apply IZR_le in Hz. lra.
Qed.






(** Whatever the arguments, there is at least one level and no level is
    above the stock surface. *)
Lemma computeDepthLevels_nonpos td sd :
  computeDepthLevels td sd <> [] /\ Forall (fun d => d <= 0) (computeDepthLevels td sd).
Proof.
  unfold computeDepthLevels.
  assert (Hn : (1 <= numLayers td sd)%nat) by (unfold numLayers; lia).
  split.
  - destruct (numLayers td sd); [lia | discriminate].
  - apply Forall_forall. intros z Hz. apply in_map_iff in Hz as (i & <- & _).
    unfold depthAt. pose proof (round1_nonneg _ (Rabs_pos
      (if Nat.eqb i (numLayers td sd) then - td
       else - INR i * (td / INR (numLayers td sd))))). lra.
Qed.






End DepthFacts.

(** ** Polygon area *)

Module GeometryFacts.
Import Js JsFacts Geometry.

(** Sum of a list of reals. *)
Lemma fold_left_plus (g : nat -> R) (l : list nat) : forall a,
  fold_left (fun s i => s + g i) l a = a + fold_right Rplus 0 (map g l).
Proof.
  induction l as [| i l IH]; intros a; simpl; [lra |].
  rewrite IH. lra.
Qed.

Lemma sum_app (l1 l2 : list R) :
  fold_right Rplus 0 (l1 ++ l2) = fold_right Rplus 0 l1 + fold_right Rplus 0 l2.
Proof. induction l1 as [| a l1 IH]; simpl; [lra | rewrite IH; lra]. Qed.

Lemma sum_map_plus (f g : nat -> R) (l : list nat) :
  fold_right Rplus 0 (map (fun i => f i + g i) l) =
  fold_right Rplus 0 (map f l) + fold_right Rplus 0 (map g l).
Proof. induction l as [| a l IH]; simpl; [lra | rewrite IH; lra]. Qed.

Lemma sum_map_opp (f : nat -> R) (l : list nat) :
  fold_right Rplus 0 (map (fun i => - f i) l) = - fold_right Rplus 0 (map f l).
Proof. induction l as [| a l IH]; simpl; [lra | rewrite IH; lra]. Qed.

(** A sum over the cyclic successors is the sum itself. *)
Lemma sum_cyclic_shift (g : nat -> R) (n : nat) :
  fold_right Rplus 0 (map (fun i => g ((i + 1) mod n)%nat) (seq 0 n)) =
  fold_right Rplus 0 (map g (seq 0 n)).
Proof.
  destruct n as [| m]; [reflexivity |].
  rewrite seq_S at 1. rewrite map_app, sum_app. cbn [map fold_right Nat.add].
  replace ((m + 1) mod S m)%nat with 0%nat
    by (replace (m + 1)%nat with (S m) by lia; now rewrite Nat.Div0.mod_same).
  rewrite (map_ext_in (fun i => g ((i + 1) mod S m)%nat) (fun i => g (S i))).
  2:{ intros i Hi. apply in_seq in Hi. rewrite Nat.mod_small by lia. f_equal. lia. }
  change (seq 0 (S m)) with (0%nat :: seq 1 m).
  rewrite <- seq_shift. cbn [map fold_right]. rewrite map_map. lra.
Qed.

(** [polygonSignedArea2] is the opposite of the shoelace sum: its sign is
    negative for counter-clockwise vertex order. *)
Lemma polygonSignedArea2_opp_shoelace (pts : list Point) :
  (3 <= length pts)%nat -> polygonSignedArea2 pts = - shoelace2 pts.
Proof.
  intros Hn. unfold polygonSignedArea2, shoelace2.
  destruct (Nat.ltb_spec (length pts) 3) as [Hlt | _]; [lia |].
  set (n := length pts).
  change (areaStep pts) with
    (fun s i => s + (x (nthP pts ((i + 1) mod n)) - x (nthP pts i)) *
                    (y (nthP pts ((i + 1) mod n)) + y (nthP pts i))).
  change (shoelaceStep pts) with
    (fun s i => s + (x (nthP pts i) * y (nthP pts ((i + 1) mod n)) -
                     x (nthP pts ((i + 1) mod n)) * y (nthP pts i))).
  rewrite !fold_left_plus, !Rplus_0_l.
  set (g := fun k => x (nthP pts k) * y (nthP pts k)).
  pose proof (sum_cyclic_shift g n) as Hc.
  rewrite <- sum_map_opp.
  rewrite (map_ext
    (fun i => (x (nthP pts ((i + 1) mod n)) - x (nthP pts i)) *
              (y (nthP pts ((i + 1) mod n)) + y (nthP pts i)))
    (fun i => (fun i => g ((i + 1) mod n)%nat + - g i) i +
              (fun i => - (x (nthP pts i) * y (nthP pts ((i + 1) mod n)) -
                 x (nthP pts ((i + 1) mod n)) * y (nthP pts i))) i)).
  2:{ intros i. unfold g. ring. }
  rewrite sum_map_plus, (sum_map_plus (fun i => g ((i + 1) mod n)%nat) (fun i => - g i)).
  rewrite sum_map_opp, Hc. lra.
Qed.

(** The triangle (0,0), (1,0), (0,1): counter-clockwise. *)
Lemma triangle_ccw :
  convex_ccw [mkPoint 0 0 0; mkPoint 1 0 0; mkPoint 0 1 0].
Proof.
  intros i Hi. simpl in Hi.
  destruct i as [| [| [| i]]]; [| | | lia]; unfold left_turn; simpl; lra.
Qed.

(** C4.  On the counter-clockwise triangle (0,0), (1,0), (0,1), whose signed
    area is 1/2, [polygonSignedArea2] returns -1: the opposite of twice the
    signed area, negative for counter-clockwise order. *)
Theorem polygonSignedArea2_ccw_triangle :
  convex_ccw [mkPoint 0 0 0; mkPoint 1 0 0; mkPoint 0 1 0] /\
  shoelace2 [mkPoint 0 0 0; mkPoint 1 0 0; mkPoint 0 1 0] = 1 /\
  polygonSignedArea2 [mkPoint 0 0 0; mkPoint 1 0 0; mkPoint 0 1 0] = -1.
Proof.
  split; [apply triangle_ccw |].
  assert (Hs : shoelace2 [mkPoint 0 0 0; mkPoint 1 0 0; mkPoint 0 1 0] = 1).
  { unfold shoelace2, shoelaceStep, nthP. simpl. lra. }
  split; [exact Hs |].
  rewrite polygonSignedArea2_opp_shoelace by (simpl; lia). rewrite Hs. reflexivity.
Qed.

End GeometryFacts.

(** ** Contour offset *)

Module OffsetFacts.
Import Js JsFacts Geometry Offset.

Lemma dedupStep_length out p : (length (dedupStep out p) <= S (length out))%nat.
Proof.
  unfold dedupStep. destruct (lastOpt out) as [prev |].
  - destruct (_ || _); [rewrite length_app; simpl; lia | lia].
  - rewrite length_app; simpl; lia.
Qed.

Lemma dedup_fold_length pts : forall out,
  (length (fold_left dedupStep pts out) <= length out + length pts)%nat.
Proof.
  induction pts as [| p pts IH]; intros out; simpl; [lia |].
  specialize (IH (dedupStep out p)). pose proof (dedupStep_length out p). lia.
Qed.

Lemma openPoints_length contour : (length (openPoints contour) <= length contour)%nat.
Proof.
  unfold openPoints. destruct (isClosed contour); [| lia].
  destruct contour as [| p l]; [simpl; lia |].
  rewrite removelast_firstn_len, length_firstn. lia.
Qed.

Lemma usablePoints_length contour : (length (usablePoints contour) <= length contour)%nat.
Proof.
  unfold usablePoints, dedup.
  pose proof (dedup_fold_length (openPoints contour) []).
  pose proof (openPoints_length contour). simpl in *. lia.
Qed.

Lemma cleanup_length k : forall pts r,
  (3 <= length pts)%nat -> cleanup k pts = Some r -> (3 <= length r)%nat.
Proof.
  induction k as [| k IH]; intros pts r Hlen H; simpl in H.
  - now inversion H; subst.
  - destruct (cleanupPass pts) as [next changed].
    destruct (Nat.ltb_spec (length next) 3) as [| Hn]; [discriminate |].
    destruct changed; [eapply IH; eassumption | now inversion H; subst].
Qed.

Lemma prev_next n i : (i < n)%nat ->
  nextIdx n (prevIdx n i) = i /\ (prevIdx n i < n)%nat.
Proof.
  intros Hi. unfold nextIdx, prevIdx. split.
  - rewrite Nat.Div0.add_mod_idemp_l.
    replace (i + n - 1 + 1)%nat with (i + 1 * n)%nat by lia.
    rewrite Nat.Div0.mod_add. apply Nat.mod_small; assumption.
  - apply Nat.mod_upper_bound; lia.
Qed.

Lemma offsetVertex_none pts s d z0 i :
  offsetVertex pts s d z0 i = None <->
  distance2D (nthP pts i) (nthP pts (prevIdx (length pts) i)) < minLen \/
  distance2D (nthP pts (nextIdx (length pts) i)) (nthP pts i) < minLen.
Proof.
  unfold offsetVertex, distance2D.
  set (len1 := hypot _ _). set (len2 := hypot _ _).
  destruct (ltb len1 minLen) eqn:E1; [apply ltb_spec in E1 | apply ltb_nspec in E1];
    (destruct (ltb len2 minLen) eqn:E2; [apply ltb_spec in E2 | apply ltb_nspec in E2]);
    simpl.
  1-3: split; [intros _ | reflexivity]; auto.
  split; [| intros [H | H]; lra].
  destruct (ltb _ crossTol); discriminate.
Qed.

Lemma offsetVertex_z pts s d z0 i p : offsetVertex pts s d z0 i = Some p -> z p = z0.
Proof.
  unfold offsetVertex. destruct (_ || _); [discriminate |].
  destruct (ltb _ crossTol); intros H; inversion H; reflexivity.
Qed.

Lemma offsetLoop_some pts s d z0 idxs : forall acc result,
  offsetLoop pts s d z0 idxs acc = Some result ->
  length result = (length acc + length idxs)%nat /\
  (Forall (fun p => z p = z0) acc -> Forall (fun p => z p = z0) result) /\
  (forall i, In i idxs -> offsetVertex pts s d z0 i <> None).
Proof.
  induction idxs as [| i idxs IH]; intros acc result H; simpl in H.
  - inversion H; subst. repeat split; [simpl; lia | auto | intros i []].
  - destruct (offsetVertex pts s d z0 i) as [p |] eqn:Ep; [| discriminate].
    destruct (IH _ _ H) as (Hl & Hz & Hi).
    rewrite length_app in Hl. simpl in *. repeat split; [lia | |].
    + intros Hacc. apply Hz. apply Forall_app. split; [assumption |].
      constructor; [| constructor]. eapply offsetVertex_z; eassumption.
    + intros j [<- | Hj]; [congruence | auto].
Qed.


(** Some edge is short exactly when the offset loop meets a vertex with a
    short adjacent edge. *)
Lemma has_zero_edge_iff pts s d z0 :
  has_zero_edge pts <->
  exists i, (i < length pts)%nat /\ offsetVertex pts s d z0 i = None.
Proof.
  split.
  - intros (i & Hi & Hd). exists i. split; [assumption |].
    apply offsetVertex_none. now right.
  - intros (i & Hi & Hn). apply offsetVertex_none in Hn as [H | H].
    + destruct (prev_next _ _ Hi) as [Hpn Hp].
      exists (prevIdx (length pts) i). split; [assumption |]. now rewrite Hpn.
    + exists i. split; assumption.
Qed.





(** *** Evaluation on concrete contours *)

Ltac abs_lra :=
  unfold Rabs;
  repeat (match goal with |- context [Rcase_abs ?a] => destruct (Rcase_abs a) end);
  lra.

Ltac js_cbn :=
  cbn [length nth nthP prevIdx nextIdx Nat.add Nat.sub Nat.modulo Nat.divmod fst snd
       x y z Nat.ltb Nat.leb removelast last lastOpt app fold_left seq andb orb
       midpoint distance2D].

Ltac cmp_solve :=
  first [ lra | abs_lra | apply hypot_lt; lra | apply hypot_ge; lra ].

Ltac eval_cmp :=
  repeat match goal with
  | |- context [ltb ?a ?b] =>
      first [ rewrite (ltb_true a b) by cmp_solve
            | rewrite (ltb_false a b) by cmp_solve ]
  | |- context [leb ?a ?b] =>
      first [ rewrite (leb_true a b) by cmp_solve
            | rewrite (leb_false a b) by cmp_solve ]
  end.

Ltac hypot_is l :=
  match goal with
  | |- context [hypot ?a ?b] =>
      replace (hypot a b) with l by (symmetry; apply hypot_eq; lra)
  end.

Ltac eval_vertex l :=
  unfold offsetVertex, minLen, crossTol; js_cbn;
  repeat hypot_is l; eval_cmp; js_cbn; eval_cmp;
  f_equal; f_equal; lra.

Lemma squareCCW_usable :
  usablePoints squareCCW = [mkPoint 0 0 0; mkPoint 4 0 0; mkPoint 4 4 0; mkPoint 0 4 0].
Proof.
  unfold usablePoints, openPoints, isClosed, squareCCW, closeTol. js_cbn. eval_cmp. js_cbn.
  unfold dedup, dedupStep, gtb, tol. js_cbn.
  eval_cmp. js_cbn. eval_cmp. js_cbn. eval_cmp. js_cbn. reflexivity.
Qed.

Lemma squareCW_usable :
  usablePoints squareCW = [mkPoint 0 0 0; mkPoint 0 4 0; mkPoint 4 4 0; mkPoint 4 0 0].
Proof.
  unfold usablePoints, openPoints, isClosed, squareCW, closeTol. js_cbn. eval_cmp. js_cbn.
  unfold dedup, dedupStep, gtb, tol. js_cbn.
  eval_cmp. js_cbn. eval_cmp. js_cbn. eval_cmp. js_cbn. reflexivity.
Qed.

Lemma squareCCW_cleanup :
  cleanup 3 [mkPoint 0 0 0; mkPoint 4 0 0; mkPoint 4 4 0; mkPoint 0 4 0] =
  Some [mkPoint 0 0 0; mkPoint 4 0 0; mkPoint 4 4 0; mkPoint 0 4 0].
Proof.
  unfold cleanup, cleanupPass, cleanupStep, minLen. js_cbn. eval_cmp. js_cbn. reflexivity.
Qed.

Lemma squareCW_cleanup :
  cleanup 3 [mkPoint 0 0 0; mkPoint 0 4 0; mkPoint 4 4 0; mkPoint 4 0 0] =
  Some [mkPoint 0 0 0; mkPoint 0 4 0; mkPoint 4 4 0; mkPoint 4 0 0].
Proof.
  unfold cleanup, cleanupPass, cleanupStep, minLen. js_cbn. eval_cmp. js_cbn. reflexivity.
Qed.

(** Positive distance 1 on the counter-clockwise square: the square grows to
    the corners (-1,-1) and (5,5). *)
Lemma contourOffset_squareCCW_pos :
  contourOffset squareCCW 1 =
  (Some [mkPoint (-1) (-1) 0; mkPoint 5 (-1) 0; mkPoint 5 5 0; mkPoint (-1) 5 0;
         mkPoint (-1) (-1) 0], None).
Proof.
  unfold contourOffset. fold (usablePoints squareCCW).
  rewrite squareCCW_usable, squareCCW_cleanup.
  change (length squareCCW <? 3)%nat with false. cbv iota.
  destruct (Req_dec_T 1 0) as [H | _]; [lra |].
  js_cbn. unfold offsetCleaned.
  set (pts := [mkPoint 0 0 0; mkPoint 4 0 0; mkPoint 4 4 0; mkPoint 0 4 0]).
  assert (Ha : polygonSignedArea2 pts = -32).
  { unfold polygonSignedArea2, pts, areaStep. js_cbn. lra. }
  rewrite Ha. unfold signOf, geb. eval_cmp.
  assert (V0 : offsetVertex pts (-1) 1 0 0 = Some (mkPoint (-1) (-1) 0)) by (unfold pts; eval_vertex 4).
  assert (V1 : offsetVertex pts (-1) 1 0 1 = Some (mkPoint 5 (-1) 0)) by (unfold pts; eval_vertex 4).
  assert (V2 : offsetVertex pts (-1) 1 0 2 = Some (mkPoint 5 5 0)) by (unfold pts; eval_vertex 4).
  assert (V3 : offsetVertex pts (-1) 1 0 3 = Some (mkPoint (-1) 5 0)) by (unfold pts; eval_vertex 4).
  change (z (nthP pts 0)) with 0. change (length pts) with 4%nat.
  cbn [seq offsetLoop]. rewrite V0, V1, V2, V3. cbn [app length Nat.ltb Nat.leb].
  assert (Ho : polygonSignedArea2
                 [mkPoint (-1) (-1) 0; mkPoint 5 (-1) 0; mkPoint 5 5 0; mkPoint (-1) 5 0] = -72).
  { unfold polygonSignedArea2, areaStep. js_cbn. lra. }
  rewrite Ho. unfold areaTol. eval_cmp. reflexivity.
Qed.

(** Positive distance 1 on the clockwise square: the same growth. *)
Lemma contourOffset_squareCW_pos :
  contourOffset squareCW 1 =
  (Some [mkPoint (-1) (-1) 0; mkPoint (-1) 5 0; mkPoint 5 5 0; mkPoint 5 (-1) 0;
         mkPoint (-1) (-1) 0], None).
Proof.
  unfold contourOffset. fold (usablePoints squareCW).
  rewrite squareCW_usable, squareCW_cleanup.
  change (length squareCW <? 3)%nat with false. cbv iota.
  destruct (Req_dec_T 1 0) as [H | _]; [lra |].
  js_cbn. unfold offsetCleaned.
  set (pts := [mkPoint 0 0 0; mkPoint 0 4 0; mkPoint 4 4 0; mkPoint 4 0 0]).
  assert (Ha : polygonSignedArea2 pts = 32).
  { unfold polygonSignedArea2, pts, areaStep. js_cbn. lra. }
  rewrite Ha. unfold signOf, geb. eval_cmp.
  assert (V0 : offsetVertex pts 1 1 0 0 = Some (mkPoint (-1) (-1) 0)) by (unfold pts; eval_vertex 4).
  assert (V1 : offsetVertex pts 1 1 0 1 = Some (mkPoint (-1) 5 0)) by (unfold pts; eval_vertex 4).
  assert (V2 : offsetVertex pts 1 1 0 2 = Some (mkPoint 5 5 0)) by (unfold pts; eval_vertex 4).
  assert (V3 : offsetVertex pts 1 1 0 3 = Some (mkPoint 5 (-1) 0)) by (unfold pts; eval_vertex 4).
  change (z (nthP pts 0)) with 0. change (length pts) with 4%nat.
  cbn [seq offsetLoop]. rewrite V0, V1, V2, V3. cbn [app length Nat.ltb Nat.leb].
  assert (Ho : polygonSignedArea2
                 [mkPoint (-1) (-1) 0; mkPoint (-1) 5 0; mkPoint 5 5 0; mkPoint 5 (-1) 0] = 72).
  { unfold polygonSignedArea2, areaStep. js_cbn. lra. }
  rewrite Ho. unfold areaTol. eval_cmp. reflexivity.
Qed.






(** Each offset vertex lies on the two neighbouring edge lines moved by
    [sign * d] along their left normals [(-dy, dx) / len]. *)
Lemma offsetVertex_on_offset_lines pts sign d z0 i p :
  offsetVertex pts sign d z0 i = Some p ->
  let prev := nthP pts (prevIdx (length pts) i) in
  let curr := nthP pts i in
  let next := nthP pts (nextIdx (length pts) i) in
  let dx1 := x curr - x prev in let dy1 := y curr - y prev in
  let dx2 := x next - x curr in let dy2 := y next - y curr in
  crossTol <= Rabs (dx1 * dy2 - dy1 * dx2) ->
  (x p - x prev) * (- dy1) + (y p - y prev) * dx1 = sign * d * hypot dx1 dy1 /\
  (x p - x curr) * (- dy2) + (y p - y curr) * dx2 = sign * d * hypot dx2 dy2.
Proof.
  intros Hv prev curr next dx1 dy1 dx2 dy2 Hcross.
  unfold offsetVertex in Hv.
  fold prev curr next in Hv. fold dx1 dy1 dx2 dy2 in Hv.
  set (len1 := hypot dx1 dy1) in *. set (len2 := hypot dx2 dy2) in *.
  destruct (ltb len1 minLen) eqn:E1; [discriminate | apply ltb_nspec in E1].
  destruct (ltb len2 minLen) eqn:E2; [discriminate | apply ltb_nspec in E2].
  cbn [orb] in Hv.
  rewrite ltb_false in Hv by exact Hcross.
  inversion Hv; subst p; clear Hv. cbn [x y].
  assert (Hl1 : len1 * len1 = dx1 * dx1 + dy1 * dy1) by apply hypot_sqr.
  assert (Hl2 : len2 * len2 = dx2 * dx2 + dy2 * dy2) by apply hypot_sqr.
  unfold minLen in *.
  assert (Hn1 : len1 <> 0) by lra. assert (Hn2 : len2 <> 0) by lra.
  assert (Hc : dx1 * dy2 - dy1 * dx2 <> 0).
  { intros H0. rewrite H0, Rabs_R0 in Hcross. unfold crossTol in Hcross. lra. }
  clearbody len1 len2 prev curr next. subst dx1 dy1 dx2 dy2.
  split.
  - transitivity (sign * d * ((x curr - x prev) * (x curr - x prev) +
                               (y curr - y prev) * (y curr - y prev)) / len1);
      [field; auto |].
    rewrite <- Hl1. field; auto.
  - transitivity (sign * d * ((x next - x curr) * (x next - x curr) +
                               (y next - y curr) * (y next - y curr)) / len2).
    + field; auto.
    + rewrite <- Hl2. field; auto.
Qed.

(** On a counter-clockwise polygon (positive shoelace sum) the sign is -1, so
    every offset vertex lies on the neighbouring edge lines moved by [d] along
    their right normals [(dy, -dx) / len]: away from the interior, which lies
    to the left of a counter-clockwise boundary. *)
Lemma offsetVertex_ccw_moves_right pts d z0 i p :
  (3 <= length pts)%nat -> 0 < shoelace2 pts ->
  offsetVertex pts (signOf (polygonSignedArea2 pts)) d z0 i = Some p ->
  let prev := nthP pts (prevIdx (length pts) i) in
  let curr := nthP pts i in
  let next := nthP pts (nextIdx (length pts) i) in
  let dx1 := x curr - x prev in let dy1 := y curr - y prev in
  let dx2 := x next - x curr in let dy2 := y next - y curr in
  crossTol <= Rabs (dx1 * dy2 - dy1 * dx2) ->
  (x p - x prev) * dy1 + (y p - y prev) * (- dx1) = d * hypot dx1 dy1 /\
  (x p - x curr) * dy2 + (y p - y curr) * (- dx2) = d * hypot dx2 dy2.
Proof.
  intros Hlen Hccw Hv prev curr next dx1 dy1 dx2 dy2 Hcross.
  assert (Hsign : signOf (polygonSignedArea2 pts) = -1).
  { rewrite GeometryFacts.polygonSignedArea2_opp_shoelace by assumption.
    unfold signOf, geb. rewrite leb_false by lra. reflexivity. }
  rewrite Hsign in Hv.
  destruct (offsetVertex_on_offset_lines pts (-1) d z0 i p Hv Hcross) as [H1 H2].
  fold prev curr next in H1, H2. fold dx1 dy1 dx2 dy2 in H1, H2.
  split; lra.
Qed.

(** With the sign that the doc comment of [polygonSignedArea2] promises for
    the counter-clockwise square (+1 instead of the -1 the code computes),
    the same offset loop moves the edges inward, to the 2 x 2 square. *)
Lemma offsetLoop_square_with_ccw_positive_sign :
  offsetLoop [mkPoint 0 0 0; mkPoint 4 0 0; mkPoint 4 4 0; mkPoint 0 4 0] 1 1 0
    (seq 0 4) [] =
  Some [mkPoint 1 1 0; mkPoint 3 1 0; mkPoint 3 3 0; mkPoint 1 3 0].
Proof.
  set (pts := [mkPoint 0 0 0; mkPoint 4 0 0; mkPoint 4 4 0; mkPoint 0 4 0]).
  assert (V0 : offsetVertex pts 1 1 0 0 = Some (mkPoint 1 1 0)) by (unfold pts; eval_vertex 4).
  assert (V1 : offsetVertex pts 1 1 0 1 = Some (mkPoint 3 1 0)) by (unfold pts; eval_vertex 4).
  assert (V2 : offsetVertex pts 1 1 0 2 = Some (mkPoint 3 3 0)) by (unfold pts; eval_vertex 4).
  assert (V3 : offsetVertex pts 1 1 0 3 = Some (mkPoint 1 3 0)) by (unfold pts; eval_vertex 4).
  cbn [seq offsetLoop]. rewrite V0, V1, V2, V3. reflexivity.
Qed.

(** C3.  With the positive distance 1, [contourOffset] moves every edge of
    the 4 x 4 square one unit away from the interior, for the
    counter-clockwise and for the clockwise vertex order alike: the result is
    the 6 x 6 square with corners (-1,-1) and (5,5). *)
Theorem contourOffset_positive_distance_moves_outward :
  fst (contourOffset squareCCW 1) =
    Some [mkPoint (-1) (-1) 0; mkPoint 5 (-1) 0; mkPoint 5 5 0; mkPoint (-1) 5 0;
          mkPoint (-1) (-1) 0] /\
  fst (contourOffset squareCW 1) =
    Some [mkPoint (-1) (-1) 0; mkPoint (-1) 5 0; mkPoint 5 5 0; mkPoint 5 (-1) 0;
          mkPoint (-1) (-1) 0].
Proof.
  rewrite contourOffset_squareCCW_pos, contourOffset_squareCW_pos. split; reflexivity.
Qed.

End OffsetFacts.

(** ** Origin transform *)

Module ToolpathFacts.
Import Js JsFacts Toolpath.

Lemma boundingBox_fold moves : forall b,
  b <> None -> fold_left bboxStep moves b <> None.
Proof.
  induction moves as [| m moves IH]; intros b Hb; simpl; [assumption |].
  apply IH. destruct b as [[[[a1 a2] a3] a4] |]; [discriminate | contradiction].
Qed.

Lemma boundingBox_none moves : boundingBox moves = None -> moves = [].
Proof.
  destruct moves as [| m moves]; [reflexivity |]. unfold boundingBox. simpl.
  intros H. exfalso. revert H. apply boundingBox_fold. discriminate.
Qed.

Lemma shiftMove_translate sx sy o td zo m :
  shiftMove sx sy o td zo m =
  translate sx sy (match o with STOCK_BOTTOM => td + zo | STOCK_TOP => zo end) m.
Proof.
  unfold shiftMove, translate. destruct o; f_equal; ring.
Qed.

(** The transform is one translation of the whole list, by the shift
    [originShift] computes from the bounding box. *)
Lemma applyOriginTransform_translate moves op td r operation ct fb :
  exists sx sy,
    applyOriginTransform moves op td r operation ct fb =
      map (translate sx sy (zShift op td)) moves /\
    (moves <> [] ->
     originShift (boundingBox moves) (xyOrigin op) r operation ct fb = Some (sx, sy)).
Proof.
  unfold applyOriginTransform, zShift.
  destruct (originShift _ _ _ _ _ _) as [[sx sy] |] eqn:E.
  - exists sx, sy. split; [| reflexivity]. apply map_ext. intros m. apply shiftMove_translate.
  - exists 0, 0.
    assert (Hb : boundingBox moves = None).
    { unfold originShift in E.
      destruct operation, fb as [fb |], (xyOrigin op), (boundingBox moves) as [[[[? ?] ?] ?] |], ct;
        simpl in E; try discriminate; reflexivity. }
    apply boundingBox_none in Hb. subst moves. split; [reflexivity | contradiction].
Qed.

(** C10.  [applyOriginTransform] adds one pair [(shiftX, shiftY)] and one Z
    shift ([totalDepth] when the Z origin is the stock bottom, plus the user
    [zOffset]) to every move of the list; so the list keeps its length, every
    move keeps its type, and the coordinate differences between any two moves
    are unchanged. *)
Theorem applyOriginTransform_uniform (moves : list Move) (originParams : OriginParams)
  (totalDepth toolRadius : R) (operation : OperationType) (contourType : ContourType)
  (facingBounds : option FacingBounds) :
  let out := applyOriginTransform moves originParams totalDepth toolRadius operation
               contourType facingBounds in
  let shiftZ := (match zOrigin originParams with
                 | STOCK_BOTTOM => totalDepth
                 | STOCK_TOP => 0
                 end) + zOffset originParams in
  exists shiftX shiftY,
    (moves <> [] ->
     originShift (boundingBox moves) (xyOrigin originParams) toolRadius operation
       contourType facingBounds = Some (shiftX, shiftY)) /\
    out = map (translate shiftX shiftY shiftZ) moves /\
    length out = length moves /\
    (forall i, (i < length moves)%nat ->
       x (nthM out i) = x (nthM moves i) + shiftX /\
       y (nthM out i) = y (nthM moves i) + shiftY /\
       z (nthM out i) = z (nthM moves i) + shiftZ /\
       type (nthM out i) = type (nthM moves i)) /\
    (forall i j, (i < length moves)%nat -> (j < length moves)%nat ->
       x (nthM out i) - x (nthM out j) = x (nthM moves i) - x (nthM moves j) /\
       y (nthM out i) - y (nthM out j) = y (nthM moves i) - y (nthM moves j) /\
       z (nthM out i) - z (nthM out j) = z (nthM moves i) - z (nthM moves j)).
Proof.
  intros out shiftZ.
  destruct (applyOriginTransform_translate moves originParams totalDepth toolRadius
              operation contourType facingBounds) as (sx & sy & Heq & Hshift).
  assert (Hz : zShift originParams totalDepth = shiftZ).
  { unfold zShift, shiftZ. destruct (zOrigin originParams); ring. }
  rewrite Hz in Heq. fold out in Heq.
  assert (Hnth : forall i, (i < length moves)%nat ->
            nthM out i = translate sx sy shiftZ (nthM moves i)).
  { intros i Hi. rewrite Heq. unfold nthM.
    rewrite (nth_indep _ _ (translate sx sy shiftZ (mkMove 0 0 0 rapid)))
      by (rewrite length_map; assumption).
    apply map_nth. }
  exists sx, sy. split; [exact Hshift |]. split; [exact Heq |].
  split; [rewrite Heq; apply length_map |].
  split.
  - intros i Hi. rewrite (Hnth i Hi). simpl. repeat split; reflexivity.
  - intros i j Hi Hj. rewrite (Hnth i Hi), (Hnth j Hj). simpl. repeat split; ring.
Qed.

End ToolpathFacts.

(** ** Pockets as wide as the tool *)

Module GenerateFacts.
Import Js JsFacts Toolpath Generate.

Lemma lastMove_app_single moves m : lastMove (moves ++ [m]) = Some m.
Proof.
  unfold lastMove. destruct (moves ++ [m]) eqn:E.
  - destruct moves; discriminate.
  - rewrite <- E. f_equal. apply last_last.
Qed.

Lemma lastMove_drillCycle pre cx cy safeZ leadIn d :
  lastMove (pre ++ drillCycle cx cy safeZ leadIn d) = Some (mkMove cx cy d cut).
Proof.
  unfold drillCycle.
  change ([mkMove cx cy 0 cut; mkMove cx cy d cut])
    with ([mkMove cx cy 0 cut] ++ [mkMove cx cy d cut]).
  rewrite !app_assoc. apply lastMove_app_single.
Qed.

Lemma addLayerForPoint_first d c safeZ :
  addLayerForPoint [] Geometry.origin d c safeZ = drillCycle 0 0 safeZ (leadInAboveOf c) d.
Proof.
  unfold addLayerForPoint, drillCycle, retractIfBelow. cbn [lastMove Geometry.x Geometry.y Geometry.origin app].
  destruct (gtb safeZ (leadInAboveOf c)); reflexivity.
Qed.

Lemma addLayerForPoint_next moves l d c safeZ :
  lastMove moves = Some l -> x l = 0 -> y l = 0 -> z l <= 0 -> / 1000000 < safeZ ->
  addLayerForPoint moves Geometry.origin d c safeZ =
  moves ++ mkMove 0 0 safeZ rapid :: drillCycle 0 0 safeZ (leadInAboveOf c) d.
Proof.
  intros Hl Hx Hy Hz Hs.
  unfold addLayerForPoint, drillCycle, retractIfBelow. rewrite Hl.
  rewrite ltb_true by lra. rewrite Hx, Hy.
  cbn [Geometry.x Geometry.y Geometry.origin].
  destruct (gtb safeZ (leadInAboveOf c)); rewrite <- ?app_assoc; reflexivity.
Qed.

Lemma fold_addLayerForPoint c safeZ rest : forall moves l,
  / 1000000 < safeZ ->
  Forall (fun d => d <= 0) rest ->
  lastMove moves = Some l -> x l = 0 -> y l = 0 -> z l <= 0 ->
  let out := fold_left (fun moves depthZ => addLayerForPoint moves Geometry.origin depthZ c safeZ)
               rest moves in
  out = moves ++ flat_map (fun d => mkMove 0 0 safeZ rapid ::
                             drillCycle 0 0 safeZ (leadInAboveOf c) d) rest /\
  exists l', lastMove out = Some l' /\ x l' = 0 /\ y l' = 0 /\ z l' <= 0.
Proof.
  induction rest as [| d rest IH]; intros moves l Hs Hall Hl Hx Hy Hz; cbn [fold_left flat_map].
  - rewrite app_nil_r. split; [reflexivity |]. exists l. auto.
  - inversion Hall as [| ? ? Hd Hrest]; subst.
    rewrite (addLayerForPoint_next moves l d c safeZ Hl Hx Hy Hz Hs).
    edestruct (IH (moves ++ mkMove 0 0 safeZ rapid :: drillCycle 0 0 safeZ (leadInAboveOf c) d)
                  (mkMove 0 0 d cut)) as (Heq & Hlast); try eassumption; try reflexivity.
    + change (mkMove 0 0 safeZ rapid :: drillCycle 0 0 safeZ (leadInAboveOf c) d)
        with ([mkMove 0 0 safeZ rapid] ++ drillCycle 0 0 safeZ (leadInAboveOf c) d).
      rewrite app_assoc. apply lastMove_drillCycle.
    + split; [| exact Hlast]. cbv zeta in Heq. rewrite Heq.
      rewrite <- app_assoc. reflexivity.
Qed.

Lemma finalRetractPocket_center moves l safeZ :
  lastMove moves = Some l -> x l = 0 -> y l = 0 -> z l <= 0 -> / 1000000 < safeZ ->
  finalRetractPocket moves safeZ = moves ++ [mkMove 0 0 safeZ rapid].
Proof.
  intros Hl Hx Hy Hz Hs. unfold finalRetractPocket. rewrite Hl.
  rewrite ltb_true by lra. rewrite Hx, Hy.
  replace (hypot (0 - 0) (0 - 0)) with 0 by (symmetry; apply hypot_eq; lra).
  unfold gtb. rewrite (ltb_false (/ 1000000) 0) by lra. reflexivity.
Qed.

(** The moves before the origin transform are the drill cycles at (0, 0). *)
Lemma drill_moves_before_transform c :
  / 1000000 < safeHeight c ->
  finalRetractPocket
    (fold_left (fun moves depthZ => addLayerForPoint moves Geometry.origin depthZ c (safeHeight c))
       (Depth.computeDepthLevels (totalDepth c) (stepdown c)) [])
    (safeHeight c) =
  drillCycles 0 0 (safeHeight c) (leadInAboveOf c)
    (Depth.computeDepthLevels (totalDepth c) (stepdown c)).
Proof.
  intros Hs.
  destruct (DepthFacts.computeDepthLevels_nonpos (totalDepth c) (stepdown c)) as [Hne Hall].
  destruct (Depth.computeDepthLevels (totalDepth c) (stepdown c)) as [| d rest];
    [contradiction |].
  inversion Hall as [| ? ? Hd Hrest]; subst.
  cbn [fold_left]. rewrite addLayerForPoint_first.
  destruct (fold_addLayerForPoint c (safeHeight c) rest
              (drillCycle 0 0 (safeHeight c) (leadInAboveOf c) d) (mkMove 0 0 d cut))
    as (Heq & l' & Hl' & Hx & Hy & Hz); try assumption; try reflexivity.
  { apply (lastMove_drillCycle []). }
  cbv zeta in Heq, Hl'.
  rewrite (finalRetractPocket_center _ l' _ Hl' Hx Hy Hz Hs).
  rewrite Heq. unfold drillCycles. rewrite <- app_assoc. reflexivity.
Qed.

Lemma drillCycles_center cx cy safeZ leadIn depths :
  Forall (fun m => x m = cx /\ y m = cy) (drillCycles cx cy safeZ leadIn depths).
Proof.
  assert (Hc : forall d, Forall (fun m => x m = cx /\ y m = cy) (drillCycle cx cy safeZ leadIn d)).
  { intros d. unfold drillCycle. destruct (gtb safeZ leadIn); repeat constructor. }
  destruct depths as [| d rest]; [constructor |].
  unfold drillCycles. apply Forall_app. split; [apply Hc |].
  apply Forall_app. split; [| repeat constructor].
  induction rest as [| d' rest IH]; [constructor |].
  cbn [flat_map]. constructor; [split; reflexivity |].
  apply Forall_app. split; [apply Hc | apply IH].
Qed.

Lemma drillCycle_center cx cy safeZ leadIn d :
  Forall (fun m => x m = cx /\ y m = cy) (drillCycle cx cy safeZ leadIn d).
Proof. unfold drillCycle. destruct (gtb safeZ leadIn); repeat constructor. Qed.

Lemma retractAt_center b cx cy safeZ :
  Forall (fun m => x m = cx /\ y m = cy) (retractAt b cx cy safeZ).
Proof. destruct b; repeat constructor. Qed.

Lemma drillLevels_center cx cy safeZ leadIn levels :
  Forall (fun m => x m = cx /\ y m = cy) (drillLevels cx cy safeZ leadIn levels).
Proof.
  induction levels as [| l levels IH]; [constructor |].
  unfold drillLevels. cbn [flat_map]. rewrite !Forall_app.
  repeat split; [apply retractAt_center | apply drillCycle_center | exact IH].
Qed.

(** One level at the centre: an optional retract and the drill cycle. *)
Lemma addLayerForPoint_centre moves d c safeZ :
  ends_at_centre moves ->
  exists b, addLayerForPoint moves Geometry.origin d c safeZ =
            moves ++ retractAt b 0 0 safeZ ++ drillCycle 0 0 safeZ (leadInAboveOf c) d.
Proof.
  unfold ends_at_centre, addLayerForPoint, retractIfBelow, drillCycle.
  cbn [Geometry.x Geometry.y Geometry.origin].
  destruct (lastMove moves) as [l |].
  - intros [Hx Hy]. rewrite Hx, Hy.
    destruct (ltb (z l) (safeZ - / 1000000)); [exists true | exists false];
      cbn [retractAt app]; destruct (gtb safeZ (leadInAboveOf c));
      rewrite <- ?app_assoc; reflexivity.
  - intros _. exists false. cbn [retractAt app].
    destruct (gtb safeZ (leadInAboveOf c)); rewrite <- ?app_assoc; reflexivity.
Qed.

Lemma ends_at_centre_drillCycle pre safeZ leadIn d :
  ends_at_centre (pre ++ drillCycle 0 0 safeZ leadIn d).
Proof. unfold ends_at_centre. rewrite lastMove_drillCycle. split; reflexivity. Qed.

Lemma fold_addLayerForPoint_centre c safeZ rest : forall moves,
  ends_at_centre moves ->
  let out := fold_left (fun moves depthZ => addLayerForPoint moves Geometry.origin depthZ c safeZ)
               rest moves in
  ends_at_centre out /\
  exists flags, length flags = length rest /\
    out = moves ++ drillLevels 0 0 safeZ (leadInAboveOf c) (combine flags rest).
Proof.
  induction rest as [| d rest IH]; intros moves Hc; cbn [fold_left].
  - split; [assumption |]. exists []. split; [reflexivity |]. cbn. now rewrite app_nil_r.
  - destruct (addLayerForPoint_centre moves d c safeZ Hc) as (b & Hadd).
    rewrite Hadd.
    destruct (IH (moves ++ retractAt b 0 0 safeZ ++ drillCycle 0 0 safeZ (leadInAboveOf c) d))
      as (Hend & flags & Hlen & Heq).
    { rewrite app_assoc. apply ends_at_centre_drillCycle. }
    split; [exact Hend |]. exists (b :: flags). split; [simpl; lia |].
    cbv zeta in Heq. rewrite Heq. unfold drillLevels. cbn [combine flat_map fst snd].
    rewrite <- !app_assoc. reflexivity.
Qed.

Lemma finalRetractPocket_centre moves safeZ :
  ends_at_centre moves ->
  exists b, finalRetractPocket moves safeZ = moves ++ retractAt b 0 0 safeZ.
Proof.
  unfold ends_at_centre, finalRetractPocket. destruct (lastMove moves) as [l |].
  - intros [Hx Hy]. rewrite Hx, Hy.
    destruct (ltb (z l) (safeZ - / 1000000)).
    + replace (hypot (0 - 0) (0 - 0)) with 0 by (symmetry; apply hypot_eq; lra).
      unfold gtb. rewrite (ltb_false (/ 1000000) 0) by lra. now exists true.
    + exists false. cbn. now rewrite app_nil_r.
  - intros _. exists false. cbn. now rewrite app_nil_r.
Qed.

(** C7.  For a pocket on a circle, ellipse or square whose minimum size
    equals the tool diameter within 1e-6, the path is the single point at the
    feature centre and the toolpath is, depth level by depth level, a
    vertical drill there: (after a rapid retract to safe height when the tool
    is below it) rapid to the point at safe height, rapid down to the lead-in
    height when the safe height exceeds it, cut to Z = 0, cut to the layer
    depth; every move has the X and Y of the centre, so no cut moves
    sideways.  For a safe height above 1e-6 the retract occurs before every
    level but the first and once at the end.  The stepdown is positive, as
    [validateInputs] requires: at a stepdown of 0 the loop of
    [computeDepthLevels] has no finite number of layers to run through. *)
Theorem generateToolpath_equal_to_tool_drills (p : Params) :
  operation p = POCKET ->
  shape p = CIRCLE \/ shape p = ELLIPSE \/ shape p = SQUARE ->
  (exists minSize, getShapeMinSize (shape p) (shapeParams p) = Some minSize /\
                   Rabs (minSize - toolDiameter (cutParams p)) <= / 1000000) ->
  0 < stepdown (cutParams p) ->
  let c := cutParams p in
  let depths := Depth.computeDepthLevels (totalDepth c) (stepdown c) in
  let shiftZ := zShift (originParams p) (totalDepth c) in
  exists cx cy flags final moves,
    generateToolpath p = Some moves /\
    length flags = length depths /\
    moves = map (translate cx cy shiftZ)
              (drillLevels 0 0 (safeHeight c) (leadInAboveOf c) (combine flags depths)
               ++ retractAt final 0 0 (safeHeight c)) /\
    Forall (fun m => x m = cx /\ y m = cy) moves /\
    (/ 1000000 < safeHeight c ->
     moves = map (translate cx cy shiftZ)
               (drillCycles 0 0 (safeHeight c) (leadInAboveOf c) depths)).
Proof.
  intros Hop Hshape (minSize & Hmin & Heq) _ c depths shiftZ.
  assert (Hequal : equalToToolDiameter p = true).
  { unfold equalToToolDiameter. rewrite Hmin. apply leb_true. exact Heq. }
  set (pre := finalRetractPocket
                (fold_left (fun moves depthZ =>
                              addLayerForPoint moves Geometry.origin depthZ c (safeHeight c))
                   depths []) (safeHeight c)).
  assert (Hgen : generateToolpath p =
            Some (applyOriginTransform pre (originParams p) (totalDepth c)
                    (toolDiameter c / 2) POCKET (contourType p) None)).
  { unfold generateToolpath. rewrite Hop, Hequal. fold c depths pre.
    destruct Hshape as [-> | [-> | ->]]; reflexivity. }
  destruct (fold_addLayerForPoint_centre c (safeHeight c) depths [] I)
    as (Hend & flags & Hlen & Hfold).
  cbv zeta in Hend, Hfold. cbn [app] in Hfold.
  destruct (finalRetractPocket_centre _ (safeHeight c) Hend) as (final & Hfinal).
  fold pre in Hfinal. rewrite Hfold in Hfinal.
  destruct (ToolpathFacts.applyOriginTransform_translate pre
              (originParams p) (totalDepth c) (toolDiameter c / 2) POCKET (contourType p) None)
    as (sx & sy & Htr & _).
  fold shiftZ in Htr.
  exists sx, sy, flags, final. eexists. split; [exact Hgen |].
  split; [exact Hlen |]. split; [rewrite Htr, Hfinal; reflexivity |].
  split.
  - rewrite Htr, Hfinal. apply Forall_forall. intros m Hm.
    apply in_map_iff in Hm as (m0 & <- & Hm0).
    assert (Hall : Forall (fun m => x m = 0 /\ y m = 0)
              (drillLevels 0 0 (safeHeight c) (leadInAboveOf c) (combine flags depths)
               ++ retractAt final 0 0 (safeHeight c))).
    { apply Forall_app. split; [apply drillLevels_center | apply retractAt_center]. }
    rewrite Forall_forall in Hall. destruct (Hall m0 Hm0) as [Hx Hy].
    unfold translate. cbn [x y]. rewrite Hx, Hy. split; ring.
  - intros Hs. rewrite Htr. f_equal. unfold pre. apply drill_moves_before_transform. exact Hs.
Qed.

(** A circle of diameter 6 pocketed with a 6 mm tool, 5 mm deep in steps of
    2.5 mm, safe height 10, origin at the bottom-left corner. *)
Lemma generateToolpath_equal_to_tool_drills_witness :
  let p := mkParams CIRCLE POCKET (mkShapeParams 6 0 0 0 0 0 0 0 0)
             (mkCutParams 6 5 (5 / 2) 10 None) (mkOrigin BOTTOM_LEFT STOCK_TOP 0) inside in
  let c := cutParams p in
  let depths := Depth.computeDepthLevels (totalDepth c) (stepdown c) in
  let shiftZ := zShift (originParams p) (totalDepth c) in
  exists cx cy flags final moves,
    generateToolpath p = Some moves /\
    length flags = length depths /\
    moves = map (translate cx cy shiftZ)
              (drillLevels 0 0 (safeHeight c) (leadInAboveOf c) (combine flags depths)
               ++ retractAt final 0 0 (safeHeight c)) /\
    Forall (fun m => x m = cx /\ y m = cy) moves /\
    (/ 1000000 < safeHeight c ->
     moves = map (translate cx cy shiftZ)
               (drillCycles 0 0 (safeHeight c) (leadInAboveOf c) depths)).
Proof.
  apply (generateToolpath_equal_to_tool_drills
           (mkParams CIRCLE POCKET (mkShapeParams 6 0 0 0 0 0 0 0 0)
              (mkCutParams 6 5 (5 / 2) 10 None) (mkOrigin BOTTOM_LEFT STOCK_TOP 0) inside)).
  - reflexivity.
  - left. reflexivity.
  - exists 6. split; [reflexivity |]. cbn.
    replace (6 - 6) with 0 by lra. rewrite Rabs_R0. lra.
  - cbn. lra.
Defined.

End GenerateFacts.

(** ** Tabs *)

Module TabsFacts.
Import Js JsFacts Geometry Tabs.

Lemma hypot_zero a b : hypot a b <= 0 -> a = 0 /\ b = 0.
Proof.
  intros H. pose proof (hypot_sqr a b) as Hs. pose proof (hypot_nonneg a b) as Hn.
  assert (H0 : hypot a b = 0) by lra. rewrite H0 in Hs. split; nra.
Qed.

Lemma distance2D_nonneg a b : 0 <= distance2D a b.
Proof. apply hypot_nonneg. Qed.

Lemma lengthStep_fold path idxs : forall acc,
  snd acc <= snd (fold_left (lengthStep path) idxs acc) /\
  (snd (fold_left (lengthStep path) idxs acc) <= snd acc ->
   forall i, In i idxs -> distance2D (nthP path (i - 1)) (nthP path i) <= 0).
Proof.
  induction idxs as [| j idxs IH]; intros acc; cbn [fold_left].
  - split; [lra | intros _ i []].
  - destruct (IH (lengthStep path acc j)) as [Hge Hz].
    pose proof (distance2D_nonneg (nthP path (j - 1)) (nthP path j)) as Hd.
    assert (Ha : snd (lengthStep path acc j) =
                 snd acc + distance2D (nthP path (j - 1)) (nthP path j)) by reflexivity.
    set (acc' := lengthStep path acc j) in *.
    split; [lra |]. intros Hle i [<- | Hi].
    + lra.
    + apply Hz; [lra | assumption].
Qed.

(** A path of positive closed length has positive open length: when every
    segment is degenerate the closing segment is degenerate too. *)
Lemma closedLength_pos path :
  0 < closedLength path -> 0 < snd (pathLengths path) /\ (2 <= length path)%nat.
Proof.
  unfold closedLength, closingLength, pathLengths. intros HL.
  destruct (lengthStep_fold path (seq 1 (length path - 1)) ([0], 0)) as [Hge Hz].
  cbn [snd] in Hge, Hz.
  destruct (Nat.leb_spec 2 (length path)) as [Hlen | Hlen].
  2:{ exfalso. replace (length path - 1)%nat with 0%nat in HL by lia.
      cbn in HL. lra. }
  split; [| assumption].
  destruct (Rlt_dec 0 (snd (fold_left (lengthStep path) (seq 1 (length path - 1)) ([0], 0))))
    as [| Hn]; [assumption | exfalso].
  assert (Hall : forall i, (i < length path)%nat ->
            x (nthP path i) = x (nthP path 0) /\ y (nthP path i) = y (nthP path 0)).
  { induction i as [| i IHi]; intros Hi; [split; reflexivity |].
    destruct (IHi ltac:(lia)) as [Hx Hy].
    assert (Hd : distance2D (nthP path (S i - 1)) (nthP path (S i)) <= 0).
    { apply Hz; [lra | apply in_seq; lia]. }
    replace (S i - 1)%nat with i in Hd by lia.
    apply hypot_zero in Hd as [Hdx Hdy]. split; lra. }
  destruct (Hall (length path - 1)%nat ltac:(lia)) as [Hx Hy].
  assert (Hc : distance2D (nthP path (length path - 1)) (nthP path 0) = 0).
  { unfold distance2D. apply hypot_eq; [lra |]. rewrite Hx, Hy. ring. }
  rewrite Hc in HL. lra.
Qed.

Lemma tabCount_pos L interval : (1 <= tabCount L interval)%Z.
Proof. unfold tabCount. lia. Qed.

Lemma INR_tabCount L interval :
  INR (Z.to_nat (tabCount L interval)) = IZR (tabCount L interval).
Proof. rewrite INR_IZR_INZ, Z2Nat.id; [reflexivity |]. pose proof (tabCount_pos L interval). lia. Qed.

(** Every tab centre lies strictly inside the path. *)
Lemma tabCenter_bounds L n i :
  0 < L -> (i < n)%nat -> 0 < tabCenter (L / INR n) i < L.
Proof.
  intros HL Hi. unfold tabCenter.
  assert (Hn : 0 < INR n) by (apply lt_0_INR; lia).
  assert (Hi0 : 0 <= INR i) by apply pos_INR.
  assert (Hin : INR i + 1 <= INR n).
  { rewrite <- S_INR. apply le_INR. lia. }
  assert (Hsp : 0 < L / INR n) by (apply Rdiv_lt_0_compat; assumption).
  split; [nra |].
  replace L with (INR n * (L / INR n)) at 2 by (field; lra). nra.
Qed.

Lemma rangeStep_fold L sp hw idxs : forall acc,
  (forall i, In i idxs ->
     Rmax 0 (tabCenter sp i - hw) < Rmin L (tabCenter sp i + hw)) ->
  fold_left (rangeStep L sp hw) idxs acc =
  acc ++ map (fun i => mkRange (Rmax 0 (tabCenter sp i - hw)) (Rmin L (tabCenter sp i + hw)))
           idxs.
Proof.
  induction idxs as [| j idxs IH]; intros acc H; cbn [fold_left map].
  - now rewrite app_nil_r.
  - rewrite IH by (intros i Hi; apply H; now right).
    unfold rangeStep, gtb. rewrite ltb_true by (apply H; now left).
    rewrite <- app_assoc. reflexivity.
Qed.

Lemma range_nonempty L c hw :
  0 < c < L -> 0 < hw -> Rmax 0 (c - hw) < Rmin L (c + hw).
Proof.
  intros Hc Hw. unfold Rmax, Rmin.
  destruct (Rle_dec 0 (c - hw)), (Rle_dec L (c + hw)); lra.
Qed.

Lemma tabLoop_outside s dz tz rl rs : outside_all s rs -> tabLoop s dz tz rl rs = dz.
Proof.
  induction 1 as [| r rs Hr _ IH]; cbn [tabLoop]; [reflexivity |].
  unfold gtb. destruct Hr as [Hr | Hr].
  - rewrite (ltb_true s (start r)) by assumption. exact IH.
  - rewrite (ltb_true (end_ r) s) by assumption. rewrite orb_true_r. exact IH.
Qed.

(** [zInRange] on a tab of full width [w] centred at [c]. *)
Lemma zInRange_full c w dz tz s :
  / 1000000000 < w / 4 -> c - w / 2 <= s <= c + w / 2 ->
  tab_profile c w dz tz s (zInRange s dz tz (w / 4) (mkRange (c - w / 2) (c + w / 2))).
Proof.
  intros Hw Hs. unfold zInRange. cbn [start end_].
  assert (Hmin : Rmin (w / 4) ((c + w / 2 - (c - w / 2)) / 2) = w / 4).
  { unfold Rmin. destruct (Rle_dec _ _); lra. }
  rewrite Hmin. rewrite leb_false by lra. unfold geb.
  unfold tab_profile. repeat split; intros Hin.
  - rewrite leb_true by lra. f_equal.
  - destruct (Rle_dec s (c - w / 2 + w / 4)) as [Hle | Hgt].
    + rewrite leb_true by assumption.
      assert (Hse : s = c - w / 4) by lra. subst s. field. lra.
    + rewrite leb_false by lra.
      destruct (Rle_dec (c + w / 2 - w / 4) s) as [Hge | Hlt].
      * rewrite leb_true by assumption.
        assert (Hse : s = c + w / 4) by lra. subst s. field. lra.
      * rewrite leb_false by lra. reflexivity.
  - rewrite leb_false by lra. rewrite leb_true by lra.
    replace (c + w / 2 - w / 4) with (c + w / 4) by lra. reflexivity.
Qed.

Lemma zInRange_at_end c w dz tz :
  / 1000000000 < w / 4 ->
  zInRange (c + w / 2) dz tz (w / 4) (mkRange (c - w / 2) (c + w / 2)) = dz.
Proof.
  intros Hw.
  destruct (zInRange_full c w dz tz (c + w / 2) Hw ltac:(lra)) as (_ & _ & H).
  rewrite H by lra. field. lra.
Qed.

Lemma zInRange_at_start c w dz tz :
  / 1000000000 < w / 4 ->
  zInRange (c - w / 2) dz tz (w / 4) (mkRange (c - w / 2) (c + w / 2)) = dz.
Proof.
  intros Hw.
  destruct (zInRange_full c w dz tz (c - w / 2) Hw ltac:(lra)) as (H & _ & _).
  rewrite H by lra. field. lra.
Qed.

Lemma tabCenter_step sp i j : 0 <= sp -> (i < j)%nat ->
  tabCenter sp i + sp <= tabCenter sp j.
Proof.
  intros Hsp Hij. unfold tabCenter.
  assert (INR i + 1 <= INR j) by (rewrite <- S_INR; apply le_INR; lia). nra.
Qed.

(** On tabs that neither overlap nor get clipped, the loop returns the value
    of the tab that contains [s]. *)
Lemma tabLoop_full sp w dz tz s k : forall a i,
  / 1000000000 < w / 4 -> w <= sp ->
  (a <= i < a + k)%nat ->
  tabCenter sp i - w / 2 <= s <= tabCenter sp i + w / 2 ->
  tabLoop s dz tz (w / 4)
    (map (fun j => mkRange (tabCenter sp j - w / 2) (tabCenter sp j + w / 2)) (seq a k)) =
  zInRange s dz tz (w / 4) (mkRange (tabCenter sp i - w / 2) (tabCenter sp i + w / 2)).
Proof.
  induction k as [| k IH]; intros a i Hw Hsp Hi Hs; [lia |].
  cbn [seq map tabLoop start end_]. unfold gtb.
  destruct (Nat.eq_dec i a) as [-> | Hne].
  - rewrite ltb_false, ltb_false by lra. reflexivity.
  - assert (Hstep : tabCenter sp a + sp <= tabCenter sp i)
      by (apply tabCenter_step; [lra | lia]).
    destruct (Rlt_dec (tabCenter sp a + w / 2) s) as [Hgt | Hle].
    + rewrite (ltb_true (tabCenter sp a + w / 2) s) by assumption.
      rewrite orb_true_r. apply IH; try assumption. lia.
    + rewrite ltb_false, ltb_false by lra. cbn [orb].
      assert (Hs1 : s = tabCenter sp a + w / 2) by lra.
      assert (Hs2 : s = tabCenter sp i - w / 2) by lra.
      rewrite Hs1 at 1. rewrite zInRange_at_end by assumption.
      rewrite Hs2. rewrite zInRange_at_start by assumption. reflexivity.
Qed.

(** The configuration [buildTabConfig] returns on a path of positive closed
    length and positive tab parameters. *)
Lemma buildTabConfig_some path interval width totalDepth tabHeight :
  0 < interval -> 0 < width -> 0 < tabHeight -> 0 < closedLength path ->
  let L := closedLength path in
  let n := Z.to_nat (tabCount L interval) in
  let sp := L / INR n in
  buildTabConfig path interval width totalDepth tabHeight =
  Some (mkTabConfig true
          (map (fun i => mkRange (Rmax 0 (tabCenter sp i - width / 2))
                                 (Rmin L (tabCenter sp i + width / 2))) (seq 0 n))
          (snd (pathLengths path)) L (fst (pathLengths path))
          (- Rmax 0 (totalDepth - tabHeight)) width).
Proof.
  intros Hi Hw Hh HL L n sp.
  destruct (closedLength_pos path HL) as [Hopen Hlen].
  unfold buildTabConfig.
  destruct (Nat.ltb_spec (length path) 2) as [| _]; [lia |].
  rewrite (leb_false interval 0), (leb_false width 0), (leb_false tabHeight 0) by assumption.
  cbn [orb].
  unfold closedLength in L. destruct (pathLengths path) as [cumDist totalLen] eqn:Epl.
  cbn [fst snd] in *. rewrite (leb_false totalLen 0) by assumption.
  unfold closedLength in HL. rewrite Epl in HL. cbn [snd] in HL.
  fold L. fold n. rewrite <- (INR_tabCount L interval). fold n. fold sp.
  assert (Hn : (1 <= n)%nat).
  { unfold n. pose proof (tabCount_pos L interval). lia. }
  rewrite rangeStep_fold.
  2:{ intros i Hin. apply in_seq in Hin. apply range_nonempty; [| lra].
      apply tabCenter_bounds; [assumption | lia]. }
  cbn [app]. destruct n as [| n']; [lia |]. reflexivity.
Qed.

(** [square10] has open and closed length 40. *)
Lemma square10_lengths :
  pathLengths square10 = ([0; 10; 20; 30; 40], 40) /\ closedLength square10 = 40.
Proof.
  assert (H : pathLengths square10 = ([0; 10; 20; 30; 40], 40)).
  { unfold pathLengths, square10, lengthStep, distance2D.
    cbn [length Nat.sub seq fold_left nthP nth x y fst snd app].
    replace (hypot (0 - 10) (0 - 0)) with 10 by (symmetry; apply hypot_eq; lra).
    replace (hypot (10 - 10) (0 - 10)) with 10 by (symmetry; apply hypot_eq; lra).
    replace (hypot (10 - 0) (10 - 10)) with 10 by (symmetry; apply hypot_eq; lra).
    replace (hypot (0 - 0) (10 - 0)) with 10 by (symmetry; apply hypot_eq; lra).
    repeat (f_equal; try lra). }
  split; [exact H |].
  unfold closedLength, closingLength. rewrite H.
  unfold square10, distance2D. cbn [length Nat.leb Nat.sub nthP nth x y snd].
  replace (hypot (0 - 0) (0 - 0)) with 0 by (symmetry; apply hypot_eq; lra). lra.
Qed.

Lemma square10_tabCount : tabCount 40 20 = 2%Z.
Proof. unfold tabCount. rewrite (round_eq 2); [reflexivity | lra]. Qed.

(** C8, as stated, fails: on the 10 x 10 square with tabs every 20 mm, 4 mm
    wide and 2 mm high in a 5 mm deep cut, the tabs are [8, 12] and [28, 32]
    with top at Z = -3, and for the layer depth -1 the profile at the centre
    s = 10 of the first tab is -1, not the tab top -3. *)
Lemma tab_profile_not_as_specified :
  0 < 20 /\ 0 < 4 /\ 0 < 2 /\ 2 <= 5 /\
  buildTabConfig square10 20 4 5 2 =
    Some (mkTabConfig true [mkRange 8 12; mkRange 28 32] 40 40 [0; 10; 20; 30; 40] (-3) 4) /\
  getZForTabProfile 10 (-1)
    (Some (mkTabConfig true [mkRange 8 12; mkRange 28 32] 40 40 [0; 10; 20; 30; 40] (-3) 4))
    = -1 /\
  ~ tabs_as_specified square10 20 4 5 2.
Proof.
  destruct square10_lengths as [Hpl HL].
  assert (Hb : buildTabConfig square10 20 4 5 2 =
    Some (mkTabConfig true [mkRange 8 12; mkRange 28 32] 40 40 [0; 10; 20; 30; 40] (-3) 4)).
  { rewrite buildTabConfig_some by (rewrite ?HL; lra).
    rewrite HL, Hpl, square10_tabCount. change (Z.to_nat 2) with 2%nat.
    cbn [fst snd seq map].
    unfold tabCenter. change (INR 2) with 2. change (INR 1) with 1. change (INR 0) with 0.
    rewrite !Rmax_right by lra. rewrite !Rmin_right by lra.
    repeat (f_equal; try lra). }
  assert (Hz : forall tc, Tabs.tabZ tc = -3 -> getZForTabProfile 10 (-1) (Some tc) = -1).
  { intros tc Ht. unfold getZForTabProfile, geb. rewrite Ht.
    rewrite (leb_true (-3 + / 1000000) (-1)) by lra. rewrite orb_true_r. reflexivity. }
  repeat split; try lra; [exact Hb | apply Hz; reflexivity |].
  intros (cfg & Hcfg & Hlen & Htab & Hprof). cbv zeta in Hprof.
  rewrite Hb in Hcfg. inversion Hcfg; subst cfg; clear Hcfg.
  destruct (Hprof 10 (-1)) as [_ Hp].
  rewrite HL, square10_tabCount in Hp.
  specialize (Hp 0%nat ltac:(change (Z.to_nat 2) with 2%nat; lia)).
  destruct Hp as (_ & Hmid & _).
  rewrite Hz in Hmid by reflexivity.
  unfold tabCenter in Hmid. cbn [Tabs.tabZ] in Hmid.
  change (Z.to_nat 2) with 2%nat in Hmid.
  change (INR 2) with 2 in Hmid. change (INR 0) with 0 in Hmid.
  assert (-1 = -3); [apply Hmid; lra | lra].
Qed.

(** C8 (amended).  For a path of positive closed length [L] and positive tab
    parameters with [tabHeight <= totalDepth], [buildTabConfig] creates
    [n = max(1, round(L / interval))] ranges, the i-th one centred at
    [(i + 1/2) * L / n], at most [width] long and clipped to [0, L], with
    [tabZ = -(totalDepth - tabHeight)]; [getZForTabProfile] returns the layer
    depth outside every range; and when the layer reaches the tab top
    ([depthZ < tabZ + 1e-6]), a quarter of the width exceeds 1e-9 and the
    tabs neither overlap nor get clipped ([width <= L / n]), it returns [tabZ]
    over the middle half of each tab and the linear interpolation between
    layer depth and [tabZ] over its first and last quarter. *)
Theorem tab_config_and_profile (path : list Point)
  (interval width totalDepth tabHeight : R) :
  0 < interval -> 0 < width -> 0 < tabHeight -> tabHeight <= totalDepth ->
  0 < closedLength path ->
  let L := closedLength path in
  let n := Z.to_nat (tabCount L interval) in
  let sp := L / INR n in
  exists cfg,
    buildTabConfig path interval width totalDepth tabHeight = Some cfg /\
    ranges cfg =
      map (fun i => mkRange (Rmax 0 (tabCenter sp i - width / 2))
                            (Rmin L (tabCenter sp i + width / 2))) (seq 0 n) /\
    length (ranges cfg) = n /\
    Forall (fun r => 0 <= start r /\ start r < end_ r /\ end_ r <= L /\
                     end_ r - start r <= width) (ranges cfg) /\
    tabZ cfg = - (totalDepth - tabHeight) /\
    (forall s depthZ, outside_all s (ranges cfg) ->
       getZForTabProfile s depthZ (Some cfg) = depthZ) /\
    (forall s depthZ i,
       depthZ < tabZ cfg + / 1000000 -> / 1000000000 < width / 4 -> width <= sp ->
       (i < n)%nat ->
       tab_profile (tabCenter sp i) width depthZ (tabZ cfg) s
         (getZForTabProfile s depthZ (Some cfg))).
Proof.
  intros Hi Hw Hh Hle HL L n sp.
  pose proof (buildTabConfig_some path interval width totalDepth tabHeight Hi Hw Hh HL) as Hb.
  cbv zeta in Hb. fold L n sp in Hb.
  eexists. split; [exact Hb |]. cbn [ranges tabZ tabWidth enabled].
  assert (Hn : (1 <= n)%nat).
  { unfold n. pose proof (tabCount_pos L interval). lia. }
  assert (HnR : 0 < INR n) by (apply lt_0_INR; lia).
  split; [reflexivity |].
  split; [now rewrite length_map, length_seq |].
  split.
  { apply Forall_forall. intros r Hr. apply in_map_iff in Hr as (i & <- & Hin).
    apply in_seq in Hin. cbn [start end_].
    pose proof (tabCenter_bounds L n i HL ltac:(lia)) as Hc. fold sp in Hc.
    unfold Rmax, Rmin.
    destruct (Rle_dec 0 (tabCenter sp i - width / 2)),
             (Rle_dec L (tabCenter sp i + width / 2)); repeat split; lra. }
  split.
  { unfold Rmax. destruct (Rle_dec 0 (totalDepth - tabHeight)); lra. }
  split.
  { intros s depthZ Hout. unfold getZForTabProfile. cbn [ranges tabZ tabWidth enabled].
    destruct (_ || _); [reflexivity |].
    destruct (leb _ _); [reflexivity |]. now apply tabLoop_outside. }
  intros s depthZ i Hdeep Hramp Hfit Hin.
  set (tz := - Rmax 0 (totalDepth - tabHeight)) in *.
  unfold getZForTabProfile. cbn [ranges tabZ tabWidth enabled negb orb].
  unfold geb. rewrite (leb_false (tz + / 1000000) depthZ) by lra.
  replace (25 / 100 * width) with (width / 4) by lra.
  rewrite leb_false by lra.
  assert (Hranges :
    map (fun i => mkRange (Rmax 0 (tabCenter sp i - width / 2))
                          (Rmin L (tabCenter sp i + width / 2))) (seq 0 n) =
    map (fun j => mkRange (tabCenter sp j - width / 2) (tabCenter sp j + width / 2)) (seq 0 n)).
  { apply map_ext_in. intros j Hj. apply in_seq in Hj.
    assert (H0 : tabCenter sp 0 + sp * INR j <= tabCenter sp j)
      by (unfold tabCenter; cbn [INR]; lra).
    assert (Hjn : INR j + 1 <= INR n) by (rewrite <- S_INR; apply le_INR; lia).
    assert (Hj0 : 0 <= INR j) by apply pos_INR.
    assert (Hsp : 0 < sp) by (apply Rdiv_lt_0_compat; assumption).
    assert (HLn : L = INR n * sp) by (unfold sp; field; lra).
    unfold tabCenter in *. cbn [INR] in H0.
    f_equal; [unfold Rmax | unfold Rmin]; destruct (Rle_dec _ _); try reflexivity; nra. }
  rewrite Hranges.
  destruct (Rle_dec (tabCenter sp i - width / 2) s) as [Hlo | Hlo];
    [destruct (Rle_dec s (tabCenter sp i + width / 2)) as [Hhi | Hhi] |].
  - rewrite (tabLoop_full sp width depthZ tz s n 0 i) by (try assumption; try lia; lra).
    apply zInRange_full; [assumption | lra].
  - unfold tab_profile. repeat split; intros; lra.
  - unfold tab_profile. repeat split; intros; lra.
Qed.

(** The amended C8 on the 10 x 10 square with tabs every 20 mm, 4 mm wide,
    2 mm high, total depth 5 mm. *)
Lemma tab_config_and_profile_witness :
  let L := closedLength square10 in
  let n := Z.to_nat (tabCount L 20) in
  let sp := L / INR n in
  exists cfg,
    buildTabConfig square10 20 4 5 2 = Some cfg /\
    ranges cfg =
      map (fun i => mkRange (Rmax 0 (tabCenter sp i - 4 / 2))
                            (Rmin L (tabCenter sp i + 4 / 2))) (seq 0 n) /\
    length (ranges cfg) = n /\
    Forall (fun r => 0 <= start r /\ start r < end_ r /\ end_ r <= L /\
                     end_ r - start r <= 4) (ranges cfg) /\
    tabZ cfg = - (5 - 2) /\
    (forall s depthZ, outside_all s (ranges cfg) ->
       getZForTabProfile s depthZ (Some cfg) = depthZ) /\
    (forall s depthZ i,
       depthZ < tabZ cfg + / 1000000 -> / 1000000000 < 4 / 4 -> 4 <= sp ->
       (i < n)%nat ->
       tab_profile (tabCenter sp i) 4 depthZ (tabZ cfg) s
         (getZForTabProfile s depthZ (Some cfg))).
Proof.
  apply (tab_config_and_profile square10 20 4 5 2); try lra.
  destruct square10_lengths as [_ HL]. rewrite HL. lra.
Defined.

End TabsFacts.

(** ** Spiral pocket of a circle *)

Module SpiralFacts.
Import Js JsFacts Geometry Spiral.

Lemma segmentsForCircleRadius_ge4 radius : (4 <= segmentsForCircleRadius radius)%nat.
Proof.
  unfold segmentsForCircleRadius. destruct (leb radius 0); [lia |].
  set (n := ceil _). lia.
Qed.

Lemma polar_radius r a : 0 <= r -> radiusOf (polar r a) = r.
Proof.
  intros Hr. unfold radiusOf, polar. cbn [x y]. apply hypot_eq; [assumption |].
  pose proof (sin2_cos2 a) as H. unfold Rsqr in H.
  replace (r * cos a * (r * cos a) + r * sin a * (r * sin a))
    with (r * r * (sin a * sin a + cos a * cos a)) by ring.
  rewrite H. ring.
Qed.

Lemma last_map_seq_point (f : nat -> Point) k : forall a d,
  (1 <= k)%nat -> last (map f (seq a k)) d = f (a + k - 1)%nat.
Proof.
  induction k as [| k IH]; intros a d Hk; [lia |].
  destruct k as [| k].
  - simpl. f_equal. lia.
  - change (last (map f (seq a (S (S k)))) d) with (last (map f (seq (S a) (S k))) d).
    rewrite IH by lia. f_equal. lia.
Qed.

Lemma Forall_map_seq (P : Point -> Prop) (f : nat -> Point) a k :
  (forall i, (a <= i < a + k)%nat -> P (f i)) -> Forall P (map f (seq a k)).
Proof.
  intros H. apply Forall_forall. intros p Hp.
  apply in_map_iff in Hp as (i & <- & Hi). apply in_seq in Hi. apply H. lia.
Qed.

Lemma ratio_bounds i n : (i <= n)%nat -> (1 <= n)%nat -> 0 <= INR i / INR n <= 1.
Proof.
  intros Hi Hn. assert (0 < INR n) by (apply lt_0_INR; lia).
  assert (0 <= INR i) by apply pos_INR.
  assert (INR i <= INR n) by (apply le_INR; lia).
  split.
  - apply Rmult_le_pos; [assumption |]. left. now apply Rinv_0_lt_compat.
  - apply (Rmult_le_reg_r (INR n)); [assumption |].
    unfold Rdiv. rewrite Rmult_assoc, Rinv_l by lra. lra.
Qed.

(** The three shapes of the path. *)
Lemma generateSpiralPocketCircle_small diameter stepover toolRadius :
  0 < diameter / 2 - toolRadius -> diameter / 2 - toolRadius < toolRadius ->
  let outer := diameter / 2 - toolRadius in
  let segments := segmentsForCircleRadius (diameter / 2) in
  generateSpiralPocketCircle diameter stepover toolRadius =
  [mkPoint 0 0 0]
  ++ map (fun i => polar (INR i / INR segments * outer) (INR i / INR segments * 2 * PI))
       (seq 1 segments)
  ++ map (fun i => polar outer (2 * PI + INR i / INR segments * 2 * PI)) (seq 1 segments).
Proof.
  intros H1 H2 outer segments. unfold generateSpiralPocketCircle.
  rewrite leb_false, ltb_true by assumption. reflexivity.
Qed.

Lemma generateSpiralPocketCircle_ring diameter stepover toolRadius :
  0 < diameter / 2 - toolRadius -> toolRadius <= diameter / 2 - toolRadius ->
  diameter / 2 - toolRadius - toolRadius <= / 1000000000 ->
  let outer := diameter / 2 - toolRadius in
  let segments := segmentsForCircleRadius (diameter / 2) in
  generateSpiralPocketCircle diameter stepover toolRadius =
  map (fun i => polar outer (INR i / INR segments * 2 * PI)) (seq 0 (S segments)).
Proof.
  intros H1 H2 H3 outer segments. unfold generateSpiralPocketCircle.
  rewrite leb_false, ltb_false, leb_true by assumption. reflexivity.
Qed.

Lemma generateSpiralPocketCircle_spiral diameter stepover toolRadius :
  0 < diameter / 2 - toolRadius ->
  / 1000000000 < diameter / 2 - toolRadius - toolRadius ->
  let outer := diameter / 2 - toolRadius in
  let segments := segmentsForCircleRadius (diameter / 2) in
  let turns := turnsOf (outer - toolRadius) stepover in
  let steps := Z.to_nat (Z.of_nat segments * turns) in
  generateSpiralPocketCircle diameter stepover toolRadius =
  map (fun i => polar toolRadius (INR i / INR segments * 2 * PI)) (seq 0 (S segments))
  ++ map (fun i => polar (toolRadius + (outer - toolRadius) * INR i / INR steps)
                     (INR i / INR steps * (IZR turns * 2 * PI))) (seq 1 steps)
  ++ map (fun i => polar outer (IZR turns * 2 * PI + INR i / INR segments * 2 * PI))
       (seq 1 segments).
Proof.
  intros H1 H2 outer segments turns steps. unfold generateSpiralPocketCircle.
  rewrite leb_false, ltb_false, leb_false by lra.
  fold outer segments turns.
  assert (Hseg : (4 <= segments)%nat) by apply segmentsForCircleRadius_ge4.
  assert (Hturns : (1 <= turns)%Z) by (unfold turns, turnsOf; lia).
  assert (Hmax : Z.max (Z.of_nat segments * turns) 1 = (Z.of_nat segments * turns)%Z) by nia.
  rewrite Hmax. fold steps.
  assert (Hsteps : IZR (Z.of_nat segments * turns) = INR steps).
  { unfold steps. rewrite INR_IZR_INZ, Z2Nat.id by nia. reflexivity. }
  rewrite Hsteps. reflexivity.
Qed.

Lemma origin_radius : radiusOf (mkPoint 0 0 0) = 0.
Proof. unfold radiusOf. cbn [x y]. apply hypot_eq; lra. Qed.

Lemma ring_radius rad base segments :
  0 <= rad ->
  Forall (fun p => radiusOf p = rad)
    (map (fun i => polar rad (base + INR i / INR segments * 2 * PI)) (seq 1 segments)).
Proof. intros Hr. apply Forall_map_seq. intros i _. now apply polar_radius. Qed.

Lemma Forall_eq_le (rad : R) (l : list Point) :
  Forall (fun p => radiusOf p = rad) l -> Forall (fun p => radiusOf p <= rad) l.
Proof. apply Forall_impl. intros p Hp. lra. Qed.

Lemma ratio_one n : (1 <= n)%nat -> INR n / INR n = 1.
Proof.
  intros Hn. assert (0 < INR n) by (apply lt_0_INR; lia). field. lra.
Qed.

Lemma polar_ext r1 r2 a1 a2 : r1 = r2 -> a1 = a2 -> polar r1 a1 = polar r2 a2.
Proof. now intros -> ->. Qed.

Lemma last_app_nonempty (l1 l2 : list Point) d : l2 <> [] -> last (l1 ++ l2) d = last l2 d.
Proof.
  intros Hne. destruct (exists_last Hne) as (l & a & ->).
  rewrite app_assoc, !last_last. reflexivity.
Qed.

Lemma map_seq_nonempty (f : nat -> Point) a k : (1 <= k)%nat -> map f (seq a k) <> [].
Proof. destruct k; [lia | discriminate]. Qed.

(** One full turn from the angle 0 ends at the point of angle 0. *)
Lemma polar_full_turn r : polar r (1 * 2 * PI) = polar r 0.
Proof.
  unfold polar. replace (1 * 2 * PI) with (2 * PI) by ring.
  rewrite cos_2PI, sin_2PI, cos_0, sin_0. reflexivity.
Qed.

(** The number of steps of the spiral: [segments] for each turn. *)
Lemma spiral_steps segments turns :
  (1 <= turns)%Z ->
  Z.to_nat (Z.of_nat segments * turns) = (segments * Z.to_nat turns)%nat.
Proof. intros Ht. rewrite Z2Nat.inj_mul, Nat2Z.id by lia. reflexivity. Qed.

Lemma spiral_steps_INR segments turns :
  (1 <= turns)%Z -> INR (segments * Z.to_nat turns) = INR segments * IZR turns.
Proof.
  intros Ht. rewrite mult_INR. f_equal. rewrite INR_IZR_INZ, Z2Nat.id by lia. reflexivity.
Qed.

(** The middle loop of [generateSpiralPocketCircle] advances the angle by
    [2 * PI / segments] at every point. *)
Lemma spiral_loop_sweep r0 r1 turns segments :
  (1 <= segments)%nat -> (1 <= turns)%Z ->
  let steps := Z.to_nat (Z.of_nat segments * turns) in
  map (fun i => polar (r0 + (r1 - r0) * INR i / INR steps)
                  (INR i / INR steps * (IZR turns * 2 * PI))) (seq 1 steps) =
  map (fun i => polar (r0 + (r1 - r0) * INR i / INR (segments * Z.to_nat turns))
                  (INR i * (2 * PI / INR segments))) (seq 1 (segments * Z.to_nat turns)).
Proof.
  intros Hseg Ht steps. unfold steps. rewrite spiral_steps by assumption.
  apply map_ext. intros i. apply polar_ext; [reflexivity |].
  rewrite spiral_steps_INR by assumption.
  assert (0 < INR segments) by (apply lt_0_INR; lia).
  assert (1 <= IZR turns) by (apply IZR_le; assumption).
  field. split; lra.
Qed.

(** C6 (amended).  For a circle pocket with positive tool radius [r] and
    stepover and [D/2 - r > 0], with [n = segmentsForCircleRadius(D/2)]
    points for a turn, the path of [generateSpiralPocketCircle] ends with a
    closing ring of one full turn of [n] points at radius exactly [D/2 - r]
    that starts from the point before it, no point lies farther than
    [D/2 - r] from the centre, and when the radial span [D/2 - r - r] exceeds
    1e-9 the path is a start that ends at radius [r], from there a spiral
    sweeping [max(1, ceil((D/2 - r - r) / s))] full turns of [n] points each
    from radius [r] out to radius [D/2 - r], and the closing ring. *)
Theorem spiral_pocket_ring_and_turns (diameter stepover toolRadius : R) :
  0 < toolRadius -> 0 < stepover -> 0 < diameter / 2 - toolRadius ->
  let outerR := diameter / 2 - toolRadius in
  let path := generateSpiralPocketCircle diameter stepover toolRadius in
  let segments := segmentsForCircleRadius (diameter / 2) in
  ends_with_outer_ring path outerR segments /\
  (/ 1000000000 < outerR - toolRadius ->
   has_connecting_spiral path toolRadius outerR (turnsOf (outerR - toolRadius) stepover)
     segments).
Proof.
  intros Hr Hs Ho outerR path segments.
  assert (HoR : 0 < outerR) by exact Ho.
  assert (Hseg : (4 <= segments)%nat) by apply segmentsForCircleRadius_ge4.
  assert (Hone : INR segments / INR segments = 1) by (apply ratio_one; lia).
  split.
  - destruct (Rlt_dec outerR toolRadius) as [Hsmall | Hbig].
    + (* pocket barely larger than the tool *)
      subst path. rewrite generateSpiralPocketCircle_small by assumption.
      fold outerR segments. split.
      * exists ([mkPoint 0 0 0] ++
                map (fun i => polar (INR i / INR segments * outerR)
                                (INR i / INR segments * 2 * PI)) (seq 1 segments)),
               (map (fun i => polar outerR (2 * PI + INR i / INR segments * 2 * PI))
                  (seq 1 segments)), (2 * PI).
        split; [now rewrite <- app_assoc |].
        split; [discriminate |].
        split.
        { rewrite last_app_nonempty by (apply map_seq_nonempty; lia).
          rewrite last_map_seq_point by lia.
          replace (1 + segments - 1)%nat with segments by lia.
          rewrite Hone. apply polar_ext; ring. }
        split; [split; [lia | reflexivity] |].
        apply ring_radius. lra.
      * apply Forall_app. split; [| apply Forall_app; split].
        -- constructor; [rewrite origin_radius; lra | constructor].
        -- apply Forall_map_seq. intros i Hi.
           pose proof (ratio_bounds i segments ltac:(lia) ltac:(lia)) as Hb.
           rewrite polar_radius by nra. nra.
        -- apply Forall_eq_le, ring_radius. lra.
    + destruct (Rle_dec (outerR - toolRadius) (/ 1000000000)) as [Hflat | Hspan].
      * (* single ring *)
        subst path. rewrite generateSpiralPocketCircle_ring by (unfold outerR in *; lra).
        fold outerR segments.
        assert (Hsplit :
          map (fun i => polar outerR (INR i / INR segments * 2 * PI)) (seq 0 (S segments)) =
          [polar outerR 0] ++
          map (fun i => polar outerR (0 + INR i / INR segments * 2 * PI)) (seq 1 segments)).
        { cbn [seq map app]. f_equal.
          - apply polar_ext; [reflexivity |]. cbn [INR]. unfold Rdiv. ring.
          - apply map_ext. intros i. now rewrite Rplus_0_l. }
        rewrite Hsplit. split.
        -- eexists _, _, 0. split; [reflexivity |].
           split; [discriminate |]. split; [reflexivity |].
           split; [split; [lia | reflexivity] |]. apply ring_radius. lra.
        -- apply Forall_app. split.
           ++ constructor; [rewrite polar_radius; lra | constructor].
           ++ apply Forall_eq_le, ring_radius. lra.
      * (* start ring, spiral, closing ring *)
        subst path. rewrite generateSpiralPocketCircle_spiral by (unfold outerR in *; lra).
        fold outerR segments.
        set (turns := turnsOf (outerR - toolRadius) stepover).
        set (steps := Z.to_nat (Z.of_nat segments * turns)).
        assert (Hturns : (1 <= turns)%Z) by (unfold turns, turnsOf; lia).
        assert (Hst : (1 <= steps)%nat) by (unfold steps; nia).
        split.
        -- eexists (_ ++ _), _, (IZR turns * 2 * PI).
           split; [now rewrite <- app_assoc |].
           split; [discriminate |].
           split.
           { rewrite last_app_nonempty by (apply map_seq_nonempty; lia).
             rewrite last_map_seq_point by lia.
             replace (1 + steps - 1)%nat with steps by lia.
             assert (Hs1 : INR steps / INR steps = 1) by (apply ratio_one; lia).
             apply polar_ext; [| rewrite Hs1; ring].
             replace ((outerR - toolRadius) * INR steps / INR steps)
               with ((outerR - toolRadius) * (INR steps / INR steps))
               by (unfold Rdiv; ring).
             rewrite Hs1. ring. }
           split; [split; [lia | reflexivity] |]. apply ring_radius. lra.
        -- apply Forall_app. split; [| apply Forall_app; split].
           ++ apply Forall_map_seq. intros i _. rewrite polar_radius; lra.
           ++ apply Forall_map_seq. intros i Hi.
              pose proof (ratio_bounds i steps ltac:(lia) Hst) as Hb.
              assert (Heq : toolRadius + (outerR - toolRadius) * INR i / INR steps =
                            toolRadius + (outerR - toolRadius) * (INR i / INR steps))
                by (unfold Rdiv; ring).
              rewrite Heq. rewrite polar_radius by nra. nra.
           ++ apply Forall_eq_le, ring_radius. lra.
  - intros Hspan. subst path. rewrite generateSpiralPocketCircle_spiral by (unfold outerR in *; lra).
    fold outerR segments.
    set (turns := turnsOf (outerR - toolRadius) stepover).
    assert (Hturns : (1 <= turns)%Z) by (unfold turns, turnsOf; lia).
    rewrite spiral_loop_sweep by lia.
    eexists _, _, _. split; [reflexivity |].
    split; [discriminate |].
    split.
    { rewrite last_map_seq_point by lia.
      replace (0 + S segments - 1)%nat with segments by lia.
      rewrite Hone. apply polar_full_turn. }
    split; [split; [lia | split; [assumption | reflexivity]] |].
    split; [lia | reflexivity].
Qed.

(** The amended C6 for diameter 50, stepover 3 and tool radius 3. *)
Lemma spiral_pocket_ring_and_turns_witness :
  let outerR := 50 / 2 - 3 in
  let path := generateSpiralPocketCircle 50 3 3 in
  let segments := segmentsForCircleRadius (50 / 2) in
  ends_with_outer_ring path outerR segments /\
  (/ 1000000000 < outerR - 3 ->
   has_connecting_spiral path 3 outerR (turnsOf (outerR - 3) 3) segments).
Proof. apply (spiral_pocket_ring_and_turns 50 3 3); lra. Defined.

(** C6, as stated, fails: for diameter 4.000000001 and tool radius 1 the outer
    radius 1.0000000005 exceeds the tool radius, yet the path is the single
    ring at the outer radius: no point at radius 1 precedes a spiral. *)
Lemma spiral_pocket_not_as_specified :
  0 < (4 + / 1000000000) / 2 - 1 /\
  1 < (4 + / 1000000000) / 2 - 1 /\
  ~ spiral_pocket_as_specified (4 + / 1000000000) 1 1.
Proof.
  split; [lra |]. split; [lra |].
  intros (segments & _ & Hsp). specialize (Hsp ltac:(lra)).
  destruct Hsp as (pre & spiral & post & Hpath & Hne & Hlast & _).
  rewrite generateSpiralPocketCircle_ring in Hpath by lra.
  set (outer := (4 + / 1000000000) / 2 - 1) in *.
  assert (Hin : In (last pre origin)
                  (map (fun i => polar outer
                     (INR i / INR (segmentsForCircleRadius ((4 + / 1000000000) / 2)) * 2 * PI))
                     (seq 0 (S (segmentsForCircleRadius ((4 + / 1000000000) / 2)))))).
  { rewrite Hpath. apply in_or_app. left.
    destruct (exists_last Hne) as (l & a & ->). rewrite last_last.
    apply in_or_app. right. now left. }
  apply in_map_iff in Hin as (i & Hi & _).
  apply (f_equal radiusOf) in Hlast. rewrite <- Hi in Hlast.
  rewrite !polar_radius in Hlast by (unfold outer; lra).
  unfold outer in Hlast. lra.
Qed.

End SpiralFacts.

(** ** Arc fitting *)

Module ArcFitFacts.
Import Js JsFacts Geometry ArcFit OffsetFacts.

(** The circle through (1, 0), (0, 1), (-1, 0) is the unit circle. *)
Lemma unit_circle_from_three z1 z2 z3 :
  circleFromThreePoints (mkPoint 1 0 z1) (mkPoint 0 1 z2) (mkPoint (-1) 0 z3) =
  Some (mkCircle 0 0 1).
Proof.
  unfold circleFromThreePoints. cbn [x y].
  rewrite ltb_false by abs_lra.
  f_equal.
  assert (Hcx : (1 * 1 + 0 * 0) * (1 - 0) + (0 * 0 + 1 * 1) * (0 - 0) +
                (-1 * -1 + 0 * 0) * (0 - 1) = 0) by lra.
  assert (Hcy : (1 * 1 + 0 * 0) * (-1 - 0) + (0 * 0 + 1 * 1) * (1 - -1) +
                (-1 * -1 + 0 * 0) * (0 - 1) = 0) by lra.
  rewrite Hcx, Hcy.
  replace (0 / (2 * (1 * (1 - 0) + 0 * (0 - 0) + -1 * (0 - 1)))) with 0 by (field; lra).
  f_equal. apply hypot_eq; lra.
Qed.

Lemma intermediateOk_spec points c i j :
  intermediateOk points c i j = true ->
  forall k, (i < k)%nat -> (k < j - 1)%nat ->
    pointToCircleDeviation (x (nthP points k)) (y (nthP points k)) (cx c) (cy c) (r c)
      <= ARC_FIT_TOLERANCE_MM.
Proof.
  unfold intermediateOk. rewrite forallb_forall. intros H k Hk1 Hk2.
  specialize (H k). rewrite in_seq in H. specialize (H ltac:(lia)).
  apply negb_true_iff in H. unfold gtb in H. now apply ltb_nspec in H.
Qed.

(** The search returns its start value or the end of a run that fits. *)
Lemma searchBestJ_spec points i fuel : forall j bestJ,
  (i + 3 <= j)%nat ->
  let b := searchBestJ points i j fuel bestJ in
  b = bestJ \/ exists c, arc_run points i b c.
Proof.
  induction fuel as [| f IH]; intros j bestJ Hj; cbn [searchBestJ]; [now left |].
  destruct (Nat.leb_spec j (length points)) as [Hle |]; [| now left].
  destruct (circleFromThreePoints _ _ _) as [c |] eqn:Ec; [| now left].
  destruct (intermediateOk points c i j) eqn:Eok; [| now left].
  destruct (IH (S j) j ltac:(lia)) as [Heq | Hrun]; [| now right].
  right. cbv zeta in Heq. rewrite Heq. exists c.
  repeat split; try assumption. now apply intermediateOk_spec.
Qed.

(** Every segment [fitLoop] adds is justified. *)
Lemma fitLoop_justified points z0 fuel : forall i result,
  Forall (segment_justified points z0) result ->
  Forall (segment_justified points z0) (fitLoop points z0 i fuel result).
Proof.
  induction fuel as [| f IH]; intros i result Hres; cbn [fitLoop]; [assumption |].
  destruct (Nat.ltb_spec i (length points)) as [Hi |]; [| assumption].
  assert (Hline : Forall (segment_justified points z0) (result ++ [lineTo (nthP points i)])).
  { apply Forall_app. split; [assumption |]. constructor; [| constructor].
    unfold segment_justified, lineTo. cbn [stype]. now exists i. }
  destruct (Nat.leb_spec (length points - 2) i) as [| Hi2]; [now apply IH |].
  destruct (Nat.ltb_spec (i + 2) (searchBestJ points i (i + 3) (length points) (i + 2)))
    as [Hbest |]; [| now apply IH].
  destruct (circleFromThreePoints _ _ _) as [circle |] eqn:Ec; [| now apply IH].
  apply IH. apply Forall_app. split; [assumption |]. constructor; [| constructor].
  destruct (searchBestJ_spec points i (length points) (i + 3) (i + 2) ltac:(lia))
    as [Heq | (c & Hrun)]; [cbv zeta in Heq; lia |].
  cbv zeta in Hrun.
  assert (Hc : c = circle).
  { destruct Hrun as (_ & _ & Hc & _). rewrite Ec in Hc. now inversion Hc. }
  subst c. unfold segment_justified. cbn [stype sx sy sz].
  exists i, (searchBestJ points i (i + 3) (length points) (i + 2)), circle.
  split; [exact Hrun | repeat split; reflexivity].
Qed.

(** [fitArcsToPoints] emits an arc only for a run of at least three points
    that fits one circle within 0.03 mm; every other segment is an input
    point emitted unchanged as a line; fewer than three points are all
    emitted as lines. *)
Lemma fitArcsToPoints_justified points :
  Forall (segment_justified points (z (nthP points 0))) (fitArcsToPoints points) /\
  ((length points < 3)%nat -> fitArcsToPoints points = map lineTo points).
Proof.
  unfold fitArcsToPoints. destruct (Nat.ltb_spec (length points) 3) as [Hlt | Hge].
  - split; [| reflexivity]. apply Forall_forall. intros seg Hseg.
    apply in_map_iff in Hseg as (p & <- & Hp).
    destruct (In_nth _ _ origin Hp) as (k & Hk & Hnth).
    unfold segment_justified, lineTo. cbn [stype]. exists k. split; [assumption |].
    unfold nthP. now rewrite Hnth.
  - split; [| lia]. apply fitLoop_justified. constructor.
Qed.

(** On a run at one Z, every fitted segment ends at an input point, Z
    included. *)
Lemma fitArcsToPoints_same_z points z0 :
  Forall (fun p => z p = z0) points ->
  Forall (fun seg => exists p, In p points /\ sx seg = x p /\ sy seg = y p /\ sz seg = z p)
    (fitArcsToPoints points).
Proof.
  intros Hz. destruct (fitArcsToPoints_justified points) as [Hj _].
  eapply Forall_impl; [| exact Hj]. intros seg Hseg.
  assert (Hin : forall k, (k < length points)%nat -> In (nthP points k) points)
    by (intros k Hk; now apply nth_In).
  rewrite Forall_forall in Hz.
  unfold segment_justified in Hseg. destruct (stype seg) as [| i j cw].
  - destruct Hseg as (k & Hk & ->). exists (nthP points k). cbn [sx sy sz lineTo]. auto.
  - destruct Hseg as (a & b & c & (Hab & Hb & _) & Hx & Hy & Hzs & _).
    exists (nthP points (b - 1)). split; [apply Hin; lia |].
    repeat split; try assumption.
    rewrite Hzs, (Hz (nthP points 0)), (Hz (nthP points (b - 1))) by (apply Hin; lia).
    reflexivity.
Qed.

Lemma half_circle_fit :
  fitArcsToPoints [mkPoint 1 0 0; mkPoint 0 1 (-1); mkPoint (-1) 0 (-2)] =
  [mkSegment (-1) 0 0 (arcTo (-1) 0 false)].
Proof.
  set (pts := [mkPoint 1 0 0; mkPoint 0 1 (-1); mkPoint (-1) 0 (-2)]).
  assert (H0 : nthP pts 0 = mkPoint 1 0 0) by reflexivity.
  assert (H1 : nthP pts 1 = mkPoint 0 1 (-1)) by reflexivity.
  assert (H2 : nthP pts 2 = mkPoint (-1) 0 (-2)) by reflexivity.
  assert (Hok : intermediateOk pts (mkCircle 0 0 1) 0 3 = true).
  { unfold intermediateOk, pointToCircleDeviation, ARC_FIT_TOLERANCE_MM, gtb.
    change (seq (0 + 1) (3 - 1 - (0 + 1))) with [1%nat]. cbn [forallb]. rewrite H1.
    cbn [x y cx cy r].
    replace (hypot (0 - 0) (1 - 0)) with 1 by (symmetry; apply hypot_eq; lra).
    rewrite (ltb_false (3 / 100) (Rabs (1 - 1))) by abs_lra. reflexivity. }
  assert (Hbest : searchBestJ pts 0 (0 + 3) (length pts) (0 + 2) = 3%nat).
  { change (length pts) with 3%nat. change (0 + 3)%nat with 3%nat.
    cbn [searchBestJ]. change (length pts) with 3%nat. cbn [Nat.leb].
    change ((0 + 3) / 2)%nat with 1%nat. change (3 - 1)%nat with 2%nat.
    rewrite H0, H1, H2, unit_circle_from_three, Hok. reflexivity. }
  unfold fitArcsToPoints. change (length pts) with 3%nat. cbn [Nat.ltb Nat.leb].
  cbn [fitLoop]. change (length pts) with 3%nat. cbn [Nat.ltb Nat.leb Nat.sub].
  change (searchBestJ pts 0 (0 + 3) 3 (0 + 2))
    with (searchBestJ pts 0 (0 + 3) (length pts) (0 + 2)).
  rewrite Hbest. cbn [Nat.add Nat.ltb Nat.leb].
  change (3 / 2)%nat with 1%nat. change (3 - 1)%nat with 2%nat.
  rewrite H0, H1, H2, unit_circle_from_three.
  cbn [x y z cx cy r app]. rewrite (ltb_false _ 0) by lra.
  repeat (f_equal; try lra).
Qed.

(** C5.  Three cut moves down a half circle, at Z = 0, -1 and -2, are
    replaced by one arc move that ends at X = -1, Y = 0 with the Z of the
    first point, 0, where the original path ends at Z = -2. *)
Theorem replaceCutRunsWithArcs_loses_depth :
  replaceCutRunsWithArcs descendingHalfCircle =
  [Toolpath.mkMove (-1) 0 0 (Toolpath.arc (-1) 0 false)].
Proof.
  unfold replaceCutRunsWithArcs, descendingHalfCircle.
  cbn [length replaceLoop Toolpath.type takeCutRun Toolpath.x Toolpath.y Toolpath.z app].
  rewrite half_circle_fit. reflexivity.
Qed.

End ArcFitFacts.

(** ** Units *)

Module UnitsFacts.
Import Units.

(** Converting a display value to millimetres and back, or the other way
    round, returns the value (a non-finite value passes through). *)
Theorem toMm_fromMm_round_trip (v : option R) (u : DisplayUnit) :
  fromMm (toMm v u) u = v /\ toMm (fromMm v u) u = v.
Proof.
  unfold fromMm, toMm, MM_PER_INCH.
  destruct v as [v |]; [| split; reflexivity].
  destruct u; split; f_equal; field.
Qed.

End UnitsFacts.

(** ** Time estimate *)

Module EstimateFacts.
Import Js JsFacts Toolpath Estimate.

Lemma distStep_translate sx sy sz cutDist rapidDist prev m :
  distStep (cutDist, rapidDist, shiftPrev sx sy sz prev) (translate sx sy sz m) =
  let '(c, r, p) := distStep (cutDist, rapidDist, prev) m in (c, r, shiftPrev sx sy sz p).
Proof.
  unfold distStep, translate, shiftPrev. cbn [x y z type].
  destruct prev as [[[px py] pz] |]; [| reflexivity].
  replace (x m + sx - (px + sx)) with (x m - px) by ring.
  replace (y m + sy - (py + sy)) with (y m - py) by ring.
  replace (z m + sz - (pz + sz)) with (z m - pz) by ring.
  destruct (type m); reflexivity.
Qed.

Lemma fold_distStep_translate sx sy sz moves : forall cutDist rapidDist prev,
  fold_left distStep (map (translate sx sy sz) moves)
    (cutDist, rapidDist, shiftPrev sx sy sz prev) =
  let '(c, r, p) := fold_left distStep moves (cutDist, rapidDist, prev) in
  (c, r, shiftPrev sx sy sz p).
Proof.
  induction moves as [| m moves IH]; intros cutDist rapidDist prev; [reflexivity |].
  cbn [map fold_left]. rewrite distStep_translate.
  destruct (distStep (cutDist, rapidDist, prev) m) as [[c r] p]. apply IH.
Qed.

Lemma fold_distStep_nonneg moves : forall cutDist rapidDist prev,
  0 <= cutDist -> 0 <= rapidDist ->
  let '(c, r, _) := fold_left distStep moves (cutDist, rapidDist, prev) in
  cutDist <= c /\ rapidDist <= r.
Proof.
  induction moves as [| m moves IH]; intros cutDist rapidDist prev Hc Hr.
  - cbn. lra.
  - cbn [fold_left]. unfold distStep at 2.
    destruct prev as [[[px py] pz] |].
    + set (d := sqrt _). assert (Hd : 0 <= d) by apply sqrt_pos.
      destruct (type m).
      * specialize (IH cutDist (rapidDist + d) (Some (x m, y m, z m)) Hc ltac:(lra)).
        destruct (fold_left _ _ _) as [[c r] p]. lra.
      * specialize (IH (cutDist + d) rapidDist (Some (x m, y m, z m)) ltac:(lra) Hr).
        destruct (fold_left _ _ _) as [[c r] p]. lra.
      * specialize (IH cutDist (rapidDist + d) (Some (x m, y m, z m)) Hc ltac:(lra)).
        destruct (fold_left _ _ _) as [[c r] p]. lra.
    + apply IH; assumption.
Qed.

(** The estimate does not depend on the origin: the origin transform, a
    translation of all moves, leaves every distance and time unchanged. *)
Lemma estimateMillingTime_origin_independent (moves : list Move)
  (originParams : OriginParams) (totalDepth toolRadius : R) (operation : OperationType)
  (contourType : ContourType) (facingBounds : option FacingBounds) (feedrate : R) :
  estimateMillingTime
    (applyOriginTransform moves originParams totalDepth toolRadius operation contourType
       facingBounds) feedrate =
  estimateMillingTime moves feedrate.
Proof.
  destruct (ToolpathFacts.applyOriginTransform_translate moves originParams totalDepth
              toolRadius operation contourType facingBounds) as (sx & sy & Heq & _).
  rewrite Heq. unfold estimateMillingTime.
  pose proof (fold_distStep_translate sx sy (zShift originParams totalDepth) moves 0 0 None)
    as H.
  cbn [shiftPrev] in H. rewrite H.
  destruct (fold_left distStep moves (0, 0, None)) as [[c r] p]. reflexivity.
Qed.

(** Distances and times are never negative, and the total is the sum of the
    cutting time at the feed rate (1 when the feed rate is not positive) and
    the rapid time at 10000 mm/min. *)
Lemma estimateMillingTime_nonneg (moves : list Move) (feedrate : R) :
  let e := estimateMillingTime moves feedrate in
  0 <= cutDistanceMm e /\ 0 <= rapidDistanceMm e /\
  0 <= cutMinutes e /\ 0 <= rapidMinutes e /\
  totalMinutes e = cutMinutes e + rapidMinutes e /\
  cutMinutes e * (if gtb feedrate 0 then feedrate else 1) = cutDistanceMm e /\
  rapidMinutes e * 10000 = rapidDistanceMm e.
Proof.
  unfold estimateMillingTime.
  pose proof (fold_distStep_nonneg moves 0 0 None ltac:(lra) ltac:(lra)) as H.
  destruct (fold_left distStep moves (0, 0, None)) as [[c r] p]. cbn.
  unfold DEFAULT_RAPID_FEEDRATE_MM_MIN.
  assert (Hf : 0 < (if gtb feedrate 0 then feedrate else 1)).
  { unfold gtb. destruct (ltb 0 feedrate) eqn:E; [now apply ltb_spec in E | lra]. }
  set (f := if gtb feedrate 0 then feedrate else 1) in *.
  split; [lra |]. split; [lra |].
  split; [apply Rmult_le_pos; [lra | left; now apply Rinv_0_lt_compat] |].
  split; [apply Rmult_le_pos; [lra | left; apply Rinv_0_lt_compat; lra] |].
  split; [reflexivity |].
  split; field; lra.
Qed.

(** The estimate does not depend on the origin (the origin transform leaves
    every distance and time unchanged); its distances and times are never
    negative; the total is the cutting time at the feed rate (1 when the feed
    rate is not positive) plus the rapid time at 10000 mm/min. *)
Theorem estimateMillingTime_distances (moves : list Move) (feedrate : R) :
  (forall originParams totalDepth toolRadius operation contourType facingBounds,
     estimateMillingTime
       (applyOriginTransform moves originParams totalDepth toolRadius operation
          contourType facingBounds) feedrate =
     estimateMillingTime moves feedrate) /\
  (let e := estimateMillingTime moves feedrate in
   0 <= cutDistanceMm e /\ 0 <= rapidDistanceMm e /\
   0 <= cutMinutes e /\ 0 <= rapidMinutes e /\
   totalMinutes e = cutMinutes e + rapidMinutes e /\
   cutMinutes e * (if gtb feedrate 0 then feedrate else 1) = cutDistanceMm e /\
   rapidMinutes e * 10000 = rapidDistanceMm e).
Proof.
  split.
  - intros. apply estimateMillingTime_origin_independent.
  - apply estimateMillingTime_nonneg.
Qed.

End EstimateFacts.

(** ** Letter contours *)

Module LettersFacts.
Import Js JsFacts Geometry GeometryFacts Letters.

Lemma rotatePoint_distance c s p q :
  c * c + s * s = 1 ->
  distance2D (rotatePoint c s p) (rotatePoint c s q) = distance2D p q.
Proof.
  intros H. unfold distance2D, rotatePoint, hypot. cbn [x y]. f_equal.
  replace ((x p * c - y p * s - (x q * c - y q * s)) *
           (x p * c - y p * s - (x q * c - y q * s)) +
           (x p * s + y p * c - (x q * s + y q * c)) *
           (x p * s + y p * c - (x q * s + y q * c)))
    with (((x p - x q) * (x p - x q) + (y p - y q) * (y p - y q)) * (c * c + s * s))
    by ring.
  rewrite H. ring.
Qed.

Lemma cos_sin_unit a : cos a * cos a + sin a * sin a = 1.
Proof. pose proof (sin2_cos2 a) as H. unfold Rsqr in H. lra. Qed.

Lemma fold_left_ext_in (f g : R -> nat -> R) (l : list nat) : forall a,
  (forall i s, In i l -> f s i = g s i) -> fold_left f l a = fold_left g l a.
Proof.
  induction l as [| i l IH]; intros a H; [reflexivity |].
  cbn [fold_left]. rewrite (H i a (or_introl eq_refl)).
  apply IH. intros j s Hj. apply H. now right.
Qed.

Lemma nthP_map (f : Point -> Point) pts i :
  (i < length pts)%nat -> nthP (map f pts) i = f (nthP pts i).
Proof.
  intros Hi. unfold nthP.
  rewrite (nth_indep (map f pts) origin (f origin)) by (now rewrite length_map).
  apply map_nth.
Qed.

Lemma shoelace2_rotate c s pts :
  c * c + s * s = 1 -> shoelace2 (map (rotatePoint c s) pts) = shoelace2 pts.
Proof.
  intros H. unfold shoelace2. rewrite length_map.
  apply fold_left_ext_in. intros i a Hi. apply in_seq in Hi.
  unfold shoelaceStep. rewrite length_map.
  assert (Hj : ((i + 1) mod length pts < length pts)%nat)
    by (apply Nat.mod_upper_bound; lia).
  rewrite !nthP_map by lia.
  set (u := nthP pts i). set (v := nthP pts ((i + 1) mod length pts)).
  unfold rotatePoint. cbn [x y].
  replace ((x u * c - y u * s) * (x v * s + y v * c) -
           (x v * c - y v * s) * (x u * s + y u * c))
    with ((x u * y v - x v * y u) * (c * c + s * s)) by ring.
  rewrite H. ring.
Qed.

Lemma polygonSignedArea2_rotate c s pts :
  c * c + s * s = 1 ->
  polygonSignedArea2 (map (rotatePoint c s) pts) = polygonSignedArea2 pts.
Proof.
  intros H. destruct (Nat.ltb_spec (length pts) 3) as [Hlt | Hge].
  - unfold polygonSignedArea2. rewrite length_map.
    destruct (Nat.ltb_spec (length pts) 3); [reflexivity | lia].
  - rewrite !polygonSignedArea2_opp_shoelace by (rewrite ?length_map; lia).
    now rewrite shoelace2_rotate.
Qed.

Lemma rotatePaths_cases paths angleDeg :
  rotatePathsAroundOrigin paths angleDeg = paths \/
  rotatePathsAroundOrigin paths angleDeg =
    map (map (rotatePoint (cos (degToRad (- angleDeg))) (sin (degToRad (- angleDeg)))))
      paths.
Proof.
  unfold rotatePathsAroundOrigin. destruct paths as [| c0 rest]; [now left |].
  destruct (Req_dec_T _ _); [now left | now right].
Qed.

(** Rotating the letter contours is a rigid motion about the origin: contour
    by contour and point by point, it keeps the distance between any two
    points, the distance to the origin and the Z of every point. *)
Lemma rotatePathsAroundOrigin_rigid (paths : list (list Point)) (angleDeg : R) :
  exists f : Point -> Point,
    rotatePathsAroundOrigin paths angleDeg = map (map f) paths /\
    forall p q, distance2D (f p) (f q) = distance2D p q /\
                hypot (x (f p)) (y (f p)) = hypot (x p) (y p) /\
                z (f p) = z p.
Proof.
  destruct (rotatePaths_cases paths angleDeg) as [E | E]; rewrite E.
  - exists (fun p => p). split.
    + rewrite (map_ext _ (fun c : list Point => c)) by (intros c; apply map_id).
      now rewrite map_id.
    + intros p q. repeat split.
  - set (c := cos _). set (s := sin _).
    assert (H : c * c + s * s = 1) by apply cos_sin_unit.
    exists (rotatePoint c s). split; [reflexivity |].
    intros p q. split; [now apply rotatePoint_distance |]. split; [| reflexivity].
    unfold rotatePoint, hypot. cbn [x y]. f_equal.
    replace ((x p * c - y p * s) * (x p * c - y p * s) +
             (x p * s + y p * c) * (x p * s + y p * c))
      with ((x p * x p + y p * y p) * (c * c + s * s)) by ring.
    rewrite H. ring.
Qed.

(** Rotating the letter contours keeps the signed area of every contour, so a
    contour counts as a hole after the rotation exactly when it did before. *)
Theorem rotatePathsAroundOrigin_keeps_signed_area (paths : list (list Point))
  (angleDeg : R) :
  map polygonSignedArea2 (rotatePathsAroundOrigin paths angleDeg) =
  map polygonSignedArea2 paths.
Proof.
  destruct (rotatePaths_cases paths angleDeg) as [E | E]; rewrite E; [reflexivity |].
  rewrite map_map. apply map_ext. intros contour.
  apply polygonSignedArea2_rotate, cos_sin_unit.
Qed.

(** An angle of a whole number of turns returns the paths themselves. *)
Lemma rotatePathsAroundOrigin_whole_turns (paths : list (list Point)) (k : Z) :
  rotatePathsAroundOrigin paths (360 * IZR k) = paths.
Proof.
  unfold rotatePathsAroundOrigin. destruct paths as [| c0 rest]; [reflexivity |].
  assert (H : rem (360 * IZR k) 360 = 0).
  { unfold rem. replace (360 * IZR k / 360) with (IZR k) by field.
    assert (Ht : trunc (IZR k) = k).
    { unfold trunc. destruct (leb 0 (IZR k)).
      - apply Zfloor_eq. lra.
      - apply Zceil_eq. lra. }
    rewrite Ht. ring. }
  destruct (Req_dec_T _ _) as [_ | Hn]; [reflexivity | contradiction].
Qed.

(** Rotating the letter contours is a rigid motion about the origin: one map
    applied to every point of every contour that keeps the distance between
    any two points, the distance to the origin and the Z of every point; and
    an angle of a whole number of turns returns the paths themselves. *)
Theorem rotatePathsAroundOrigin_rigid_motion (paths : list (list Point)) :
  (forall angleDeg, exists f : Point -> Point,
     rotatePathsAroundOrigin paths angleDeg = map (map f) paths /\
     forall p q, distance2D (f p) (f q) = distance2D p q /\
                 hypot (x (f p)) (y (f p)) = hypot (x p) (y p) /\
                 z (f p) = z p) /\
  (forall k : Z, rotatePathsAroundOrigin paths (360 * IZR k) = paths).
Proof.
  split.
  - intros angleDeg. apply rotatePathsAroundOrigin_rigid.
  - intros k. apply rotatePathsAroundOrigin_whole_turns.
Qed.

Lemma minSizeStep_bbox seen b p :
  is_bbox seen b ->
  exists b', minSizeStep (Some b) p = Some b' /\ is_bbox (seen ++ [p]) b'.
Proof.
  destruct b as [[[minX minY] maxX] maxY].
  intros (Hx0 & Hy0 & Hx1 & Hy1 & Hall).
  eexists. split; [reflexivity |]. unfold is_bbox, gtb.
  assert (Hold : forall (P : Point -> Prop), (exists q, In q seen /\ P q) ->
                 exists q, In q (seen ++ [p]) /\ P q).
  { intros P (q & Hq & HP). exists q. split; [apply in_or_app; now left | exact HP]. }
  assert (Hnew : forall (P : Point -> Prop), P p -> exists q, In q (seen ++ [p]) /\ P q).
  { intros P HP. exists p. split; [apply in_or_app; right; now left | exact HP]. }
  repeat match goal with
  | |- context [ltb ?a ?b] =>
      let E := fresh "E" in
      destruct (ltb a b) eqn:E; [apply ltb_spec in E | apply ltb_nspec in E]
  end;
  (split; [first [apply Hnew; reflexivity | apply Hold; assumption] |]);
  (split; [first [apply Hnew; reflexivity | apply Hold; assumption] |]);
  (split; [first [apply Hnew; reflexivity | apply Hold; assumption] |]);
  (split; [first [apply Hnew; reflexivity | apply Hold; assumption] |]);
  intros q Hq; apply in_app_or in Hq;
  (destruct Hq as [Hq | [Hq | []]];
   [specialize (Hall q Hq); lra | subst q; lra]).
Qed.

Lemma fold_minSizeStep_bbox pts : forall seen b,
  is_bbox seen b ->
  exists b', fold_left minSizeStep pts (Some b) = Some b' /\ is_bbox (seen ++ pts) b'.
Proof.
  induction pts as [| p pts IH]; intros seen b Hb.
  - exists b. rewrite app_nil_r. now split.
  - cbn [fold_left]. destruct (minSizeStep_bbox seen b p Hb) as (b1 & E1 & Hb1).
    rewrite E1. destruct (IH _ _ Hb1) as (b' & E' & Hb').
    exists b'. split; [exact E' |]. now rewrite <- app_assoc in Hb'.
Qed.

(** The smallest size of a contour is the shorter side of its bounding box
    (0 for fewer than two points), and it is never negative. *)
Theorem contourMinSize_bounding_box (pts : list Point) :
  0 <= contourMinSize pts /\
  ((length pts < 2)%nat -> contourMinSize pts = 0) /\
  ((2 <= length pts)%nat ->
   exists minX minY maxX maxY,
     is_bbox pts (minX, minY, maxX, maxY) /\
     contourMinSize pts = Rmin (maxX - minX) (maxY - minY)).
Proof.
  unfold contourMinSize.
  destruct (Nat.ltb_spec (length pts) 2) as [Hlt | Hge].
  - split; [lra |]. split; [reflexivity | lia].
  - destruct pts as [| p pts]; [cbn in Hge; lia |]. cbn [fold_left minSizeStep].
    assert (H0 : is_bbox [p] (x p, y p, x p, y p)).
    { unfold is_bbox.
      repeat (split; [exists p; split; [now left | reflexivity] |]).
      intros q [Hq | []]. subst q. lra. }
    destruct (fold_minSizeStep_bbox pts [p] _ H0) as ([[[minX minY] maxX] maxY] & E & Hb).
    rewrite E. cbn [app] in Hb.
    assert (Hp : (minX <= x p <= maxX) /\ (minY <= y p <= maxY)).
    { destruct Hb as (_ & _ & _ & _ & Hall). apply Hall. now left. }
    split; [apply Rmin_glb; lra |]. split; [lia |].
    intros _. exists minX, minY, maxX, maxY. now split.
Qed.

End LettersFacts.

(** ** Base shapes *)

Module ShapesFacts.
Import Js JsFacts Geometry Generate Spiral SpiralFacts Shapes.

Lemma ellipsePoints_closed rx ry n :
  (1 <= n)%nat ->
  last (ellipsePoints rx ry n) origin = hd origin (ellipsePoints rx ry n).
Proof.
  intros Hn. unfold ellipsePoints.
  rewrite last_map_seq_point by lia. cbn [seq map hd].
  replace (0 + S n - 1)%nat with n by lia.
  assert (Hn0 : INR n <> 0) by (apply not_0_INR; lia).
  replace (INR n / INR n * 2 * PI) with (2 * PI) by (field; exact Hn0).
  replace (INR 0 / INR n * 2 * PI) with 0 by (cbn [INR]; field; exact Hn0).
  now rewrite cos_2PI, sin_2PI, cos_0, sin_0.
Qed.

Lemma ellipsePoints_z rx ry n : Forall (fun p => z p = 0) (ellipsePoints rx ry n).
Proof. apply Forall_map_seq. intros i _. reflexivity. Qed.

Lemma ellipsePoints_on_ellipse rx ry n :
  Forall (fun p => (x p * ry) * (x p * ry) + (y p * rx) * (y p * rx) = (rx * ry) * (rx * ry))
    (ellipsePoints rx ry n).
Proof.
  apply Forall_map_seq. intros i _. cbn [x y].
  set (t := INR i / INR n * 2 * PI).
  pose proof (LettersFacts.cos_sin_unit t) as H.
  replace (rx * cos t * ry * (rx * cos t * ry) + ry * sin t * rx * (ry * sin t * rx))
    with (rx * ry * (rx * ry) * (cos t * cos t + sin t * sin t)) by ring.
  rewrite H. ring.
Qed.

(** The base path of a circle, ellipse, square or rectangle is a closed path
    in the plane Z = 0 (the last point repeats the first); any other shape
    has the empty base path. *)
Theorem generateBasePath_closed (shape : ShapeType) (sp : ShapeParams) :
  let path := generateBasePath shape sp in
  (path = [] <-> has_base_path shape = false) /\
  last path origin = hd origin path /\
  Forall (fun p => z p = 0) path.
Proof.
  assert (Hne : forall rx ry n, ellipsePoints rx ry n <> [])
    by (intros rx ry n; unfold ellipsePoints; cbn [seq map]; discriminate).
  destruct shape; cbn [generateBasePath has_base_path].
  - split; [split; [intros H; now apply Hne in H | discriminate] |].
    split; [apply ellipsePoints_closed | apply ellipsePoints_z].
    pose proof (segmentsForCircleRadius_ge4 (diameter sp / 2)). lia.
  - split; [split; discriminate |]. split; [reflexivity |].
    unfold rectanglePoints. repeat constructor.
  - split; [split; discriminate |]. split; [reflexivity |].
    unfold rectanglePoints. repeat constructor.
  - split; [split; reflexivity |]. split; [reflexivity | constructor].
  - split; [split; [intros H; now apply Hne in H | discriminate] |].
    split; [apply ellipsePoints_closed | apply ellipsePoints_z].
    pose proof (segmentsForCircleRadius_ge4 (Rmax (major sp / 2) (minor sp / 2))). lia.
  - split; [split; reflexivity |]. split; [reflexivity | constructor].
  - split; [split; reflexivity |]. split; [reflexivity | constructor].
  - split; [split; reflexivity |]. split; [reflexivity | constructor].
Qed.

(** The points of a circle's base path lie at half the diameter from the
    centre, the points of an ellipse's base path on the ellipse with the half
    axes [major / 2] and [minor / 2]; both have one point more than segments. *)
Theorem generateBasePath_on_curve (sp : ShapeParams) :
  Forall (fun p => radiusOf p = Rabs (diameter sp / 2)) (generateBasePath CIRCLE sp) /\
  length (generateBasePath CIRCLE sp) = S (segmentsForCircleRadius (diameter sp / 2)) /\
  Forall (fun p =>
            (x p * (minor sp / 2)) * (x p * (minor sp / 2)) +
            (y p * (major sp / 2)) * (y p * (major sp / 2)) =
            (major sp / 2 * (minor sp / 2)) * (major sp / 2 * (minor sp / 2)))
    (generateBasePath ELLIPSE sp) /\
  length (generateBasePath ELLIPSE sp) =
    S (segmentsForCircleRadius (Rmax (major sp / 2) (minor sp / 2))).
Proof.
  cbn [generateBasePath]. set (r := diameter sp / 2).
  split; [| split; [| split]].
  - apply Forall_forall. intros p Hp.
    unfold ellipsePoints in Hp. apply in_map_iff in Hp as (i & <- & _).
    unfold radiusOf. cbn [x y]. apply hypot_eq; [apply Rabs_pos |].
    set (t := INR i / INR (segmentsForCircleRadius r) * 2 * PI).
    pose proof (LettersFacts.cos_sin_unit t) as Ht.
    replace (Rabs r * Rabs r) with (r * r)
      by (unfold Rabs; destruct (Rcase_abs r); ring).
    replace (r * cos t * (r * cos t) + r * sin t * (r * sin t))
      with (r * r * (cos t * cos t + sin t * sin t)) by ring.
    rewrite Ht. ring.
  - unfold ellipsePoints. now rewrite length_map, length_seq.
  - apply ellipsePoints_on_ellipse.
  - unfold ellipsePoints. now rewrite length_map, length_seq.
Qed.

Lemma maxXStep_fold path k :
  (1 <= k)%nat ->
  exists idx,
    fold_left (maxXStep path) (seq 0 k) None = Some (x (nthP path idx), idx) /\
    (idx < k)%nat /\
    (forall j, (j < idx)%nat -> x (nthP path j) < x (nthP path idx)) /\
    (forall j, (j < k)%nat -> x (nthP path j) <= x (nthP path idx) + / 1000000000).
Proof.
  induction k as [| k IH]; intros Hk; [lia |].
  destruct k as [| k].
  - exists 0%nat. cbn [seq fold_left maxXStep]. split; [reflexivity |].
    split; [lia |]. split; [intros j Hj; lia |].
    intros j Hj. replace j with 0%nat by lia. lra.
  - destruct IH as (idx & E & Hidx & Hbefore & Hall); [lia |].
    rewrite seq_S, fold_left_app, E. cbn [Nat.add fold_left maxXStep]. unfold gtb.
    destruct (ltb _ _) eqn:Ecmp; [apply ltb_spec in Ecmp | apply ltb_nspec in Ecmp].
    + exists (S k). split; [reflexivity |]. split; [lia |]. split.
      * intros j Hj. specialize (Hall j Hj). lra.
      * intros j Hj. destruct (Nat.eq_dec j (S k)) as [-> | Hne]; [lra |].
        specialize (Hall j ltac:(lia)). lra.
    + exists idx. split; [reflexivity |]. split; [lia |]. split; [exact Hbefore |].
      intros j Hj. destruct (Nat.eq_dec j (S k)) as [-> | Hne]; [lra |].
      apply Hall. lia.
Qed.

(** On a path of at least four points the contour is restarted in the middle
    of the edge that leaves the first rightmost point: the new path runs from
    that midpoint over the rest of the path and its beginning, and closes on
    the midpoint. *)
Theorem adjustRectContourStartToEdgeMid_restarts (path : list Point)
  (Hlen : (4 <= length path)%nat) :
  exists idx,
    rightmost_start path idx /\
    let nextIdx := ((idx + 1) mod length path)%nat in
    let mid := mkPoint ((x (nthP path idx) + x (nthP path nextIdx)) / 2)
                       ((y (nthP path idx) + y (nthP path nextIdx)) / 2)
                       (z (nthP path idx)) in
    adjustRectContourStartToEdgeMid path =
      mid :: skipn nextIdx path ++ firstn (idx + 1) path ++ [mid] /\
    hd origin (adjustRectContourStartToEdgeMid path) = mid /\
    last (adjustRectContourStartToEdgeMid path) origin = mid.
Proof.
  destruct (maxXStep_fold path (length path) ltac:(lia)) as (idx & E & Hidx & Hb & Ha).
  exists idx. split; [now split |].
  unfold adjustRectContourStartToEdgeMid.
  destruct (Nat.ltb_spec (length path) 4) as [Hlt | _]; [lia |].
  rewrite E. cbv zeta. cbn [app].
  split; [reflexivity |]. split; [reflexivity |].
  rewrite app_comm_cons, app_assoc. apply last_last.
Qed.

Lemma adjustRectContourStartToEdgeMid_restarts_witness :
  exists idx, rightmost_start (rectanglePoints 2 1) idx.
Proof.
  destruct (adjustRectContourStartToEdgeMid_restarts (rectanglePoints 2 1))
    as (idx & H & _); [cbn; lia |].
  exists idx. exact H.
Defined.

(** A path of fewer than four points is returned as it is. *)
Lemma adjustRectContourStartToEdgeMid_short (path : list Point) :
  (length path < 4)%nat -> adjustRectContourStartToEdgeMid path = path.
Proof.
  intros H. unfold adjustRectContourStartToEdgeMid.
  destruct (Nat.ltb_spec (length path) 4); [reflexivity | lia].
Qed.

(** On the closed rectangle of [generateBasePath] (half width above 5e-10)
    the restarted contour begins and ends in the middle of the right side and
    visits the corners counter-clockwise; the corner where the base path
    closes appears twice in a row. *)
Theorem adjustRectContourStartToEdgeMid_rectangle (hw hh : R)
  (Hw : / 2000000000 < hw) :
  adjustRectContourStartToEdgeMid (rectanglePoints hw hh) =
    [mkPoint hw 0 0; mkPoint hw hh 0; mkPoint (- hw) hh 0; mkPoint (- hw) (- hh) 0;
     mkPoint (- hw) (- hh) 0; mkPoint hw (- hh) 0; mkPoint hw 0 0].
Proof.
  unfold adjustRectContourStartToEdgeMid, rectanglePoints.
  cbn [length Nat.ltb Nat.leb seq fold_left maxXStep nthP nth x]. unfold gtb.
  rewrite (ltb_true (- hw + / 1000000000) hw) by lra.
  cbn [maxXStep nthP nth x]. unfold gtb.
  rewrite (ltb_false (hw + / 1000000000) hw) by lra.
  cbn [maxXStep nthP nth x]. unfold gtb.
  rewrite (ltb_false (hw + / 1000000000) (- hw)) by lra.
  cbn [maxXStep nthP nth x]. unfold gtb.
  rewrite (ltb_false (hw + / 1000000000) (- hw)) by lra.
  cbv zeta. change ((1 + 1) mod 5)%nat with 2%nat.
  cbn [nthP nth x y z skipn firstn Nat.add app].
  repeat f_equal; field.
Qed.

Lemma adjustRectContourStartToEdgeMid_rectangle_witness :
  adjustRectContourStartToEdgeMid (rectanglePoints 2 1) =
    [mkPoint 2 0 0; mkPoint 2 1 0; mkPoint (- 2) 1 0; mkPoint (- 2) (- 1) 0;
     mkPoint (- 2) (- 1) 0; mkPoint 2 (- 1) 0; mkPoint 2 0 0].
Proof.
  apply (adjustRectContourStartToEdgeMid_rectangle 2 1). lra.
Defined.

End ShapesFacts.

(** ** Deduplication, cleanup and pocket rings of [contourOffset] *)

Module ContourFacts.
Import Js JsFacts Geometry Offset OffsetFacts Contour.

Lemma Sorted_snoc (A : Type) (Rel : A -> A -> Prop) (out : list A) (p d : A) :
  Sorted Rel out -> (out <> [] -> Rel (last out d) p) -> Sorted Rel (out ++ [p]).
Proof.
  induction out as [| a out IH]; intros Hs Hl.
  - cbn. repeat constructor.
  - apply Sorted_inv in Hs as [Hs Hhd]. cbn [app]. constructor.
    + apply IH; [exact Hs |]. intros Hne. destruct out as [| b out]; [congruence |].
      apply Hl. discriminate.
    + destruct out as [| b out]; cbn [app].
      * constructor. apply Hl. discriminate.
      * constructor. now inversion Hhd.
Qed.

Lemma near_refl p : near p p.
Proof.
  unfold near, tol. rewrite !Rminus_diag, Rabs_R0. lra.
Qed.

Lemma dedupStep_cases out p :
  (dedupStep out p = out ++ [p] /\ (out <> [] -> apart (last out origin) p)) \/
  (dedupStep out p = out /\ out <> [] /\ near (last out origin) p).
Proof.
  unfold dedupStep, lastOpt. destruct out as [| a out].
  - left. split; [reflexivity | congruence].
  - set (prev := last (a :: out) origin). unfold gtb.
    destruct (ltb tol (Rabs (x p - x prev))) eqn:E1;
      [apply ltb_spec in E1 | apply ltb_nspec in E1].
    { left. split; [reflexivity |]. intros _. now left. }
    destruct (ltb tol (Rabs (y p - y prev))) eqn:E2;
      [apply ltb_spec in E2 | apply ltb_nspec in E2]; cbn [orb].
    { left. split; [reflexivity |]. intros _. now right. }
    right. split; [reflexivity |]. split; [discriminate |]. now split.
Qed.

Lemma dedup_fold pts : forall out,
  Sorted apart out ->
  let res := fold_left dedupStep pts out in
  Sorted apart res /\
  (exists added, res = out ++ added /\ incl added pts) /\
  (forall p, In p pts -> exists q, In q res /\ near q p).
Proof.
  induction pts as [| p pts IH]; intros out Hs; cbn [fold_left].
  - split; [exact Hs |]. split; [| intros p []].
    exists []. split; [now rewrite app_nil_r | intros q []].
  - destruct (dedupStep_cases out p) as [(E & Hap) | (E & Hne & Hnear)]; rewrite E.
    + destruct (IH (out ++ [p])) as (Hs' & (added & Eadd & Hincl) & Hcov).
      { apply Sorted_snoc with (d := origin); assumption. }
      split; [exact Hs' |]. split.
      * exists (p :: added). split; [now rewrite Eadd, <- app_assoc |].
        intros q [<- | Hq]; [now left | right; now apply Hincl].
      * intros q [<- | Hq]; [| now apply Hcov].
        exists p. split; [| apply near_refl].
        rewrite Eadd. apply in_or_app. left. apply in_or_app. right. now left.
    + destruct (IH out Hs) as (Hs' & (added & Eadd & Hincl) & Hcov).
      split; [exact Hs' |]. split.
      * exists added. split; [exact Eadd |]. intros q Hq. right. now apply Hincl.
      * intros q [<- | Hq]; [| now apply Hcov].
        exists (last out origin). split; [| exact Hnear].
        rewrite Eadd. apply in_or_app. left.
        destruct out as [| a out]; [congruence |].
        apply (exists_last (l := a :: out)) in Hne as (l' & b & ->).
        rewrite last_last. apply in_or_app. right. now left.
Qed.

(** The deduplication loop keeps the first point, keeps only points of the
    input, leaves every two consecutive kept points more than 1e-6 apart in X
    or in Y, and drops a point only within 1e-6 (in X and in Y) of a kept one. *)
Theorem dedup_spaced (pts : list Point) :
  Sorted apart (dedup pts) /\
  incl (dedup pts) pts /\
  hd_error (dedup pts) = hd_error pts /\
  (forall p, In p pts -> exists q, In q (dedup pts) /\ near q p).
Proof.
  unfold dedup.
  destruct (dedup_fold pts [] (Sorted_nil _)) as (Hs & (added & E & Hincl) & Hcov).
  cbn [app] in E. split; [exact Hs |]. split; [now rewrite E |].
  split; [| exact Hcov].
  destruct pts as [| p pts]; [reflexivity |].
  cbn [fold_left]. change (dedupStep [] p) with [p].
  destruct (dedup_fold pts [p]) as (_ & (added' & E' & _) & _);
    [repeat constructor |].
  cbv zeta in E'. now rewrite E'.
Qed.

Lemma map_nthP_seq pts : map (nthP pts) (seq 0 (length pts)) = pts.
Proof.
  apply (nth_ext _ _ origin origin); [now rewrite length_map, length_seq |].
  intros i Hi. rewrite length_map, length_seq in Hi.
  rewrite (nth_indep _ origin (nthP pts 0)) by (now rewrite length_map, length_seq).
  rewrite (map_nth (nthP pts)), seq_nth by assumption. reflexivity.
Qed.

Lemma cleanupStep_cases pts acc i :
  (offsetVertex pts 0 0 0 i = None /\ snd (cleanupStep pts acc i) = true /\
   (length (fst (cleanupStep pts acc i)) <= S (length (fst acc)))%nat) \/
  (offsetVertex pts 0 0 0 i <> None /\
   cleanupStep pts acc i = (fst acc ++ [nthP pts i], snd acc)).
Proof.
  unfold cleanupStep, offsetVertex.
  set (len1 := hypot _ _). set (len2 := hypot _ _).
  destruct (ltb len1 minLen), (ltb len2 minLen); cbn [andb orb fst snd].
  - left. repeat split. lia.
  - left. repeat split. rewrite length_app. cbn. lia.
  - left. repeat split. rewrite length_app. cbn. lia.
  - right. split; [| reflexivity]. destruct (ltb _ crossTol); discriminate.
Qed.

Lemma cleanupPass_fold pts k : forall a acc,
  let res := fold_left (cleanupStep pts) (seq a k) acc in
  (snd res = true <->
   snd acc = true \/ exists i, (a <= i < a + k)%nat /\ offsetVertex pts 0 0 0 i = None) /\
  (snd res = false -> fst res = fst acc ++ map (nthP pts) (seq a k)) /\
  (length (fst res) <= length (fst acc) + k)%nat.
Proof.
  induction k as [| k IH]; intros a acc; cbn [seq fold_left map].
  - split; [| split; [intros _; now rewrite app_nil_r | lia]].
    split; [now left | intros [H | (i & Hi & _)]; [exact H | lia]].
  - destruct (IH (S a) (cleanupStep pts acc a)) as (Hiff & Hfst & Hlen).
    destruct (cleanupStep_cases pts acc a) as [(Hn & Hs & Hl) | (Hn & E)].
    + split; [| split].
      * split; [intros _; right; exists a; split; [lia | exact Hn] |].
        intros _. apply Hiff. now left.
      * intros Hf. exfalso. apply Bool.not_true_iff_false in Hf. apply Hf, Hiff. now left.
      * lia.
    + rewrite E in *. cbn [fst snd] in *. split; [| split].
      * rewrite Hiff. split.
        -- intros [H | (i & Hi & Hz)]; [now left | right; exists i; split; [lia | exact Hz]].
        -- intros [H | (i & Hi & Hz)]; [now left |].
           right. exists i. split; [| exact Hz].
           destruct (Nat.eq_dec i a) as [-> | Hne]; [contradiction | lia].
      * intros Hf. rewrite (Hfst Hf), <- app_assoc. reflexivity.
      * rewrite length_app in Hlen. cbn [length] in Hlen. lia.
Qed.

Lemma cleanupPass_flag (pts : list Point) :
  (snd (cleanupPass pts) = true <-> has_zero_edge pts) /\
  (snd (cleanupPass pts) = false -> fst (cleanupPass pts) = pts).
Proof.
  unfold cleanupPass.
  destruct (cleanupPass_fold pts (length pts) 0 ([], false)) as (Hiff & Hfst & _).
  cbv zeta in *. cbn [fst snd length app Nat.add] in *. split.
  - rewrite Hiff, (has_zero_edge_iff pts 0 0 0). split.
    + intros [H | (i & Hi & Hz)]; [discriminate |]. exists i. split; [lia | exact Hz].
    + intros (i & Hi & Hz). right. exists i. split; [lia | exact Hz].
  - intros Hf. rewrite (Hfst Hf). apply map_nthP_seq.
Qed.

(** A cleanup pass reports a change exactly when some edge of the polygon is
    shorter than 1e-6; without a change it returns the polygon as it is; and
    it never returns more points than it was given. *)
Theorem cleanupPass_changed_iff_short_edge (pts : list Point) :
  (snd (cleanupPass pts) = true <-> has_zero_edge pts) /\
  (snd (cleanupPass pts) = false -> fst (cleanupPass pts) = pts) /\
  (length (fst (cleanupPass pts)) <= length pts)%nat.
Proof.
  destruct (cleanupPass_flag pts) as (Hiff & Hsame).
  split; [exact Hiff |]. split; [exact Hsame |].
  unfold cleanupPass.
  destruct (cleanupPass_fold pts (length pts) 0 ([], false)) as (_ & _ & Hlen).
  exact Hlen.
Qed.

(** The cleanup passes return a polygon of at least three points unchanged
    when none of its edges is shorter than 1e-6, and they change a polygon only
    if it has such an edge. *)
Theorem cleanup_changes_only_short_edges (pts : list Point) (passes : nat)
  (Hlen : (3 <= length pts)%nat) :
  (~ has_zero_edge pts -> cleanup passes pts = Some pts) /\
  (forall out, cleanup passes pts = Some out -> out <> pts -> has_zero_edge pts).
Proof.
  destruct (cleanupPass_flag pts) as (Hiff & Hsame).
  destruct passes as [| k]; cbn [cleanup].
  - split; [reflexivity |]. intros out H Hne. inversion H. congruence.
  - destruct (cleanupPass pts) as [next changed] eqn:E. cbn [fst snd] in *.
    destruct changed.
    + split; [intros Hn; exfalso; apply Hn, Hiff; reflexivity |].
      intros out _ _. now apply Hiff.
    + rewrite (Hsame eq_refl).
      destruct (Nat.ltb_spec (length pts) 3) as [| _]; [lia |].
      split; [reflexivity |]. intros out H Hne. inversion H. congruence.
Qed.

Lemma cleanup_changes_only_short_edges_witness :
  let sq := [mkPoint 0 0 0; mkPoint 4 0 0; mkPoint 4 4 0; mkPoint 0 4 0] in
  (~ has_zero_edge sq -> cleanup 3 sq = Some sq) /\
  (forall out, cleanup 3 sq = Some out -> out <> sq -> has_zero_edge sq).
Proof.
  apply (cleanup_changes_only_short_edges
           [mkPoint 0 0 0; mkPoint 4 0 0; mkPoint 4 4 0; mkPoint 0 4 0] 3).
  cbn. lia.
Defined.

Lemma cleanup_shrinks k : forall pts out,
  cleanup k pts = Some out -> (length out <= length pts)%nat.
Proof.
  induction k as [| k IH]; intros pts out H; cbn [cleanup] in H.
  - inversion H. lia.
  - pose proof (cleanupPass_fold pts (length pts) 0 ([], false)) as (_ & _ & Hlen).
    fold (cleanupPass pts) in Hlen. cbn [fst length Nat.add] in Hlen.
    destruct (cleanupPass pts) as [next changed]. cbn [fst] in Hlen.
    destruct (length next <? 3)%nat; [discriminate |].
    destruct changed.
    + apply IH in H. lia.
    + inversion H; subst. exact Hlen.
Qed.

(** A contour returned for a nonzero distance is flat (all its points have
    one Z, that of the first cleaned point) and has at least four points and
    at most one point more than the input. *)
Theorem contourOffset_result_flat (contour : list Point) (d : R) (r : list Point)
  (Hd : d <> 0) (Hr : fst (contourOffset contour d) = Some r) :
  (exists z0, Forall (fun p => z p = z0) r) /\
  (4 <= length r <= S (length contour))%nat.
Proof.
  unfold contourOffset in Hr.
  destruct (length contour <? 3)%nat; [discriminate |].
  destruct (Req_dec_T d 0) as [| _]; [contradiction |].
  fold (usablePoints contour) in Hr.
  destruct (Nat.ltb_spec (length (usablePoints contour)) 3) as [| Hu]; [discriminate |].
  destruct (cleanup 3 (usablePoints contour)) as [pts |] eqn:Ecl; [| discriminate].
  pose proof (cleanup_length _ _ _ Hu Ecl) as H3.
  pose proof (cleanup_shrinks _ _ _ Ecl) as Hle.
  pose proof (usablePoints_length contour) as Hul.
  unfold offsetCleaned in Hr.
  destruct (offsetLoop _ _ _ _ _ _) as [result |] eqn:El; [| discriminate].
  apply offsetLoop_some in El as (Hl & Hz & _).
  rewrite length_seq in Hl. cbn [length Nat.add] in Hl.
  destruct (length result <? 3)%nat; [discriminate |].
  destruct (ltb _ areaTol); [discriminate |].
  destruct (ltb _ 0); [discriminate |].
  cbn [fst] in Hr. inversion Hr; subst r; clear Hr. split.
  - exists (z (nthP pts 0)). apply Forall_app. split; [apply Hz; constructor |].
    repeat constructor.
  - rewrite length_app. cbn [length]. lia.
Qed.

Lemma contourOffset_result_flat_witness :
  (exists z0, Forall (fun p => z p = z0)
     [mkPoint (-1) (-1) 0; mkPoint 5 (-1) 0; mkPoint 5 5 0; mkPoint (-1) 5 0;
      mkPoint (-1) (-1) 0]) /\
  (4 <= 5 <= S (length squareCCW))%nat.
Proof.
  apply (contourOffset_result_flat squareCCW 1); [lra |].
  rewrite contourOffset_squareCCW_pos. reflexivity.
Defined.

Lemma pocketRingsLoop_app fuel : forall current stepover rings,
  pocketRingsLoop fuel current stepover rings =
  rings ++ pocketRingsLoop fuel current stepover [].
Proof.
  induction fuel as [| k IH]; intros current stepover rings; cbn [pocketRingsLoop].
  - now rewrite app_nil_r.
  - destruct (3 <=? length current)%nat; [| now rewrite app_nil_r].
    destruct (fst (contourOffset current stepover)) as [next |]; [| reflexivity].
    rewrite (IH next stepover (rings ++ [current])), (IH next stepover ([] ++ [current])).
    now rewrite <- app_assoc.
Qed.

Lemma chained_cons current next rest stepover :
  fst (contourOffset current stepover) = Some next ->
  hd_error rest = Some next -> chained rest stepover ->
  chained (current :: rest) stepover.
Proof.
  intros Ho Hhd Hch i Hi. destruct i as [| i].
  - destruct rest as [| r0 rest]; [discriminate |]. cbn in Hhd |- *. congruence.
  - cbn [nth]. apply Hch. cbn [length] in Hi. lia.
Qed.

Lemma pocketRingsLoop_rings fuel : forall current stepover,
  let rings := pocketRingsLoop fuel current stepover [] in
  (length rings <= fuel)%nat /\
  Forall (fun ring => (3 <= length ring)%nat) rings /\
  (rings = [] <-> fuel = 0%nat \/ (length current < 3)%nat) /\
  (rings <> [] -> hd_error rings = Some current) /\
  chained rings stepover.
Proof.
  induction fuel as [| k IH]; intros current stepover; cbn [pocketRingsLoop].
  - split; [cbn; lia |]. split; [constructor |]. split; [split; auto |].
    split; [congruence |]. intros i Hi. cbn in Hi. lia.
  - destruct (Nat.leb_spec 3 (length current)) as [H3 | H3].
    2:{ split; [cbn; lia |]. split; [constructor |]. split; [split; auto |].
        split; [congruence |]. intros i Hi. cbn in Hi. lia. }
    destruct (fst (contourOffset current stepover)) as [next |] eqn:Eo.
    + rewrite pocketRingsLoop_app. cbn [app].
      destruct (IH next stepover) as (Hl & Hall & Hnil & Hhd & Hch).
      split; [cbn [length]; lia |]. split; [now constructor |].
      split; [split; [discriminate | intros [|]; lia] |].
      split; [reflexivity |].
      destruct (pocketRingsLoop k next stepover []) as [| r0 rest] eqn:Er.
      * intros i Hi. cbn in Hi. lia.
      * apply chained_cons with (next := next); [exact Eo | | exact Hch].
        apply Hhd. discriminate.
    + cbn [app]. split; [cbn; lia |]. split; [repeat constructor; exact H3 |].
      split; [split; [discriminate | intros [|]; lia] |].
      split; [reflexivity |]. intros i Hi. cbn in Hi. lia.
Qed.

(** The pocket rings: at most 300 of them, each of at least three points,
    none when the inner contour has fewer than three points and otherwise
    starting with the inner contour itself, each the offset of the one before
    it by the stepover. *)
Lemma pocketRingsFromInnerContour_rings (innerContour : list Point) (stepover : R) :
  let rings := pocketRingsFromInnerContour innerContour stepover in
  (length rings <= 300)%nat /\
  Forall (fun ring => (3 <= length ring)%nat) rings /\
  (rings = [] <-> (length innerContour < 3)%nat) /\
  (rings <> [] -> hd_error rings = Some innerContour) /\
  chained rings stepover.
Proof.
  unfold pocketRingsFromInnerContour, MAX_POCKET_RINGS.
  destruct (pocketRingsLoop_rings 300 innerContour stepover) as (Hl & Hall & Hnil & Hhd & Hch).
  split; [exact Hl |]. split; [exact Hall |]. split; [| split; [exact Hhd | exact Hch]].
  rewrite Hnil. split; [intros [|]; [discriminate | assumption] | now right].
Qed.

Lemma pocketRingsLoop_zero fuel current :
  (3 <= length current)%nat ->
  pocketRingsLoop fuel current 0 [] = repeat current fuel.
Proof.
  intros H3. induction fuel as [| k IH]; [reflexivity |].
  cbn [pocketRingsLoop repeat].
  destruct (Nat.leb_spec 3 (length current)) as [_ | Hlt]; [| lia].
  unfold contourOffset at 1.
  destruct (Nat.ltb_spec (length current) 3) as [| _]; [lia |].
  destruct (Req_dec_T 0 0) as [_ | Hn]; [| contradiction]. cbn [fst].
  rewrite pocketRingsLoop_app, IH. reflexivity.
Qed.

(** With a stepover of zero the offset returns the contour itself, so the
    loop stops only at its cap: the result is 300 copies of the inner
    contour. *)
Lemma pocketRingsFromInnerContour_zero_stepover (innerContour : list Point)
  (H3 : (3 <= length innerContour)%nat) :
  pocketRingsFromInnerContour innerContour 0 = repeat innerContour 300.
Proof.
  unfold pocketRingsFromInnerContour, MAX_POCKET_RINGS.
  now apply pocketRingsLoop_zero.
Qed.

(** The pocket rings: at most 300 of them, each of at least three points,
    none when the inner contour has fewer than three points and otherwise
    starting with the inner contour itself, each the offset of the one before
    it by the stepover; with a stepover of zero, where the offset returns the
    contour itself, the loop stops only at its cap and returns 300 copies of
    the inner contour. *)
Theorem pocketRingsFromInnerContour_chain (innerContour : list Point) (stepover : R) :
  let rings := pocketRingsFromInnerContour innerContour stepover in
  (length rings <= 300)%nat /\
  Forall (fun ring => (3 <= length ring)%nat) rings /\
  (rings = [] <-> (length innerContour < 3)%nat) /\
  (rings <> [] -> hd_error rings = Some innerContour) /\
  chained rings stepover /\
  ((3 <= length innerContour)%nat -> stepover = 0 -> rings = repeat innerContour 300).
Proof.
  intros rings.
  destruct (pocketRingsFromInnerContour_rings innerContour stepover)
    as (H1 & H2 & H3 & H4 & H5).
  repeat (split; [assumption |]).
  intros Hlen ->. now apply pocketRingsFromInnerContour_zero_stepover.
Qed.

(** At a proper corner (the two edges not parallel) the offset vertex lies at
    the distance [|d|] from the lines of both adjacent edges, on the same side
    of both, and takes the Z given; both edges are at least 1e-6 long. *)
Theorem offsetVertex_equidistant (pts : list Point) (area2 d z0 : R) (i : nat) (p : Point)
  (Hv : offsetVertex pts (signOf area2) d z0 i = Some p)
  (Hcross :
     let prev := nthP pts (prevIdx (length pts) i) in
     let curr := nthP pts i in
     let next := nthP pts (nextIdx (length pts) i) in
     crossTol <= Rabs ((x curr - x prev) * (y next - y curr) -
                       (y curr - y prev) * (x next - x curr))) :
  let prev := nthP pts (prevIdx (length pts) i) in
  let curr := nthP pts i in
  let next := nthP pts (nextIdx (length pts) i) in
  z p = z0 /\
  minLen <= distance2D curr prev /\ minLen <= distance2D next curr /\
  exists side, (side = 1 \/ side = -1) /\
    (x p - x prev) * (- (y curr - y prev)) + (y p - y prev) * (x curr - x prev) =
      side * d * distance2D curr prev /\
    (x p - x curr) * (- (y next - y curr)) + (y p - y curr) * (x next - x curr) =
      side * d * distance2D next curr.
Proof.
  intros prev curr next. cbv zeta in Hcross. fold prev curr next in Hcross.
  split; [eapply offsetVertex_z; exact Hv |].
  destruct (Rlt_dec (distance2D curr prev) minLen) as [Hs | Hs].
  { exfalso. assert (Hn : offsetVertex pts (signOf area2) d z0 i = None)
      by (apply offsetVertex_none; now left). congruence. }
  destruct (Rlt_dec (distance2D next curr) minLen) as [Hs' | Hs'].
  { exfalso. assert (Hn : offsetVertex pts (signOf area2) d z0 i = None)
      by (apply offsetVertex_none; now right). congruence. }
  split; [lra |]. split; [lra |].
  exists (signOf area2). split.
  - unfold signOf. destruct (geb area2 0); [now left | now right].
  - exact (offsetVertex_on_offset_lines pts (signOf area2) d z0 i p Hv Hcross).
Qed.

Lemma offsetVertex_equidistant_witness :
  exists p,
    offsetVertex [mkPoint 0 0 0; mkPoint 4 0 0; mkPoint 4 4 0; mkPoint 0 4 0]
      (signOf (-32)) 1 0 0 = Some p /\
    z p = 0.
Proof.
  assert (Hv : offsetVertex [mkPoint 0 0 0; mkPoint 4 0 0; mkPoint 4 4 0; mkPoint 0 4 0]
                 (signOf (-32)) 1 0 0 = Some (mkPoint (-1) (-1) 0)).
  { unfold signOf, geb. rewrite (leb_false 0 (-32)) by lra. eval_vertex 4. }
  exists (mkPoint (-1) (-1) 0). split; [exact Hv |].
  refine (proj1 (offsetVertex_equidistant _ (-32) 1 0 0 _ Hv _)).
  js_cbn. unfold crossTol. abs_lra.
Defined.

End ContourFacts.

(** ** Circle through three points and arc fitting *)

Module CircleFacts.
Import Js JsFacts Geometry ArcFit.

Lemma deviation_zero px py ccx ccy rad :
  0 <= rad ->
  (px - ccx) * (px - ccx) + (py - ccy) * (py - ccy) = rad * rad ->
  pointToCircleDeviation px py ccx ccy rad = 0.
Proof.
  intros Hr H. unfold pointToCircleDeviation.
  rewrite (hypot_eq _ _ rad) by lra.
  rewrite Rminus_diag. apply Rabs_R0.
Qed.

(** [circleFromThreePoints] returns the circumcircle: the circle it returns
    passes through the three points (and the determinant [d], four times the
    signed area of the triangle, is at least 1e-10 in absolute value); it
    returns none exactly when [|d|] is below 1e-10. *)
Theorem circleFromThreePoints_circumcircle (p1 p2 p3 : Point) :
  let d := 2 * (x p1 * (y p2 - y p3) + x p2 * (y p3 - y p1) + x p3 * (y p1 - y p2)) in
  match circleFromThreePoints p1 p2 p3 with
  | Some c =>
      / 10000000000 <= Rabs d /\ 0 <= r c /\
      pointToCircleDeviation (x p1) (y p1) (cx c) (cy c) (r c) = 0 /\
      pointToCircleDeviation (x p2) (y p2) (cx c) (cy c) (r c) = 0 /\
      pointToCircleDeviation (x p3) (y p3) (cx c) (cy c) (r c) = 0
  | None =>
      Rabs d < / 10000000000
  end.
Proof.
  intros d. unfold circleFromThreePoints. fold d.
  destruct (ltb (Rabs d) (/ 10000000000)) eqn:E;
    [now apply ltb_spec in E | apply ltb_nspec in E].
  cbn [cx cy r].
  assert (Hd : d <> 0).
  { intros H0. rewrite H0, Rabs_R0 in E. lra. }
  set (ccx := _ / d). set (ccy := _ / d).
  set (rad := hypot (x p1 - ccx) (y p1 - ccy)).
  assert (Hrad : 0 <= rad) by apply hypot_nonneg.
  assert (Hsq : rad * rad = (x p1 - ccx) * (x p1 - ccx) + (y p1 - ccy) * (y p1 - ccy))
    by apply hypot_sqr.
  split; [exact E |]. split; [exact Hrad |].
  split; [apply deviation_zero; lra |].
  split; apply deviation_zero; try exact Hrad; rewrite Hsq;
    unfold ccx, ccy; subst d; field; intros H0; apply Hd; lra.
Qed.

Lemma fitLoop_ends points z0 fuel : forall i result,
  (i <= length points)%nat -> (length points - i <= fuel)%nat ->
  ((1 <= i)%nat -> exists front seg, result = front ++ [seg] /\
     sx seg = x (nthP points (i - 1)) /\ sy seg = y (nthP points (i - 1))) ->
  let res := fitLoop points z0 i fuel result in
  ((1 <= length points)%nat -> exists front seg, res = front ++ [seg] /\
     sx seg = x (nthP points (length points - 1)) /\
     sy seg = y (nthP points (length points - 1))) /\
  (length res <= length result + (length points - i))%nat.
Proof.
  induction fuel as [| f IH]; intros i result Hi Hfuel Hinv; cbn [fitLoop].
  - replace i with (length points) in Hinv by lia. split; [exact Hinv | lia].
  - destruct (Nat.ltb_spec i (length points)) as [Hlt | Hge].
    2:{ replace i with (length points) in Hinv by lia. split; [exact Hinv | lia]. }
    assert (Hline : forall res',
      res' = fitLoop points z0 (S i) f (result ++ [lineTo (nthP points i)]) ->
      ((1 <= length points)%nat -> exists front seg, res' = front ++ [seg] /\
         sx seg = x (nthP points (length points - 1)) /\
         sy seg = y (nthP points (length points - 1))) /\
      (length res' <= length result + (length points - i))%nat).
    { intros res' ->.
      destruct (IH (S i) (result ++ [lineTo (nthP points i)])) as (He & Hl);
        [lia | lia | |].
      - intros _. exists result, (lineTo (nthP points i)).
        replace (S i - 1)%nat with i by lia. repeat split.
      - split; [exact He |]. rewrite length_app in Hl. cbn [length] in Hl. lia. }
    destruct (length points - 2 <=? i)%nat; [now apply Hline |].
    pose proof (ArcFitFacts.searchBestJ_spec points i (length points) (i + 3) (i + 2)
                  ltac:(lia)) as Hspec.
    cbv zeta in Hspec.
    remember (searchBestJ points i (i + 3) (length points) (i + 2)) as bestJ eqn:Eb.
    destruct (Nat.ltb_spec (i + 2) bestJ) as [Hb | Hb]; [| now apply Hline].
    destruct (circleFromThreePoints _ _ _) as [circle |]; [| now apply Hline].
    destruct Hspec as [Heq | (c & _ & Hle & _)]; [lia |].
    match goal with
    | |- context [fitLoop points z0 bestJ f (result ++ [?seg])] =>
        destruct (IH bestJ (result ++ [seg])) as (He & Hl); [lia | lia | |]
    end.
    + intros _. eexists result, _. repeat split.
    + split; [exact He |]. rewrite length_app in Hl. cbn [length] in Hl. lia.
Qed.

(** The fitted path ends where the run of points ends (same X and Y as the
    last point) and never has more segments than the run has points. *)
Theorem fitArcsToPoints_ends_at_last_point (points : list Point)
  (Hne : points <> []) :
  (exists front seg, fitArcsToPoints points = front ++ [seg] /\
     sx seg = x (last points origin) /\ sy seg = y (last points origin)) /\
  (length (fitArcsToPoints points) <= length points)%nat.
Proof.
  assert (Hn : (1 <= length points)%nat)
    by (destruct points; [congruence | cbn; lia]).
  assert (Hlast : last points origin = nthP points (length points - 1)).
  { unfold nthP. destruct (exists_last Hne) as (l' & a & ->).
    rewrite last_last, length_app, app_nth2; cbn [length]; [| lia].
    replace (length l' + 1 - 1 - length l')%nat with 0%nat by lia. reflexivity. }
  rewrite Hlast. unfold fitArcsToPoints.
  destruct (Nat.ltb_spec (length points) 3) as [Hlt | Hge].
  - split; [| now rewrite length_map].
    destruct (exists_last Hne) as (l' & a & E).
    exists (map lineTo l'), (lineTo a). rewrite <- Hlast, E, map_app, last_last.
    repeat split.
  - destruct (fitLoop_ends points (z (nthP points 0)) (length points) 0 [])
      as (He & Hl); [lia | lia | intros H; lia |].
    split; [now apply He |]. cbn [length] in Hl. lia.
Qed.

Lemma fitArcsToPoints_ends_at_last_point_witness :
  (exists front seg,
     fitArcsToPoints [mkPoint 1 0 0; mkPoint 0 1 0] = front ++ [seg] /\
     sx seg = x (last [mkPoint 1 0 0; mkPoint 0 1 0] origin) /\
     sy seg = y (last [mkPoint 1 0 0; mkPoint 0 1 0] origin)) /\
  (length (fitArcsToPoints [mkPoint 1 0 0; mkPoint 0 1 0]) <= 2)%nat.
Proof.
  apply (fitArcsToPoints_ends_at_last_point [mkPoint 1 0 0; mkPoint 0 1 0]).
  discriminate.
Defined.

Lemma takeCutRun_rest moves :
  let isRapid := fun m => match Toolpath.type m with Toolpath.rapid => true | _ => false end in
  (length (snd (takeCutRun moves)) <= length moves)%nat /\
  filter isRapid (snd (takeCutRun moves)) = filter isRapid moves.
Proof.
  intros isRapid. induction moves as [| m rest IH]; cbn [takeCutRun]; [split; auto |].
  destruct (Toolpath.type m) eqn:Et; cbn [snd]; try (split; [lia | reflexivity]).
  destruct (takeCutRun rest) as [run rest']. cbn [snd length filter] in *.
  unfold isRapid at 2. rewrite Et. fold isRapid. split; [lia | apply IH].
Qed.

Lemma segmentToMove_not_rapid segs :
  filter (fun m => match Toolpath.type m with Toolpath.rapid => true | _ => false end)
    (map segmentToMove segs) = [].
Proof.
  induction segs as [| seg segs IH]; [reflexivity |].
  cbn [map filter]. unfold segmentToMove at 1.
  destruct (stype seg); cbn [Toolpath.type]; exact IH.
Qed.

Lemma replaceLoop_rapids fuel : forall moves out,
  let isRapid := fun m => match Toolpath.type m with Toolpath.rapid => true | _ => false end in
  (length moves <= fuel)%nat ->
  filter isRapid (replaceLoop fuel moves out) = filter isRapid out ++ filter isRapid moves.
Proof.
  intros moves out isRapid. revert moves out.
  induction fuel as [| f IH]; intros moves out Hf; cbn [replaceLoop].
  - destruct moves; [now rewrite app_nil_r | cbn in Hf; lia].
  - destruct moves as [| m rest]; [now rewrite app_nil_r |].
    cbn [length] in Hf.
    destruct (Toolpath.type m) eqn:Et.
    + assert (Hm : isRapid m = true) by (unfold isRapid; now rewrite Et).
      rewrite IH by lia. rewrite filter_app, <- app_assoc. cbn [filter app].
      now rewrite Hm.
    + pose proof (takeCutRun_rest (m :: rest)) as (Hl & Hr).
      pose proof (takeCutRun_rest rest) as (Hl' & _).
      cbn [takeCutRun] in *. rewrite Et in *.
      destruct (takeCutRun rest) as [run rest'] eqn:Erun. cbn [snd length] in *.
      rewrite IH by lia. rewrite filter_app.
      fold isRapid. rewrite (segmentToMove_not_rapid _), app_nil_r.
      f_equal. exact Hr.
    + assert (Hm : isRapid m = false) by (unfold isRapid; now rewrite Et).
      rewrite IH by lia. rewrite filter_app, <- app_assoc. cbn [filter app].
      now rewrite Hm.
Qed.

(** Replacing cut runs by fitted arcs leaves the rapid moves as they are and
    in their order: the rapids of the result are the rapids of the input. *)
Theorem replaceCutRunsWithArcs_keeps_rapids (moves : list Toolpath.Move) :
  let isRapid := fun m => match Toolpath.type m with Toolpath.rapid => true | _ => false end in
  filter isRapid (replaceCutRunsWithArcs moves) = filter isRapid moves.
Proof.
  intros isRapid. unfold replaceCutRunsWithArcs.
  apply (replaceLoop_rapids (length moves) moves []). lia.
Qed.

End CircleFacts.

(** ** Tab configuration and tab profile, for every configuration *)

Module TabProfileFacts.
Import Js JsFacts Geometry Tabs TabsFacts.

Lemma convex_between a b t :
  0 <= t <= 1 -> Rmin a b <= a + t * (b - a) <= Rmax a b.
Proof.
  intros Ht. unfold Rmin, Rmax. destruct (Rle_dec a b); split; nra.
Qed.

Lemma Rmin_Rmax_swap a b : Rmin b a = Rmin a b /\ Rmax b a = Rmax a b.
Proof. split; [apply Rmin_comm | apply Rmax_comm]. Qed.

Lemma zInRange_between s dz tz rl r :
  start r <= s <= end_ r ->
  Rmin dz tz <= zInRange s dz tz rl r <= Rmax dz tz.
Proof.
  intros Hs. unfold zInRange.
  set (rampLen := Rmin rl ((end_ r - start r) / 2)).
  assert (Htz : Rmin dz tz <= tz <= Rmax dz tz).
  { unfold Rmin, Rmax. destruct (Rle_dec dz tz); lra. }
  destruct (leb rampLen (/ 1000000000)) eqn:E0;
    [exact Htz | apply leb_nspec in E0].
  assert (Hr : 0 < rampLen) by lra.
  destruct (leb s (start r + rampLen)) eqn:E1;
    [apply leb_spec in E1 | apply leb_nspec in E1].
  - apply convex_between. split.
    + apply Rmult_le_pos; [lra | left; now apply Rinv_0_lt_compat].
    + apply (Rmult_le_reg_r rampLen); [exact Hr |].
      replace ((s - start r) / rampLen * rampLen) with (s - start r) by (field; lra). lra.
  - unfold geb. destruct (leb (end_ r - rampLen) s) eqn:E2;
      [apply leb_spec in E2 | exact Htz].
    destruct (Rmin_Rmax_swap dz tz) as [<- <-].
    apply convex_between. split.
    + apply Rmult_le_pos; [lra | left; now apply Rinv_0_lt_compat].
    + apply (Rmult_le_reg_r rampLen); [exact Hr |].
      replace ((s - (end_ r - rampLen)) / rampLen * rampLen)
        with (s - (end_ r - rampLen)) by (field; lra). lra.
Qed.

Lemma tabLoop_between s dz tz rl rs :
  Rmin dz tz <= tabLoop s dz tz rl rs <= Rmax dz tz.
Proof.
  induction rs as [| r rs IH]; cbn [tabLoop].
  - unfold Rmin, Rmax. destruct (Rle_dec dz tz); lra.
  - unfold gtb. destruct (ltb s (start r)) eqn:E1; [exact IH | apply ltb_nspec in E1].
    destruct (ltb (end_ r) s) eqn:E2; [exact IH | apply ltb_nspec in E2].
    cbn [orb]. apply zInRange_between. lra.
Qed.

(** Whatever the tab configuration and the position, the Z of the tab profile
    lies between the layer depth and the tab top: a tab never makes the cut
    deeper than the layer nor higher than the tab top or the layer. *)
Theorem getZForTabProfile_between (s depthZ : R) (tabConfig : option TabConfig) :
  match tabConfig with
  | None => getZForTabProfile s depthZ tabConfig = depthZ
  | Some tc =>
      Rmin depthZ (tabZ tc) <= getZForTabProfile s depthZ tabConfig
        <= Rmax depthZ (tabZ tc)
  end.
Proof.
  destruct tabConfig as [tc |]; [| reflexivity]. cbn [getZForTabProfile].
  assert (Hd : Rmin depthZ (tabZ tc) <= depthZ <= Rmax depthZ (tabZ tc)).
  { unfold Rmin, Rmax. destruct (Rle_dec depthZ (tabZ tc)); lra. }
  destruct (negb (enabled tc) || geb depthZ (tabZ tc + / 1000000)); [exact Hd |].
  destruct (leb _ _); [exact Hd |]. apply tabLoop_between.
Qed.

(** [buildTabConfig] returns no configuration exactly when the path has fewer
    than two points, when the interval, the width or the tab height is not
    positive, or when the path has no length. *)
Theorem buildTabConfig_none_iff (path : list Point)
  (interval width totalDepth tabHeight : R) :
  buildTabConfig path interval width totalDepth tabHeight = None <->
  (length path < 2)%nat \/ interval <= 0 \/ width <= 0 \/ tabHeight <= 0 \/
  closedLength path <= 0.
Proof.
  split.
  - intros Hnone.
    destruct (Nat.lt_ge_cases (length path) 2) as [| Hlen]; [now left | right].
    destruct (Rle_dec interval 0) as [| Hi]; [now left | right].
    destruct (Rle_dec width 0) as [| Hw]; [now left | right].
    destruct (Rle_dec tabHeight 0) as [| Hh]; [now left | right].
    destruct (Rle_dec (closedLength path) 0) as [| HL]; [assumption | exfalso].
    pose proof (buildTabConfig_some path interval width totalDepth tabHeight
                  ltac:(lra) ltac:(lra) ltac:(lra) ltac:(lra)) as Hs.
    cbv zeta in Hs. congruence.
  - unfold buildTabConfig. intros H.
    destruct (Nat.ltb_spec (length path) 2) as [| Hlen]; [reflexivity |]. cbn [orb].
    destruct (leb interval 0) eqn:Ei; [reflexivity | apply leb_nspec in Ei].
    destruct (leb width 0) eqn:Ew; [reflexivity | apply leb_nspec in Ew].
    destruct (leb tabHeight 0) eqn:Eh; [reflexivity | apply leb_nspec in Eh].
    cbn [orb].
    destruct H as [H | [H | [H | [H | H]]]]; try lia; try lra.
    unfold closedLength, closingLength in H.
    destruct (pathLengths path) as [cumDist totalLen]. cbn [snd] in H.
    destruct (Nat.leb_spec 2 (length path)) as [_ | ]; [| lia].
    pose proof (distance2D_nonneg (nthP path (length path - 1)) (nthP path 0)).
    rewrite leb_true by lra. reflexivity.
Qed.

Lemma pathLengths_fold path idxs : forall acc,
  fst acc <> [] -> last (fst acc) 0 = snd acc -> Sorted Rle (fst acc) ->
  let res := fold_left (lengthStep path) idxs acc in
  length (fst res) = (length (fst acc) + length idxs)%nat /\
  last (fst res) 0 = snd res /\ Sorted Rle (fst res) /\
  hd 0 (fst res) = hd 0 (fst acc).
Proof.
  induction idxs as [| i idxs IH]; intros acc Hne Hlast Hs; cbn [fold_left].
  - cbn [length]. repeat split; auto.
  - destruct (IH (lengthStep path acc i)) as (Hl & Hla & Hso & Hhd).
    + unfold lengthStep. cbn [fst]. destruct (fst acc); discriminate.
    + unfold lengthStep. cbn [fst snd]. apply last_last.
    + unfold lengthStep. cbn [fst].
      apply ContourFacts.Sorted_snoc with (d := 0); [exact Hs |].
      intros _. rewrite Hlast.
      pose proof (distance2D_nonneg (nthP path (i - 1)) (nthP path i)). lra.
    + split; [| split; [exact Hla | split; [exact Hso |]]].
      * rewrite Hl. unfold lengthStep. cbn [fst]. rewrite length_app. cbn [length]. lia.
      * rewrite Hhd. unfold lengthStep. cbn [fst]. destruct (fst acc); [congruence | reflexivity].
Qed.

(** A configuration returned by [buildTabConfig] is enabled, has at least one
    range, a tab top at or below Z = 0 and the width given; its cumulative
    lengths, one per path point, start at 0, never decrease and end at the
    total length, which is positive and at most the closed length. *)
Theorem buildTabConfig_record (path : list Point)
  (interval width totalDepth tabHeight : R) (cfg : TabConfig)
  (Hcfg : buildTabConfig path interval width totalDepth tabHeight = Some cfg) :
  enabled cfg = true /\ ranges cfg <> [] /\ tabZ cfg <= 0 /\ tabWidth cfg = width /\
  length (cumulative cfg) = length path /\
  hd 0 (cumulative cfg) = 0 /\
  last (cumulative cfg) 0 = totalLength cfg /\
  Sorted Rle (cumulative cfg) /\
  0 < totalLength cfg <= totalLengthClosed cfg.
Proof.
  unfold buildTabConfig in Hcfg.
  destruct (Nat.ltb_spec (length path) 2) as [| Hlen]; [discriminate |].
  destruct (_ || _); [discriminate |].
  destruct (pathLengths_fold path (seq 1 (length path - 1)) ([0], 0))
    as (Hl & Hla & Hso & Hhd); [discriminate | reflexivity | repeat constructor |].
  fold (pathLengths path) in Hl, Hla, Hso, Hhd.
  destruct (pathLengths path) as [cumDist totalLen]. cbn [fst snd] in *.
  destruct (leb totalLen 0) eqn:Et; [discriminate | apply leb_nspec in Et].
  destruct (fold_left _ _ _) as [| r0 rs]; [discriminate |].
  inversion Hcfg; subst cfg; clear Hcfg.
  cbn [enabled ranges tabZ tabWidth cumulative totalLength totalLengthClosed].
  split; [reflexivity |]. split; [discriminate |].
  split; [pose proof (Rmax_l 0 (totalDepth - tabHeight)); lra |].
  split; [reflexivity |].
  split; [rewrite Hl, length_seq; cbn [length]; lia |].
  split; [exact Hhd |]. split; [exact Hla |]. split; [exact Hso |].
  split; [exact Et |].
  unfold closingLength. destruct (2 <=? length path)%nat; [| lra].
  pose proof (distance2D_nonneg (nthP path (length path - 1)) (nthP path 0)). lra.
Qed.

Lemma buildTabConfig_record_witness :
  exists cfg, buildTabConfig square10 20 4 5 2 = Some cfg /\ enabled cfg = true.
Proof.
  assert (HL : 0 < closedLength square10)
    by (rewrite (proj2 square10_lengths); lra).
  pose proof (buildTabConfig_some square10 20 4 5 2
                ltac:(lra) ltac:(lra) ltac:(lra) HL) as E.
  cbv zeta in E. eexists. split; [exact E |].
  exact (proj1 (buildTabConfig_record square10 20 4 5 2 _ E)).
Defined.

End TabProfileFacts.

(** ** Input validation *)

Module ValidateFacts.
Import Js JsFacts Validate.

Lemma assertPositive_nil value labelKey :
  assertPositive value labelKey = [] -> finitePositive value.
Proof.
  unfold assertPositive, finitePositive.
  destruct value as [| | | v]; cbn [isFinite negb orb leN]; try discriminate.
  destruct (leb v 0) eqn:E; [discriminate | apply leb_nspec in E].
  intros _. exists v. now split.
Qed.

Lemma usableTool_positive n d : finitePositive n -> usableTool n = Some d -> n = Fin d.
Proof.
  intros (v & -> & Hv). cbn [usableTool]. unfold gtb. rewrite ltb_true by exact Hv.
  intros H. now inversion H.
Qed.

Lemma usableTool_of_positive n : finitePositive n -> exists d, n = Fin d /\ 0 < d /\
  usableTool n = Some d.
Proof.
  intros (v & -> & Hv). exists v. cbn [usableTool]. unfold gtb.
  rewrite ltb_true by exact Hv. auto.
Qed.

Ltac split_nil H :=
  repeat match type of H with
  | _ ++ _ = [] => let H1 := fresh "E" in apply app_eq_nil in H as [H1 H]
  end.

Lemma validateInputs_ok_inv raw p :
  validateInputs raw = Ok p -> p = raw /\ parameterErrors raw = [] /\ fitErrors raw = [].
Proof.
  unfold validateInputs.
  destruct (parameterErrors raw); [| discriminate].
  destruct (fitErrors raw); [| discriminate].
  intros H. inversion H. auto.
Qed.

(** Accepted input is returned as it is and has a known shape and finite
    positive total depth, stepdown (at most the total depth), feed rate and
    safe height; the lead-in height, when finite, is not negative; unless the
    shape is letters in outline mode, tool diameter and stepover are finite
    and positive with the stepover at most the tool diameter; and the ramp
    angle is finite and positive for the ramp entry. *)
Theorem validateInputs_ok_parameters (raw p : Raw)
  (Hok : validateInputs raw = Ok p) :
  let cp := cutParams raw in
  p = raw /\ shape raw <> None /\
  (exists td sd, totalDepth cp = Fin td /\ stepdown cp = Fin sd /\ 0 < sd <= td) /\
  finitePositive (feedrate cp) /\ finitePositive (safeHeight cp) /\
  (forall v, leadInAboveMm cp = Fin v -> 0 <= v) /\
  (isLettersOutline raw = false ->
   exists d so, toolDiameter cp = Fin d /\ stepover cp = Fin so /\ 0 < so <= d) /\
  (entryMethod cp = RAMP -> finitePositive (rampAngleMax cp)).
Proof.
  intros cp. apply validateInputs_ok_inv in Hok as (Hp & He & _).
  unfold parameterErrors in He. fold cp in He. split_nil He.
  rename E into Etool, E0 into Etd, E1 into Esd, E2 into Eso, E3 into Efeed,
    E4 into Esafe, E5 into Elead, E6 into Ebig, E7 into Eover, E8 into Eramp,
    E9 into Etabs.
  apply assertPositive_nil in Etd as (td & Htd & Htd0).
  apply assertPositive_nil in Esd as (sd & Hsd & Hsd0).
  split; [exact Hp |]. split.
  { intros Hs. unfold shapeErrors in He. rewrite Hs in He. discriminate. }
  split.
  { exists td, sd. split; [exact Htd |]. split; [exact Hsd |].
    rewrite Htd, Hsd in Ebig. cbn [gtN ltN] in Ebig.
    destruct (ltb td sd) eqn:E; [discriminate | apply ltb_nspec in E]. lra. }
  split; [now apply assertPositive_nil in Efeed |].
  split; [now apply assertPositive_nil in Esafe |].
  split.
  { intros v Hv. rewrite Hv in Elead. cbn [isFinite andb ltN] in Elead.
    destruct (ltb v 0) eqn:E; [discriminate | now apply ltb_nspec in E]. }
  split.
  - intros Hlo. rewrite Hlo in Etool, Eso, Eover.
    apply assertPositive_nil in Etool as (d & Hd & Hd0).
    apply assertPositive_nil in Eso as (so & Hso & Hso0).
    exists d, so. split; [exact Hd |]. split; [exact Hso |].
    rewrite Hd, Hso in Eover. cbn [negb isFinite andb gtN ltN] in Eover.
    destruct (ltb d so) eqn:E; [discriminate | apply ltb_nspec in E]. lra.
  - intros Hr. rewrite Hr in Eramp. now apply assertPositive_nil in Eramp.
Qed.

Lemma validateInputs_shape_dims raw :
  parameterErrors raw = [] ->
  let cp := cutParams raw in
  let sp := shapeParams raw in
  match shape raw with
  | Some Generate.CIRCLE => finitePositive (diameter sp)
  | Some Generate.SQUARE => finitePositive (size sp)
  | Some Generate.RECTANGLE | Some Generate.FACING =>
      finitePositive (width sp) /\ finitePositive (height sp)
  | Some Generate.ELLIPSE => finitePositive (major sp) /\ finitePositive (minor sp)
  | Some Generate.LETTERS => textBlank sp = false /\ finitePositive (fontSize sp)
  | Some Generate.COUNTERSUNK_BOLT =>
      exists hd cd bd td,
        headDiameter sp = Fin hd /\ countersinkDepth sp = Fin cd /\
        boltDiameter sp = Fin bd /\ totalDepth cp = Fin td /\
        0 < bd <= hd /\ 0 < cd < td
  | Some Generate.PATTERNED_HOLES =>
      finitePositive (diameter sp) /\ finitePositive (spacingX sp) /\
      finitePositive (spacingY sp) /\
      (exists nx, countX sp = Fin nx /\ 1 <= nx) /\
      (exists ny, countY sp = Fin ny /\ 1 <= ny)
  | None => False
  end.
Proof.
  intros He cp sp. unfold parameterErrors in He. fold cp in He. split_nil He.
  apply assertPositive_nil in E0 as (td & Htd & Htd0).
  unfold shapeErrors in He. fold cp sp in He.
  destruct (shape raw) as [[| | | | | | |] |]; split_nil He;
    try discriminate;
    repeat match goal with
    | H : assertPositive _ _ = [] |- _ => apply assertPositive_nil in H
    end; auto.
  - (* LETTERS *)
    split; [| assumption]. destruct (textBlank sp); [discriminate | reflexivity].
  - (* COUNTERSUNK_BOLT *)
    match goal with
    | H1 : finitePositive (headDiameter sp), H2 : finitePositive (countersinkDepth sp),
      H3 : finitePositive (boltDiameter sp) |- _ =>
        destruct H1 as (hd & Hhd & Hhd0); destruct H2 as (cd & Hcd & Hcd0);
        destruct H3 as (bd & Hbd & Hbd0)
    end.
    exists hd, cd, bd, td. rewrite Htd, Hhd, Hcd, Hbd in *.
    cbn [isFinite andb ltN] in He.
    repeat match goal with
    | H : (if ?c then _ else _) = [] |- _ =>
        let E := fresh "C" in destruct c eqn:E; [discriminate | clear H]
    end.
    repeat match goal with
    | H : ltb _ _ = false |- _ => apply ltb_nspec in H
    | H : leb _ _ = false |- _ => apply leb_nspec in H
    end.
    repeat split; try reflexivity; lra.
  - (* PATTERNED_HOLES *)
    repeat split; try assumption.
    + destruct (countX sp) as [| | | nx]; try discriminate.
      cbn [isFinite negb orb ltN] in *.
      match goal with
      | H : (if ltb nx 1 then _ else _) = [] |- _ =>
          destruct (ltb nx 1) eqn:C; [discriminate | apply ltb_nspec in C]
      end.
      exists nx. now split.
    + destruct (countY sp) as [| | | ny]; try discriminate.
      cbn [isFinite negb orb ltN] in *.
      match goal with
      | H : (if ltb ny 1 then _ else _) = [] |- _ =>
          destruct (ltb ny 1) eqn:C; [discriminate | apply ltb_nspec in C]
      end.
      exists ny. now split.
Qed.

Lemma validateInputs_tool raw :
  parameterErrors raw = [] -> isLettersOutline raw = false ->
  exists d, toolDiameter (cutParams raw) = Fin d /\ 0 < d /\
            usableTool (toolDiameter (cutParams raw)) = Some d.
Proof.
  intros He Hlo. unfold parameterErrors in He. rewrite Hlo in He. split_nil He.
  apply assertPositive_nil in E. now apply usableTool_of_positive.
Qed.

Lemma minN_fin a b : minN (Fin a) (Fin b) = Fin (Rmin a b).
Proof.
  cbn [minN ltN]. unfold Rmin.
  destruct (ltb b a) eqn:E; [apply ltb_spec in E | apply ltb_nspec in E];
    destruct (Rle_dec a b); f_equal; lra.
Qed.

Lemma circlePocket_ok : validateInputs circlePocket = Ok circlePocket.
Proof.
  unfold validateInputs, parameterErrors, fitErrors, shapeErrors, circlePocket,
    assertPositive, usableTool, isLettersOutline, getShapeMinSize, gtN, gtb.
  cbn [shape letterMode operation contourType facingMode cutParams shapeParams tabs
       toolDiameter totalDepth stepdown stepover feedrate safeHeight leadInAboveMm
       entryMethod rampAngleMax diameter isFinite negb orb andb leN ltN].
  repeat first [rewrite ltb_true by lra | rewrite ltb_false by lra
               | rewrite leb_true by lra | rewrite leb_false by lra].
  reflexivity.
Qed.

(** Accepted input has the dimensions of its shape finite and positive (for
    letters: a text that is not blank and a positive size; for the countersunk
    bolt: the bolt no wider than the head and the countersink shallower than
    the total depth; for patterned holes: counts of at least 1). *)
Lemma validateInputs_ok_shape (raw p : Raw) (Hok : validateInputs raw = Ok p) :
  let cp := cutParams raw in
  let sp := shapeParams raw in
  match shape raw with
  | Some Generate.CIRCLE => finitePositive (diameter sp)
  | Some Generate.SQUARE => finitePositive (size sp)
  | Some Generate.RECTANGLE | Some Generate.FACING =>
      finitePositive (width sp) /\ finitePositive (height sp)
  | Some Generate.ELLIPSE => finitePositive (major sp) /\ finitePositive (minor sp)
  | Some Generate.LETTERS => textBlank sp = false /\ finitePositive (fontSize sp)
  | Some Generate.COUNTERSUNK_BOLT =>
      exists hd cd bd td,
        headDiameter sp = Fin hd /\ countersinkDepth sp = Fin cd /\
        boltDiameter sp = Fin bd /\ totalDepth cp = Fin td /\
        0 < bd <= hd /\ 0 < cd < td
  | Some Generate.PATTERNED_HOLES =>
      finitePositive (diameter sp) /\ finitePositive (spacingX sp) /\
      finitePositive (spacingY sp) /\
      (exists nx, countX sp = Fin nx /\ 1 <= nx) /\
      (exists ny, countY sp = Fin ny /\ 1 <= ny)
  | None => False
  end.
Proof.
  apply validateInputs_ok_inv in Hok as (_ & He & _).
  now apply validateInputs_shape_dims.
Qed.

Lemma validateInputs_ok_parameters_witness :
  exists td sd, Fin 3 = Fin td /\ Fin 1 = Fin sd /\ 0 < sd <= td.
Proof.
  exact (proj1 (proj2 (proj2
    (validateInputs_ok_parameters circlePocket circlePocket circlePocket_ok)))).
Defined.

Lemma getShapeMinSize_finite raw :
  parameterErrors raw = [] ->
  shape raw <> Some Generate.LETTERS -> shape raw <> Some Generate.COUNTERSUNK_BOLT ->
  exists m, getShapeMinSize (shape raw) (shapeParams raw) = Fin m.
Proof.
  intros He Hl Hb. pose proof (validateInputs_shape_dims raw He) as Hd.
  cbv zeta in Hd. unfold getShapeMinSize.
  destruct (shape raw) as [[| | | | | | |] |]; try congruence; try contradiction.
  - destruct Hd as (v & -> & _). eauto.
  - destruct Hd as (v & -> & _). eauto.
  - destruct Hd as ((w & -> & _) & (h & -> & _)). rewrite minN_fin. eauto.
  - destruct Hd as ((w & -> & _) & (h & -> & _)). rewrite minN_fin. eauto.
  - destruct Hd as ((w & -> & _) & (h & -> & _)). rewrite minN_fin. eauto.
  - destruct Hd as ((v & -> & _) & _). eauto.
Qed.

Lemma not_letters_outline raw :
  shape raw <> Some Generate.LETTERS -> isLettersOutline raw = false.
Proof.
  unfold isLettersOutline. intros H.
  destruct (shape raw) as [[| | | | | | |] |]; try reflexivity. congruence.
Qed.

(** Accepted input fits the tool: for a pocket or an inside contour of a
    shape other than letters and countersunk bolt the tool diameter is at most
    the smallest size of the shape plus 1e-6; for a countersunk bolt it is at
    most the head and the bolt diameter plus 1e-6; and for facing within the
    area it is below the shorter side plus 1e-6. *)
Lemma validateInputs_ok_tool_fits (raw p : Raw) (Hok : validateInputs raw = Ok p) :
  let cp := cutParams raw in
  let sp := shapeParams raw in
  (pocketOrInsideContour raw ->
   shape raw <> Some Generate.LETTERS -> shape raw <> Some Generate.COUNTERSUNK_BOLT ->
   exists m d, getShapeMinSize (shape raw) sp = Fin m /\ toolDiameter cp = Fin d /\
               0 < d <= m + / 1000000) /\
  (shape raw = Some Generate.COUNTERSUNK_BOLT ->
   exists hd bd d, headDiameter sp = Fin hd /\ boltDiameter sp = Fin bd /\
                   toolDiameter cp = Fin d /\
                   0 < d /\ d <= hd + / 1000000 /\ d <= bd + / 1000000) /\
  (shape raw = Some Generate.FACING -> facingMode raw = within ->
   exists w h d, width sp = Fin w /\ height sp = Fin h /\ toolDiameter cp = Fin d /\
                 0 < d < Rmin w h + / 1000000).
Proof.
  intros cp sp. apply validateInputs_ok_inv in Hok as (_ & He & Hf).
  pose proof (validateInputs_shape_dims raw He) as Hd. cbv zeta in Hd. fold cp sp in Hd.
  unfold fitErrors in Hf. fold cp sp in Hf. split_nil Hf.
  rename E into Hfit, E0 into Hbolt.
  split; [| split].
  - intros Hop Hl Hb.
    destruct (validateInputs_tool raw He (not_letters_outline raw Hl))
      as (d & Htool & Hd0 & Hu).
    fold cp in Htool, Hu. rewrite Hu in Hfit.
    destruct (getShapeMinSize_finite raw He Hl Hb) as (m & Hm). fold sp in Hm.
    rewrite Hm in Hfit. exists m, d. split; [exact Hm |]. split; [exact Htool |].
    assert (Hcond : negb (match shape raw with Some Generate.LETTERS => true | _ => false end)
                    && negb (match shape raw with
                             | Some Generate.COUNTERSUNK_BOLT => true | _ => false end)
                    && match operation raw, contourType raw with
                       | Toolpath.POCKET, _ => true
                       | Toolpath.CONTOUR, Toolpath.inside => true
                       | _, _ => false
                       end = true).
    { destruct Hop as [-> | [-> ->]];
        destruct (shape raw) as [[| | | | | | |] |]; try reflexivity; congruence. }
    rewrite Hcond in Hfit.
    destruct (ltb (m + / 1000000) d) eqn:C; [discriminate | apply ltb_nspec in C]. lra.
  - intros Hs.
    assert (Hl : shape raw <> Some Generate.LETTERS) by (rewrite Hs; discriminate).
    destruct (validateInputs_tool raw He (not_letters_outline raw Hl))
      as (d & Htool & Hd0 & Hu).
    fold cp in Htool, Hu. rewrite Hu, Hs in Hbolt. rewrite Hs in Hd.
    destruct Hd as (hd & cd & bd & td & Hhd & _ & Hbd & _).
    rewrite Hhd, Hbd in Hbolt. apply app_eq_nil in Hbolt as [Hb1 Hb2].
    exists hd, bd, d. split; [exact Hhd |]. split; [exact Hbd |]. split; [exact Htool |].
    destruct (ltb (hd + / 1000000) d) eqn:C1; [discriminate | apply ltb_nspec in C1].
    destruct (ltb (bd + / 1000000) d) eqn:C2; [discriminate | apply ltb_nspec in C2].
    lra.
  - intros Hs Hw.
    assert (Hl : shape raw <> Some Generate.LETTERS) by (rewrite Hs; discriminate).
    destruct (validateInputs_tool raw He (not_letters_outline raw Hl))
      as (d & Htool & Hd0 & Hu).
    fold cp in Htool, Hu. rewrite Hu, Hs, Hw in Hf. rewrite Hs in Hd.
    destruct Hd as ((w & Hwd & _) & (h & Hht & _)).
    rewrite Hwd, Hht in Hf. rewrite orb_true_r in Hf.
    exists w, h, d. split; [exact Hwd |]. split; [exact Hht |]. split; [exact Htool |].
    destruct (leb (Rmin w h + / 1000000) d) eqn:C; [discriminate | apply leb_nspec in C].
    lra.
Qed.

(** Accepted input has the dimensions of its shape finite and positive (for
    letters: a text that is not blank and a positive size; for the countersunk
    bolt: the bolt no wider than the head and the countersink shallower than
    the total depth; for patterned holes: counts of at least 1), and it fits
    the tool: for a pocket or an inside contour of a shape other than letters
    and countersunk bolt the tool diameter is at most the smallest size of
    the shape plus 1e-6; for a countersunk bolt it is at most the head and the
    bolt diameter plus 1e-6; for facing within the area it is below the
    shorter side plus 1e-6. *)
Theorem validateInputs_ok_shape_fits (raw p : Raw) (Hok : validateInputs raw = Ok p) :
  let cp := cutParams raw in
  let sp := shapeParams raw in
  match shape raw with
  | Some Generate.CIRCLE => finitePositive (diameter sp)
  | Some Generate.SQUARE => finitePositive (size sp)
  | Some Generate.RECTANGLE | Some Generate.FACING =>
      finitePositive (width sp) /\ finitePositive (height sp)
  | Some Generate.ELLIPSE => finitePositive (major sp) /\ finitePositive (minor sp)
  | Some Generate.LETTERS => textBlank sp = false /\ finitePositive (fontSize sp)
  | Some Generate.COUNTERSUNK_BOLT =>
      exists hd cd bd td,
        headDiameter sp = Fin hd /\ countersinkDepth sp = Fin cd /\
        boltDiameter sp = Fin bd /\ totalDepth cp = Fin td /\
        0 < bd <= hd /\ 0 < cd < td
  | Some Generate.PATTERNED_HOLES =>
      finitePositive (diameter sp) /\ finitePositive (spacingX sp) /\
      finitePositive (spacingY sp) /\
      (exists nx, countX sp = Fin nx /\ 1 <= nx) /\
      (exists ny, countY sp = Fin ny /\ 1 <= ny)
  | None => False
  end /\
  (pocketOrInsideContour raw ->
   shape raw <> Some Generate.LETTERS -> shape raw <> Some Generate.COUNTERSUNK_BOLT ->
   exists m d, getShapeMinSize (shape raw) sp = Fin m /\ toolDiameter cp = Fin d /\
               0 < d <= m + / 1000000) /\
  (shape raw = Some Generate.COUNTERSUNK_BOLT ->
   exists hd bd d, headDiameter sp = Fin hd /\ boltDiameter sp = Fin bd /\
                   toolDiameter cp = Fin d /\
                   0 < d /\ d <= hd + / 1000000 /\ d <= bd + / 1000000) /\
  (shape raw = Some Generate.FACING -> facingMode raw = within ->
   exists w h d, width sp = Fin w /\ height sp = Fin h /\ toolDiameter cp = Fin d /\
                 0 < d < Rmin w h + / 1000000).
Proof.
  intros cp sp. split.
  - exact (validateInputs_ok_shape raw p Hok).
  - exact (validateInputs_ok_tool_fits raw p Hok).
Qed.

Lemma validateInputs_ok_shape_fits_witness :
  finitePositive (Fin 20) /\
  exists m d, Fin 20 = Fin m /\ Fin 6 = Fin d /\ 0 < d <= m + / 1000000.
Proof.
  pose proof (validateInputs_ok_shape_fits circlePocket circlePocket circlePocket_ok)
    as (Hshape & Hfit & _).
  split; [exact Hshape |].
  apply Hfit; [left; reflexivity | discriminate | discriminate].
Defined.

End ValidateFacts.

(** ** Number of segments of a circle *)

Module SegmentsFacts.
Import Js JsFacts Spiral.

(** The number of segments is between 4 and 360, it is 4 for a radius that is
    not positive, and whenever it is below the cap of 360 the polygon stays
    within the tolerance: the sagitta [r * (1 - cos (PI / n))] of a side is at
    most 0.01 mm. *)
Theorem segmentsForCircleRadius_sagitta (radiusMm : R) :
  let n := segmentsForCircleRadius radiusMm in
  (4 <= n <= 360)%nat /\
  (radiusMm <= 0 -> n = 4%nat) /\
  (0 < radiusMm -> (n < 360)%nat ->
   radiusMm * (1 - cos (PI / INR n)) <= CIRCLE_TOLERANCE_MM).
Proof.
  intros n. subst n. unfold segmentsForCircleRadius.
  destruct (leb radiusMm 0) eqn:E; [apply leb_spec in E | apply leb_nspec in E].
  { split; [lia |]. split; [reflexivity | intros; lra]. }
  set (arg := Rmax (-1) (1 - CIRCLE_TOLERANCE_MM / radiusMm)).
  set (k := ceil (PI / acos arg)).
  split; [lia |]. split; [intros; lra |].
  intros Hr Hcap.
  assert (Htol : 0 < CIRCLE_TOLERANCE_MM / radiusMm).
  { unfold CIRCLE_TOLERANCE_MM. apply Rdiv_lt_0_compat; lra. }
  assert (Harg : -1 <= arg < 1).
  { unfold arg, Rmax. destruct (Rle_dec (-1) (1 - CIRCLE_TOLERANCE_MM / radiusMm)); lra. }
  assert (Hge : 1 - CIRCLE_TOLERANCE_MM / radiusMm <= arg) by apply Rmax_r.
  pose proof (acos_bound arg) as [Ha0 Hapi].
  assert (Hcos : cos (acos arg) = arg) by (apply cos_acos; lra).
  assert (Ha : 0 < acos arg).
  { destruct Ha0 as [| H0]; [assumption |]. rewrite <- H0, cos_0 in Hcos. lra. }
  pose proof PI_RGT_0 as Hpi.
  assert (Hk : PI / acos arg <= IZR k) by (unfold k, ceil; apply Zceil_bound).
  assert (Hkpos : 0 < IZR k).
  { apply Rlt_le_trans with (PI / acos arg); [| exact Hk].
    apply Rdiv_lt_0_compat; lra. }
  set (m := Z.to_nat (Z.max 4 (Z.min 360 k))) in *.
  assert (Hm : IZR k <= INR m).
  { unfold m. rewrite INR_IZR_INZ, Z2Nat.id by lia. apply IZR_le. lia. }
  assert (Hm4 : 4 <= INR m).
  { unfold m. rewrite INR_IZR_INZ, Z2Nat.id by lia. apply IZR_le. lia. }
  assert (Hangle : PI / INR m <= acos arg).
  { apply (Rmult_le_reg_r (INR m)); [lra |].
    replace (PI / INR m * INR m) with PI by (field; lra).
    apply Rle_trans with (acos arg * IZR k); [| apply Rmult_le_compat_l; lra].
    apply (Rmult_le_reg_r (/ acos arg)); [now apply Rinv_0_lt_compat |].
    replace (acos arg * IZR k * / acos arg) with (IZR k) by (field; lra).
    exact Hk. }
  assert (Hpos : 0 <= PI / INR m)
    by (apply Rmult_le_pos; [lra | left; apply Rinv_0_lt_compat; lra]).
  pose proof (cos_decr_1 (PI / INR m) (acos arg) Hpos ltac:(lra) ltac:(lra) Hapi Hangle)
    as Hdec.
  rewrite Hcos in Hdec.
  assert (H1 : 1 - cos (PI / INR m) <= CIRCLE_TOLERANCE_MM / radiusMm) by lra.
  apply (Rmult_le_compat_l radiusMm) in H1; [| lra].
  replace (radiusMm * (CIRCLE_TOLERANCE_MM / radiusMm)) with CIRCLE_TOLERANCE_MM in H1
    by (field; lra).
  exact H1.
Qed.

End SegmentsFacts.

(** ** Spiral pocket of an ellipse *)

Module SpiralEllipseFacts.
Import Js JsFacts Geometry Spiral SpiralFacts SpiralEllipse.

Lemma scaled_within rx ry sc angle :
  0 <= sc <= 1 -> within_ellipse rx ry (ellipsePoint (sc * rx) (sc * ry) angle).
Proof.
  intros Hs. unfold within_ellipse, ellipsePoint. cbn [x y z]. split; [reflexivity |].
  pose proof (LettersFacts.cos_sin_unit angle) as H.
  replace (sc * rx * cos angle * ry * (sc * rx * cos angle * ry) +
           sc * ry * sin angle * rx * (sc * ry * sin angle * rx))
    with (sc * sc * (rx * ry * (rx * ry)) * (cos angle * cos angle + sin angle * sin angle))
    by ring.
  rewrite H, Rmult_1_r.
  assert (H0 : 0 <= rx * ry * (rx * ry)) by nra.
  assert (H1 : sc * sc <= 1) by nra. nra.
Qed.

Lemma point_on_ellipse rx ry angle : on_ellipse rx ry (ellipsePoint rx ry angle).
Proof.
  unfold on_ellipse, ellipsePoint. cbn [x y z]. split; [reflexivity |].
  pose proof (LettersFacts.cos_sin_unit angle) as H.
  replace (rx * cos angle * ry * (rx * cos angle * ry) +
           ry * sin angle * rx * (ry * sin angle * rx))
    with (rx * ry * (rx * ry) * (cos angle * cos angle + sin angle * sin angle)) by ring.
  rewrite H. ring.
Qed.

Lemma on_within rx ry p : on_ellipse rx ry p -> within_ellipse rx ry p.
Proof. intros [Hz He]. split; [exact Hz | rewrite He; lra]. Qed.

(** The spiral pocket of an ellipse (stepover not zero, tool radius not
    negative) is empty when the tool does not fit in one of the axes;
    otherwise every point of the path lies in the plane Z = 0 inside or on
    the ellipse whose half axes are those of the pocket less the tool radius,
    and the path ends with one full round of points on that ellipse. *)
Theorem generateSpiralPocketEllipse_within (major minor stepover toolRadius : R)
  (Hstep : stepover <> 0) (Htool : 0 <= toolRadius) :
  let rxMax := major / 2 - toolRadius in
  let ryMax := minor / 2 - toolRadius in
  let path := generateSpiralPocketEllipse major minor stepover toolRadius in
  (rxMax <= 0 \/ ryMax <= 0 -> path = []) /\
  (0 < rxMax -> 0 < ryMax ->
   Forall (within_ellipse rxMax ryMax) path /\
   exists front ring,
     path = front ++ ring /\
     length ring = segmentsForCircleRadius (Rmax rxMax ryMax) /\
     Forall (on_ellipse rxMax ryMax) ring).
Proof.
  intros rxMax ryMax path. subst path. unfold generateSpiralPocketEllipse.
  fold rxMax ryMax. split.
  - intros [H | H].
    + rewrite (leb_true rxMax 0) by exact H. reflexivity.
    + rewrite (leb_true ryMax 0) by exact H. now rewrite orb_true_r.
  - intros Hx Hy. rewrite (leb_false rxMax 0), (leb_false ryMax 0) by assumption.
    cbn [orb].
    set (segments := segmentsForCircleRadius (Rmax rxMax ryMax)).
    assert (Hseg : (4 <= segments)%nat) by apply segmentsForCircleRadius_ge4.
    set (minR := Rmin rxMax ryMax).
    assert (HminR : 0 < minR) by (unfold minR; apply Rmin_glb_lt; assumption).
    unfold gtb. rewrite (ltb_true 0 minR) by exact HminR.
    set (rMin := toolRadius / minR).
    assert (HrMin : 0 <= rMin).
    { unfold rMin. apply Rmult_le_pos; [exact Htool | left; now apply Rinv_0_lt_compat]. }
    destruct (leb (1 - rMin) (/ 1000000000)) eqn:E;
      [apply leb_spec in E | apply leb_nspec in E].
    + split.
      * apply Forall_map_seq. intros i _. apply on_within, point_on_ellipse.
      * cbn [seq map]. eexists [_], _. split; [reflexivity |]. split.
        -- now rewrite length_map, length_seq.
        -- apply Forall_map_seq. intros i _. apply point_on_ellipse.
    + set (turns := turnsOf ((1 - rMin) * minR) stepover).
      set (steps := Z.max (Z.of_nat segments * turns) 1).
      assert (Hsteps : 0 < IZR steps) by (apply IZR_lt; unfold steps; lia).
      split.
      * apply Forall_app. split; [| apply Forall_app; split].
        -- apply Forall_map_seq. intros i _. apply scaled_within. lra.
        -- apply Forall_map_seq. intros i Hi. apply scaled_within.
           assert (Hi0 : 0 <= INR i) by apply pos_INR.
           assert (Hi1 : INR i <= IZR steps).
           { rewrite INR_IZR_INZ. apply IZR_le. lia. }
           assert (Hq : 0 <= INR i / IZR steps <= 1).
           { split.
             - apply Rmult_le_pos; [lra | left; now apply Rinv_0_lt_compat].
             - apply (Rmult_le_reg_r (IZR steps)); [exact Hsteps |].
               replace (INR i / IZR steps * IZR steps) with (INR i) by (field; lra). lra. }
           replace ((1 - rMin) * INR i / IZR steps)
             with ((1 - rMin) * (INR i / IZR steps)) by (field; lra).
           split; nra.
        -- apply Forall_map_seq. intros i _. apply on_within, point_on_ellipse.
      * eexists _, _. split; [rewrite app_assoc; reflexivity |]. split.
        -- now rewrite length_map, length_seq.
        -- apply Forall_map_seq. intros i _. apply point_on_ellipse.
Qed.

Lemma generateSpiralPocketEllipse_within_witness :
  Forall (within_ellipse (20 / 2 - 3) (10 / 2 - 3)) (generateSpiralPocketEllipse 20 10 2 3).
Proof.
  assert (Hstep : 2 <> 0) by lra.
  assert (Htool : 0 <= 3) by lra.
  destruct (proj2 (generateSpiralPocketEllipse_within 20 10 2 3 Hstep Htool)) as [H _];
    [lra | lra | exact H].
Defined.

End SpiralEllipseFacts.

(** ** Facing strips *)

Module FacingFacts.
Import Js JsFacts Geometry Generate Facing.

Lemma facingLoop_run hwEff hhEff stepover m : forall fuel y reverse paths,
  (forall j, (j < m)%nat -> y + INR j * stepover <= hhEff + / 1000000000) ->
  hhEff + / 1000000000 < y + INR m * stepover ->
  (m < fuel)%nat ->
  facingLoop fuel hwEff hhEff stepover y reverse paths =
  Some (paths ++ map (fun j => strip hwEff (y + INR j * stepover) (xorb reverse (Nat.odd j)))
                   (seq 0 m)).
Proof.
  induction m as [| m IH]; intros fuel y reverse paths Hin Hout Hfuel;
    (destruct fuel as [| k]; [lia |]); cbn [facingLoop].
  - cbn [INR] in Hout. rewrite leb_false by lra. cbn [seq map]. now rewrite app_nil_r.
  - pose proof (Hin 0%nat ltac:(lia)) as H0. cbn [INR] in H0.
    rewrite leb_true by lra.
    rewrite IH; [| | | lia].
    + f_equal. rewrite <- app_assoc. f_equal. cbn [app seq map].
      f_equal.
      * cbn [INR Nat.odd]. rewrite xorb_false_r. f_equal. ring.
      * rewrite <- seq_shift, map_map. apply map_ext. intros j.
        rewrite Nat.odd_succ, <- Nat.negb_odd, S_INR.
        replace (y + stepover + INR j * stepover) with (y + (INR j + 1) * stepover) by ring.
        f_equal. destruct reverse, (Nat.odd j); reflexivity.
    + intros j Hj. specialize (Hin (S j) ltac:(lia)). rewrite S_INR in Hin. lra.
    + rewrite S_INR in Hout. lra.
Qed.

Lemma facingLoop_never_ends hwEff hhEff stepover fuel : forall y reverse paths,
  stepover <= 0 -> y <= hhEff + / 1000000000 ->
  facingLoop fuel hwEff hhEff stepover y reverse paths = None.
Proof.
  induction fuel as [| k IH]; intros y reverse paths Hs Hy; cbn [facingLoop];
    [reflexivity |].
  rewrite leb_true by exact Hy. apply IH; [exact Hs | lra].
Qed.

(** On a positive effective area: with a positive stepover the facing loop
    ends after [floor((2 * hhEff + 1e-9) / stepover) + 1] strips, strip [j]
    running at [y = -hhEff + j * stepover] between [x = -hwEff] and
    [x = hwEff], from left to right for even [j] and back for odd [j]; with a
    stepover that is not positive the loop never ends. *)
Theorem generateFacingPaths_strips (shape : ShapeType) (sp : ShapeParams)
  (stepover toolRadius : R) (isWithin : bool) :
  let hw := (match shape with SQUARE => size sp | _ => width sp end) / 2 in
  let hh := (match shape with SQUARE => size sp | _ => height sp end) / 2 in
  let hwEff := if isWithin then hw - toolRadius else hw in
  let hhEff := if isWithin then hh - toolRadius else hh in
  0 < hwEff -> 0 < hhEff ->
  (0 < stepover ->
   forall fuel, (stripCount hhEff stepover < fuel)%nat ->
     generateFacingPaths fuel shape sp stepover toolRadius isWithin =
     Some (map (fun j => strip hwEff (- hhEff + INR j * stepover) (Nat.odd j))
             (seq 0 (stripCount hhEff stepover)))) /\
  (stepover <= 0 ->
   forall fuel, generateFacingPaths fuel shape sp stepover toolRadius isWithin = None).
Proof.
  intros hw hh hwEff hhEff Hw Hh.
  unfold generateFacingPaths. fold hw hh. fold hwEff hhEff.
  rewrite (leb_false hwEff 0), (leb_false hhEff 0) by assumption. cbn [orb].
  split; [| intros Hs fuel; apply facingLoop_never_ends; [exact Hs | lra]].
  intros Hs fuel Hfuel.
  set (q := (2 * hhEff + / 1000000000) / stepover) in *.
  assert (Hq : 0 <= q).
  { unfold q. apply Rmult_le_pos; [lra | left; now apply Rinv_0_lt_compat]. }
  assert (Hfl : (0 <= Zfloor q)%Z).
  { apply le_IZR. destruct (Zfloor_bound q) as [_ Hb].
    assert (H1 : -1 < IZR (Zfloor q)) by lra.
    apply lt_IZR in H1. apply IZR_le. lia. }
  assert (Hn : INR (Z.to_nat (Zfloor q)) = IZR (Zfloor q))
    by (rewrite INR_IZR_INZ, Z2Nat.id by exact Hfl; reflexivity).
  assert (Hqs : q * stepover = 2 * hhEff + / 1000000000) by (unfold q; field; lra).
  destruct (Zfloor_bound q) as [Hlo Hhi].
  rewrite (facingLoop_run hwEff hhEff stepover (stripCount hhEff stepover));
    [reflexivity | | | exact Hfuel].
  - intros j Hj. unfold stripCount in Hj. fold q in Hj.
    assert (Hj' : INR j <= IZR (Zfloor q)) by (rewrite <- Hn; apply le_INR; lia).
    assert (INR j * stepover <= q * stepover) by (apply Rmult_le_compat_r; lra).
    lra.
  - unfold stripCount. fold q. rewrite S_INR, Hn.
    assert (q * stepover < (IZR (Zfloor q) + 1) * stepover)
      by (apply Rmult_lt_compat_r; lra).
    lra.
Qed.

Lemma generateFacingPaths_strips_witness :
  generateFacingPaths 100 RECTANGLE (mkShapeParams 0 0 20 10 0 0 0 0 0) 4 3 true =
  Some (map (fun j => strip (20 / 2 - 3) (- (10 / 2 - 3) + INR j * 4) (Nat.odd j))
          (seq 0 (stripCount (10 / 2 - 3) 4))).
Proof.
  assert (Hq : Zfloor ((2 * (10 / 2 - 3) + / 1000000000) / 4) = 1%Z)
    by (apply Zfloor_eq; lra).
  assert (Hw : 0 < 20 / 2 - 3) by lra.
  assert (Hh : 0 < 10 / 2 - 3) by lra.
  apply (proj1 (generateFacingPaths_strips RECTANGLE (mkShapeParams 0 0 20 10 0 0 0 0 0)
                  4 3 true Hw Hh)); [lra |].
  cbn [height]. unfold stripCount. rewrite Hq. cbn. lia.
Defined.

End FacingFacts.

(** ** Spiral pocket of a square or rectangle *)

Module SpiralRectangleFacts.
Import Js JsFacts Geometry Generate SpiralRectangle.

Ltac in_rectangle :=
  repeat (apply Forall_cons;
          [unfold within_rectangle; cbn [x y z]; repeat split; lra |]);
  apply Forall_nil.

(** Enough iterations end the winding loop, with the same path whatever the
    fuel left over, all of whose new points lie within the rectangle. *)
Lemma windLoop_ends hw hh stepover n : forall L R B T path,
  0 < stepover ->
  - hw <= L -> R <= hw -> - hh <= B -> T <= hh ->
  R - L <= 2 * INR n * stepover + / 1000000000 ->
  exists added,
    Forall (within_rectangle hw hh) added /\
    forall fuel, (n < fuel)%nat ->
      windLoop fuel stepover L R B T path = Some (path ++ added).
Proof.
  induction n as [| n IH]; intros L R B T path Hs HL HR HB HT Hn.
  - exists []. split; [constructor |]. intros fuel Hf.
    destruct fuel as [| k]; [lia |]. cbn [windLoop]. cbn [INR] in Hn.
    rewrite (ltb_false L (R - / 1000000000)) by lra. cbn [andb].
    now rewrite app_nil_r.
  - destruct (ltb L (R - / 1000000000)) eqn:E1;
      [apply ltb_spec in E1 |].
    2:{ exists []. split; [constructor |]. intros fuel Hf.
        destruct fuel as [| k]; [lia |]. cbn [windLoop]. rewrite E1. cbn [andb].
        now rewrite app_nil_r. }
    destruct (ltb B (T - / 1000000000)) eqn:E2;
      [apply ltb_spec in E2 |].
    2:{ exists []. split; [constructor |]. intros fuel Hf.
        destruct fuel as [| k]; [lia |]. cbn [windLoop].
        rewrite (ltb_true L) by exact E1. rewrite E2. cbn [andb].
        now rewrite app_nil_r. }
    assert (Hcorner : Forall (within_rectangle hw hh)
                        [mkPoint R B 0; mkPoint R T 0; mkPoint L T 0]).
    { repeat (apply Forall_cons;
                [unfold within_rectangle; cbn [x y z]; repeat split; lra |]).
      apply Forall_nil. }
    assert (Hnext : R - stepover - (L + stepover) <= 2 * INR n * stepover + / 1000000000)
      by (rewrite S_INR in Hn; lra).
    destruct (ltb (L + stepover) (R - / 1000000000)
              && ltb (B + stepover) (T - / 1000000000)) eqn:E3.
    + apply andb_prop in E3 as [E3 E4]. apply ltb_spec in E3. apply ltb_spec in E4.
      destruct (IH (L + stepover) (R - stepover) (B + stepover) (T - stepover)
                  ((path ++ [mkPoint R B 0; mkPoint R T 0; mkPoint L T 0]) ++
                   [mkPoint L (B + stepover) 0; mkPoint (L + stepover) (B + stepover) 0])
                  Hs ltac:(lra) ltac:(lra) ltac:(lra) ltac:(lra) Hnext)
        as (added & Hadded & Hrun).
      exists ([mkPoint R B 0; mkPoint R T 0; mkPoint L T 0] ++
              [mkPoint L (B + stepover) 0; mkPoint (L + stepover) (B + stepover) 0] ++ added).
      split.
      * apply Forall_app. split; [exact Hcorner |]. apply Forall_app. split; [| exact Hadded].
        repeat (apply Forall_cons;
                  [unfold within_rectangle; cbn [x y z]; repeat split; lra |]).
        apply Forall_nil.
      * intros fuel Hf. destruct fuel as [| k]; [lia |]. cbn [windLoop].
        rewrite (ltb_true L), (ltb_true B), (ltb_true (L + stepover)),
          (ltb_true (B + stepover)) by assumption.
        cbn [andb]. rewrite Hrun by lia. f_equal. now rewrite <- !app_assoc.
    + destruct (IH (L + stepover) (R - stepover) (B + stepover) (T - stepover)
                  (path ++ [mkPoint R B 0; mkPoint R T 0; mkPoint L T 0])
                  Hs ltac:(lra) ltac:(lra) ltac:(lra) ltac:(lra) Hnext)
        as (added & Hadded & Hrun).
      exists ([mkPoint R B 0; mkPoint R T 0; mkPoint L T 0] ++ added).
      split; [apply Forall_app; now split |].
      intros fuel Hf. destruct fuel as [| k]; [lia |]. cbn [windLoop].
      rewrite (ltb_true L), (ltb_true B) by assumption. cbn [andb]. rewrite E3.
      rewrite Hrun by lia. f_equal. now rewrite <- app_assoc.
Qed.

Lemma windLoop_never_ends stepover fuel : forall L R B T path,
  stepover <= 0 -> L < R - / 1000000000 -> B < T - / 1000000000 ->
  windLoop fuel stepover L R B T path = None.
Proof.
  induction fuel as [| k IH]; intros L R B T path Hs HL HB; cbn [windLoop];
    [reflexivity |].
  rewrite (ltb_true L), (ltb_true B) by assumption. cbn [andb].
  apply IH; [exact Hs | lra | lra].
Qed.

(** For a pocket the tool fits in ([hw], [hh] positive): with a positive
    stepover the winding loop ends within [ceil(hw / stepover)] iterations and
    the path returned lies in the plane Z = 0 within the rectangle of half
    sides [hw] and [hh] (the pocket moved inward by the tool radius) and ends
    with the corners [(-hw, -hh)] and [(-hw, hh)]; with a stepover that is not
    positive the loop never ends once it starts. *)
Theorem generateSpiralPocketRectangle_within (shape : ShapeType) (sp : ShapeParams)
  (stepover toolRadius : R) :
  let hw := (match shape with SQUARE => size sp | _ => width sp end) / 2 - toolRadius in
  let hh := (match shape with SQUARE => size sp | _ => height sp end) / 2 - toolRadius in
  0 < hw -> 0 < hh ->
  (0 < stepover ->
   exists front,
     Forall (within_rectangle hw hh)
       (front ++ [mkPoint (- hw) (- hh) 0; mkPoint (- hw) hh 0]) /\
     forall fuel, (Z.to_nat (ceil (hw / stepover)) < fuel)%nat ->
       generateSpiralPocketRectangle fuel shape sp stepover toolRadius =
       Some (front ++ [mkPoint (- hw) (- hh) 0; mkPoint (- hw) hh 0])) /\
  (stepover <= 0 -> / 2000000000 < hw -> / 2000000000 < hh ->
   forall fuel, generateSpiralPocketRectangle fuel shape sp stepover toolRadius = None).
Proof.
  intros hw hh Hw Hh. unfold generateSpiralPocketRectangle. fold hw hh.
  rewrite (leb_false hw 0), (leb_false hh 0) by assumption. cbn [orb]. split.
  - intros Hs.
    set (n := Z.to_nat (ceil (hw / stepover))).
    assert (Hq : 0 < hw / stepover) by (apply Rdiv_lt_0_compat; assumption).
    assert (Hn : hw / stepover <= INR n).
    { unfold n. pose proof (ceil_pos (hw / stepover) Hq) as Hc.
      rewrite INR_IZR_INZ, Z2Nat.id by lia. unfold ceil. apply Zceil_bound. }
    assert (Hns : hw <= INR n * stepover).
    { replace hw with (hw / stepover * stepover) by (field; lra).
      apply Rmult_le_compat_r; lra. }
    destruct (windLoop_ends hw hh stepover n (- hw) hw (- hh) hh
                [mkPoint 0 0 0; mkPoint (- hw) (- hh) 0] Hs
                ltac:(lra) ltac:(lra) ltac:(lra) ltac:(lra) ltac:(lra))
      as (added & Hadded & Hrun).
    exists (rev added). split.
    + apply Forall_app. split; [now apply Forall_rev | in_rectangle].
    + intros fuel Hf. rewrite Hrun by exact Hf. reflexivity.
  - intros Hs Hw' Hh' fuel.
    rewrite windLoop_never_ends; [reflexivity | exact Hs | lra | lra].
Qed.

Lemma generateSpiralPocketRectangle_within_witness :
  exists front,
    Forall (within_rectangle (20 / 2 - 3) (20 / 2 - 3))
      (front ++ [mkPoint (- (20 / 2 - 3)) (- (20 / 2 - 3)) 0;
                 mkPoint (- (20 / 2 - 3)) (20 / 2 - 3) 0]) /\
    forall fuel, (Z.to_nat (ceil ((20 / 2 - 3) / 2)) < fuel)%nat ->
      generateSpiralPocketRectangle fuel SQUARE (mkShapeParams 0 20 0 0 0 0 0 0 0) 2 3 =
      Some (front ++ [mkPoint (- (20 / 2 - 3)) (- (20 / 2 - 3)) 0;
                      mkPoint (- (20 / 2 - 3)) (20 / 2 - 3) 0]).
Proof.
  assert (Hw : 0 < 20 / 2 - 3) by lra.
  apply (proj1 (generateSpiralPocketRectangle_within SQUARE
                  (mkShapeParams 0 20 0 0 0 0 0 0 0) 2 3 Hw Hw)). lra.
Defined.

End SpiralRectangleFacts.

(** ** Tab boundaries in a segment *)

Module TabBoundsFacts.
Import Js JsFacts Tabs TabBounds.










End TabBoundsFacts.

(** ** Where the origin transform puts the bounding box *)

Module OriginBoxFacts.
Import Js JsFacts Toolpath ToolpathFacts OriginBox.

Lemma ltb_add a b c : ltb (a + c) (b + c) = ltb a b.
Proof.
  destruct (ltb a b) eqn:E; [apply ltb_spec in E | apply ltb_nspec in E].
  - apply ltb_true. lra.
  - apply ltb_false. lra.
Qed.

Lemma bboxStep_translate sx sy sz b m :
  bboxStep (option_map (shiftBox sx sy) b) (translate sx sy sz m) =
  option_map (shiftBox sx sy) (bboxStep b m).
Proof.
  destruct b as [[[[minX minY] maxX] maxY] |]; [| reflexivity].
  unfold bboxStep, translate, gtb. cbn [option_map shiftBox x y].
  rewrite !ltb_add.
  destruct (ltb (x m) minX), (ltb (y m) minY), (ltb maxX (x m)), (ltb maxY (y m));
    reflexivity.
Qed.

Lemma boundingBox_translate sx sy sz moves : forall b,
  fold_left bboxStep (map (translate sx sy sz) moves) (option_map (shiftBox sx sy) b) =
  option_map (shiftBox sx sy) (fold_left bboxStep moves b).
Proof.
  induction moves as [| m moves IH]; intros b; [reflexivity |].
  cbn [map fold_left]. rewrite bboxStep_translate. apply IH.
Qed.

(** Without facing bounds, the origin transform moves the bounding box of
    the moves, keeping its size, to the place the origin setting names:
    centred on the origin, or with the named corner at the tool radius from
    the origin, inside the box for pockets and inside contours and outside it
    for outside contours. *)
Theorem applyOriginTransform_places_box (moves : list Move) (originParams : OriginParams)
  (totalDepth r : R) (operation : OperationType) (contourType : ContourType)
  (facingBounds : option FacingBounds) (box : R * R * R * R)
  (Hbox : boundingBox moves = Some box)
  (Hfacing : operation <> FACING_OP \/ facingBounds = None) :
  let contourOutside :=
    match operation, contourType with CONTOUR, outside => true | _, _ => false end in
  exists sx sy,
    boundingBox (applyOriginTransform moves originParams totalDepth r operation
                   contourType facingBounds) = Some (shiftBox sx sy box) /\
    placed (xyOrigin originParams) contourOutside r (shiftBox sx sy box).
Proof.
  intros contourOutside. unfold applyOriginTransform, originShift. rewrite Hbox.
  assert (Hnf : match operation, facingBounds with
                | FACING_OP, Some fb => Some fb
                | _, _ => None
                end = None).
  { destruct Hfacing as [H | ->]; destruct operation; try reflexivity; congruence. }
  rewrite Hnf. fold contourOutside.
  destruct box as [[[minX minY] maxX] maxY].
  assert (Hgo : forall sx sy,
            placed (xyOrigin originParams) contourOutside r
              (shiftBox sx sy (minX, minY, maxX, maxY)) ->
            exists sx' sy',
              boundingBox (map (shiftMove sx sy (zOrigin originParams) totalDepth
                                  (zOffset originParams)) moves) =
                Some (shiftBox sx' sy' (minX, minY, maxX, maxY)) /\
              placed (xyOrigin originParams) contourOutside r
                (shiftBox sx' sy' (minX, minY, maxX, maxY))).
  { intros sx sy Hp. exists sx, sy. split; [| exact Hp].
    rewrite (map_ext _ (translate sx sy (zShift originParams totalDepth)))
      by (intros m; rewrite shiftMove_translate; unfold zShift;
          destruct (zOrigin originParams); reflexivity).
    unfold boundingBox in *.
    pose proof (boundingBox_translate sx sy (zShift originParams totalDepth) moves None) as H.
    cbn [option_map] in H. rewrite H, Hbox. reflexivity. }
  destruct (xyOrigin originParams), contourOutside; cbn [isCenter negb];
    apply Hgo; cbn [shiftBox placed]; split; field.
Qed.

Lemma twoMoves_box : boundingBox twoMoves = Some (0, 0, 4, 2).
Proof.
  unfold boundingBox, twoMoves. cbn [fold_left bboxStep x y]. unfold gtb.
  rewrite (ltb_false 4 0), (ltb_false 2 0), (ltb_true 0 4), (ltb_true 0 2) by lra.
  reflexivity.
Qed.

Lemma applyOriginTransform_places_box_witness :
  exists sx sy,
    boundingBox (applyOriginTransform twoMoves (mkOrigin BOTTOM_LEFT STOCK_TOP 0) 1 3
                   POCKET inside None) = Some (shiftBox sx sy (0, 0, 4, 2)) /\
    placed BOTTOM_LEFT false 3 (shiftBox sx sy (0, 0, 4, 2)).
Proof.
  apply (applyOriginTransform_places_box twoMoves (mkOrigin BOTTOM_LEFT STOCK_TOP 0) 1 3
           POCKET inside None (0, 0, 4, 2) twoMoves_box).
  left. discriminate.
Defined.

End OriginBoxFacts.

(** ** Showing the estimate *)

Module FormatTimeFacts.
Import Js JsFacts FormatTime.

Lemma round_between x : 0 <= x <= 60 -> (0 <= round x <= 60)%Z.
Proof.
  intros Hx.
  assert (H0 : round 0 = 0%Z) by (apply round_eq; lra).
  assert (H60 : round 60 = 60%Z) by (apply round_eq; lra).
  pose proof (round_le 0 x ltac:(lra)). pose proof (round_le x 60 ltac:(lra)). lia.
Qed.

(** The numbers shown stay in range, the upper end 60 included: seconds and
    minutes are between 1 and 60, hours are at least 1 with minutes between 0
    and 60; the dash stands for a time that is negative or not finite; and
    "1 h 60 min" is shown for 119.5 minutes. *)
Theorem formatEstimatedTime_ranges (totalMinutes : Validate.Num) :
  match formatEstimatedTime totalMinutes with
  | dash => forall t, totalMinutes = Validate.Fin t -> t < 0
  | under1Min => exists t, totalMinutes = Validate.Fin t /\ 0 <= t < / 120
  | seconds sec => (1 <= sec <= 60)%Z
  | minutes min => (1 <= min <= 60)%Z
  | hoursMinutes h m => (1 <= h)%Z /\ (0 <= m <= 60)%Z
  end /\
  formatEstimatedTime (Validate.Fin (239 / 2)) = hoursMinutes 1 60.
Proof.
  split.
  - destruct totalMinutes as [| | | t]; cbn [formatEstimatedTime];
      try (intros t Ht; discriminate).
    destruct (ltb t 0) eqn:E0; [apply ltb_spec in E0 | apply ltb_nspec in E0].
    { intros t' Ht. inversion Ht. lra. }
    destruct (ltb t 1) eqn:E1; [apply ltb_spec in E1 | apply ltb_nspec in E1].
    { pose proof (round_between (t * 60) ltac:(lra)) as Hr.
      destruct (Z.leb_spec (round (t * 60)) 0) as [Hle | Hgt]; [| lia].
      exists t. split; [reflexivity |]. split; [exact E0 |].
      destruct (Rlt_dec t (/ 120)) as [| Hn]; [assumption | exfalso].
      pose proof (round_le (/ 2) (t * 60) ltac:(lra)) as Hm.
      assert (H1 : round (/ 2) = 1%Z) by (apply round_eq; lra). lia. }
    destruct (ltb t 60) eqn:E2; [apply ltb_spec in E2 | apply ltb_nspec in E2].
    { pose proof (round_between t ltac:(lra)) as Hr.
      pose proof (round_le 1 t E1) as Hm.
      assert (H1 : round 1 = 1%Z) by (apply round_eq; lra). lia. }
    assert (Hq : 1 <= t / 60) by lra.
    assert (Htr : Letters.trunc (t / 60) = Zfloor (t / 60)).
    { unfold Letters.trunc. rewrite leb_true by lra. reflexivity. }
    destruct (Zfloor_bound (t / 60)) as [Hlo Hhi].
    split.
    + apply le_IZR. 
      assert (H0 : 0 < IZR (Zfloor (t / 60))) by lra.
      apply lt_IZR in H0. apply IZR_le. lia.
    + apply round_between. unfold Letters.rem. rewrite Htr. lra.
  - cbn [formatEstimatedTime].
    rewrite (ltb_false (239 / 2) 0), (ltb_false (239 / 2) 1), (ltb_false (239 / 2) 60) by lra.
    assert (Hf : Zfloor (239 / 2 / 60) = 1%Z) by (apply Zfloor_eq; lra).
    assert (Htr : Letters.trunc (239 / 2 / 60) = 1%Z).
    { unfold Letters.trunc. rewrite leb_true by lra. exact Hf. }
    rewrite Hf. f_equal. unfold Letters.rem. rewrite Htr. apply round_eq. lra.
Qed.

End FormatTimeFacts.

(** ** Finite coordinates *)

Module FinitenessFacts.
Import Js JsFacts Validate ValidateFacts Finiteness.

(** *** The range *)

Lemma threshold_pos : 0 < overflowThreshold.
Proof. unfold overflowThreshold. apply IZR_lt. vm_compute. reflexivity. Qed.

Lemma bound_room : 10 * bound + 10 < overflowThreshold.
Proof.
  unfold bound, overflowThreshold. rewrite <- mult_IZR, <- plus_IZR.
  apply IZR_lt. vm_compute. reflexivity.
Qed.







(** *** Operations that stay inside the range *)

Lemma ofR_fin v : - overflowThreshold < v < overflowThreshold -> ofR v = Fin v.
Proof.
  intros [Hlo Hhi]. unfold ofR. rewrite leb_false by exact Hhi.
  rewrite leb_false by exact Hlo. reflexivity.
Qed.

Lemma addN_fin u v :
  - overflowThreshold < u + v < overflowThreshold -> addN (Fin u) (Fin v) = Fin (u + v).
Proof. intros H. cbn [addN]. now apply ofR_fin. Qed.

Lemma subN_fin u v :
  - overflowThreshold < u - v < overflowThreshold -> subN (Fin u) (Fin v) = Fin (u - v).
Proof. intros H. unfold subN. cbn [negN addN]. now apply ofR_fin. Qed.


Lemma divN_fin u v :
  v <> 0 -> - overflowThreshold < u / v < overflowThreshold ->
  divN (Fin u) (Fin v) = Fin (u / v).
Proof.
  intros Hv H. cbn [divN]. destruct (Req_dec_T v 0) as [E | _]; [contradiction |].
  now apply ofR_fin.
Qed.

(** *** Depth levels *)



(** At a stepdown of 0 the number of layers is [Infinity]: the loop of
    [computeDepthLevels] has no end and [generateToolpath] does not return. *)
Lemma generateToolpath_zero_stepdown rq td :
  totalDepth (cutParams (raw rq)) = Fin td -> 0 < td ->
  stepdown (cutParams (raw rq)) = Fin 0 ->
  generateToolpath rq = NoReturn.
Proof.
  intros Htd Hpos Hsd. unfold generateToolpath, computeDepthLevels, numLayers.
  cbv zeta. rewrite Htd, Hsd. cbn [divN].
  destruct (Req_dec_T 0 0) as [_ | Hne]; [| contradiction].
  destruct (Req_dec_T td 0) as [E | _]; [lra |].
  unfold infinityOfSign. rewrite ltb_true by exact Hpos. reflexivity.
Qed.

(** *** The moves before the origin transform *)












(** *** The origin transform *)

Lemma Rabs_between a b : Rabs a <= b -> - b <= a <= b.
Proof. unfold Rabs. destruct (Rcase_abs a); lra. Qed.






(** *** The origin transform on any moves *)

Lemma bboxStep_bounded b box m :
  boundedBox b box -> boundedMove b m -> boundedBox b (bboxStep box m).
Proof.
  intros (minX & minY & maxX & maxY & -> & H1 & H2 & H3 & H4)
         ((u & Hx & Hu) & (v & Hy & Hv) & _).
  unfold bboxStep. rewrite Hx, Hy. cbn [isFinite negb orb ltN gtN].
  destruct (ltb u minX), (ltb v minY), (ltb maxX u), (ltb maxY v);
    eexists _, _, _, _; (split; [reflexivity |]); auto.
Qed.

Lemma bboxStep_first b m :
  boundedMove b m -> boundedBox b (bboxStep (PosInf, PosInf, NegInf, NegInf) m).
Proof.
  intros ((u & Hx & Hu) & (v & Hy & Hv) & _).
  unfold bboxStep. rewrite Hx, Hy. cbn [isFinite negb orb ltN gtN].
  exists u, v, u, v. auto.
Qed.

Lemma boundingBox_bounded b moves :
  moves <> [] -> Forall (boundedMove b) moves -> boundedBox b (boundingBox moves).
Proof.
  destruct moves as [| m ms]; [contradiction |]. intros _ Hall.
  inversion Hall as [| ? ? Hm Hms]; subst. unfold boundingBox. cbn [fold_left].
  pose proof (bboxStep_first b m Hm) as Hbox. clear Hall Hm.
  revert Hbox. generalize (bboxStep (PosInf, PosInf, NegInf, NegInf) m).
  induction ms as [| m' ms IH]; intros box Hbox; [exact Hbox |].
  inversion Hms as [| ? ? Hm' Hms']; subst. cbn [fold_left].
  apply IH; [exact Hms' |]. now apply bboxStep_bounded.
Qed.

(** The shift of a bounding box, a tool radius and facing bounds within
    1e300 is finite and within 2e300, whatever the operation and origin. *)
Lemma originShift_bounded box o rho operation ct fb :
  boundedBox bound box -> Rabs rho <= bound ->
  match fb with
  | Some f => exists w h, f = mkBounds (Fin w) (Fin h) /\ Rabs w <= bound /\ Rabs h <= bound
  | None => True
  end ->
  exists a b,
    originShift box o (Fin rho) operation ct fb = (Fin a, Fin b) /\
    Rabs a <= 2 * bound /\ Rabs b <= 2 * bound.
Proof.
  intros (minX & minY & maxX & maxY & -> & H1 & H2 & H3 & H4) Hrho Hfb.
  apply Rabs_between in H1, H2, H3, H4, Hrho.
  pose proof bound_room as Hroom. pose proof threshold_pos as HT.
  assert (Hdone : forall a b : R, - (2 * bound) <= a <= 2 * bound ->
            - (2 * bound) <= b <= 2 * bound ->
            exists a' b', (Fin a, Fin b) = (Fin a', Fin b') /\
                          Rabs a' <= 2 * bound /\ Rabs b' <= 2 * bound).
  { intros a b Ha Hb. exists a, b. split; [reflexivity |]. split; apply Rabs_le; lra. }
  unfold originShift. cbn [isFinite].
  destruct fb as [f |];
    [destruct Hfb as (w & h & -> & Hw & Hh); apply Rabs_between in Hw, Hh |];
    destruct operation, ct, o;
    cbn [Toolpath.isCenter negb negN hw hh];
    repeat first [rewrite addN_fin by lra | rewrite subN_fin by lra];
    try (cbn [negN]; rewrite !divN_fin by lra);
    apply Hdone; lra.
Qed.

Lemma shiftMove_bounded a b zmode td zo m :
  Rabs a <= 2 * bound -> Rabs b <= 2 * bound -> Rabs td <= bound -> Rabs zo <= bound ->
  boundedMove bound m ->
  finiteMove (shiftMove (Fin a) (Fin b) zmode (Fin td) (orZeroN (Fin zo)) m).
Proof.
  intros Ha Hb Htd Hzo ((u & Hx & Hu) & (v & Hy & Hv) & (w & Hz & Hw)).
  apply Rabs_between in Ha, Hb, Htd, Hzo, Hu, Hv, Hw.
  pose proof bound_room as Hroom. pose proof threshold_pos as HT.
  unfold shiftMove, finiteMove. cbn [x y z orZeroN]. rewrite Hx, Hy, Hz.
  destruct zmode; rewrite !addN_fin by lra; repeat split.
Qed.

(** On every path through [generateToolpath]: given moves with finite
    coordinates, and these, the total depth, the tool radius, the Z offset
    and the facing bounds within 1e300, [applyOriginTransform] gives moves
    with finite coordinates. *)
Lemma applyOriginTransform_finite moves o td rho zo operation ct fb :
  Forall (boundedMove bound) moves ->
  Rabs td <= bound -> Rabs rho <= bound ->
  zOffset o = Fin zo -> Rabs zo <= bound ->
  match fb with
  | Some f => exists w h, f = mkBounds (Fin w) (Fin h) /\ Rabs w <= bound /\ Rabs h <= bound
  | None => True
  end ->
  Forall finiteMove (applyOriginTransform moves o (Fin td) (Fin rho) operation ct fb).
Proof.
  intros Hall Htd Hrho Ezo Hzo Hfb.
  destruct moves as [| m ms].
  { unfold applyOriginTransform. destruct (originShift _ _ _ _ _ _). constructor. }
  destruct (originShift_bounded (boundingBox (m :: ms)) (xyOrigin o) rho operation ct fb)
    as (a & b & Hshift & Ha & Hb); try assumption.
  { apply boundingBox_bounded; [discriminate | exact Hall]. }
  unfold applyOriginTransform. rewrite Hshift, Ezo.
  apply Forall_forall. intros m' Hm'. apply in_map_iff in Hm' as (m0 & <- & Hm0).
  rewrite Forall_forall in Hall. apply shiftMove_bounded; auto.
Qed.

(** *** Accepted requests *)










End FinitenessFacts.
